(** * Lantern flashlight client: the CONNECT handler

    A shallow embedding of [flashlight/client/handler.go]: the QoS
    resolver [targetQOS], the address defaulting [hostIncludingPort],
    and the tunnel establisher [intercept] together with the
    bidirectional pipe [pipeData], the latter two as a small-step
    machine with one main thread and one asynchronous copy task.

    The functions of the Go library that the handler calls
    ([strconv.Atoi], [strconv.Itoa], [net.SplitHostPort]) are embedded
    from their definition; the balancer, the detour layer, the sockets
    and the clock are collaborators, given as a record [Env].  The
    dispatch of [ServeHTTP] and the reporting goroutine started by
    [init], which only reads the registries, come after the machine. *)

From Stdlib Require Import ZArith String Ascii DecimalString DecimalPos.
From stdpp Require Import base tactics option list relations gmap strings.

Local Open Scope string_scope.
Local Open Scope list_scope.
Local Open Scope Z_scope.

(** ** Constants of the handler *)

Definition httpConnectMethod : string := "CONNECT".
Definition httpXFlashlightQOS : string := "X-Flashlight-QOS".

(** ** Go strings and the library functions the handler calls

    A Go string is a sequence of bytes, here a [string] of [ascii].
    Indices are Go [int]s, here [Z]; [-1] is the "not found" value. *)

Module GoString.

(** [len(s)] *)
Definition len (s : string) : Z := Z.of_nat (String.length s).

(** [s[j:]] *)
Definition slice_from (s : string) (j : Z) : string :=
  String.substring (Z.to_nat j) (String.length s - Z.to_nat j) s.

(** [s[:i]] *)
Definition slice_to (s : string) (i : Z) : string :=
  String.substring 0 (Z.to_nat i) s.

(** [s[j:k]] *)
Definition slice (s : string) (j k : Z) : string :=
  String.substring (Z.to_nat j) (Z.to_nat k - Z.to_nat j) s.

(** [s[i]], for an index in range *)
Definition at_ (s : string) (i : Z) : option ascii := String.get (Z.to_nat i) s.

(** Index of the first byte [c] of [s], or [-1]. *)
Fixpoint IndexByteString (s : string) (c : ascii) : Z :=
  match s with
  | EmptyString => -1
  | String a s' =>
      if Ascii.eqb a c then 0
      else let r := IndexByteString s' c in
           if r <? 0 then -1 else 1 + r
  end.

(** [net.last]: index of the last byte [c] of [s], or [-1]. *)
Fixpoint last (s : string) (c : ascii) : Z :=
  match s with
  | EmptyString => -1
  | String a s' =>
      let r := last s' c in
      if 0 <=? r then 1 + r
      else if Ascii.eqb a c then 0 else -1
  end.

End GoString.

(** *** [strconv] *)

Module strconv.

Inductive NumError := ErrSyntax | ErrRange.

(** The handler runs with 64-bit [int]. *)
Definition intSize : Z := 64.
Definition maxUint64 : Z := 2 ^ 64 - 1.

Definition digit_of (ch : ascii) : option Z :=
  let n := Z.of_N (N_of_ascii ch) in
  if (48 <=? n) && (n <=? 57) then Some (n - 48) else None.

(** The digit loop of [ParseUint] in base 10: a byte that is no digit
    is a syntax error, a value beyond 64 bits a range error, whichever
    comes first. *)
Fixpoint parse_digits (s : string) (n : Z) : Z + NumError :=
  match s with
  | EmptyString => inl n
  | String ch s' =>
      match digit_of ch with
      | None => inr ErrSyntax
      | Some d =>
          if n >=? maxUint64 / 10 + 1 then inr ErrRange
          else
            let n1 := n * 10 + d in
            if n1 >? maxUint64 then inr ErrRange
            else parse_digits s' n1
      end
  end.

Definition ParseUint (s : string) : Z + NumError :=
  match s with
  | EmptyString => inr ErrSyntax
  | _ => parse_digits s 0
  end.

(** [ParseInt(s, 10, 0)]: an optional sign, then [ParseUint], then the
    check against the range of [int]. *)
Definition ParseInt (s : string) : Z + NumError :=
  match s with
  | EmptyString => inr ErrSyntax
  | String c rest =>
      let neg := Ascii.eqb c "-" in
      let s1 := if Ascii.eqb c "+" || neg then rest else s in
      match ParseUint s1 with
      | inr e => inr e
      | inl un =>
          let cutoff := 2 ^ (intSize - 1) in
          if negb neg && (un >=? cutoff) then inr ErrRange
          else if neg && (un >? cutoff) then inr ErrRange
          else inl (if neg then - un else un)
      end
  end.

(** [strconv.Atoi] *)
Definition Atoi (s : string) : Z + NumError := ParseInt s.

(** [strconv.Itoa] *)
Definition Itoa (n : Z) : string := NilZero.string_of_int (Z.to_int n).

(** The number a run of decimal digits stands for, after the digits
    already read as [n]. *)
Fixpoint zacc (d : Decimal.uint) (n : Z) : Z :=
  match d with
  | Decimal.Nil => n
  | Decimal.D0 l => zacc l (10 * n)
  | Decimal.D1 l => zacc l (10 * n + 1)
  | Decimal.D2 l => zacc l (10 * n + 2)
  | Decimal.D3 l => zacc l (10 * n + 3)
  | Decimal.D4 l => zacc l (10 * n + 4)
  | Decimal.D5 l => zacc l (10 * n + 5)
  | Decimal.D6 l => zacc l (10 * n + 6)
  | Decimal.D7 l => zacc l (10 * n + 7)
  | Decimal.D8 l => zacc l (10 * n + 8)
  | Decimal.D9 l => zacc l (10 * n + 9)
  end.

End strconv.

(** *** [net.SplitHostPort] *)

Module net.

Import GoString.

Inductive AddrError :=
| missingPort
| tooManyColons
| missingCloseBracket
| unexpectedOpenBracket
| unexpectedCloseBracket.

Definition has (s : string) (c : ascii) : bool := 0 <=? IndexByteString s c.

(** [SplitHostPort(hostport)] returns [(host, port)] or an error.
    The port starts after the last colon; a host in brackets must end
    just before that colon; a colon in a host without brackets, and a
    stray bracket anywhere, are errors. *)
Definition SplitHostPort (hostport : string) : (string * string) + AddrError :=
  let i := last hostport ":" in
  if i <? 0 then inr missingPort
  else
    let bracketed :=
      match at_ hostport 0 with
      | Some c => Ascii.eqb c "["
      | None => false
      end in
    let tail (host : string) (j k : Z) :=
      if has (slice_from hostport j) "[" then inr unexpectedOpenBracket
      else if has (slice_from hostport k) "]" then inr unexpectedCloseBracket
      else inl (host, slice_from hostport (i + 1)) in
    if bracketed then
      let end_ := IndexByteString hostport "]" in
      if end_ <? 0 then inr missingCloseBracket
      else if end_ + 1 =? len hostport then inr missingPort
      else if end_ + 1 =? i then tail (slice hostport 1 end_) 1 (end_ + 1)
      else
        match at_ hostport (end_ + 1) with
        | Some c => if Ascii.eqb c ":" then inr tooManyColons else inr missingPort
        | None => inr missingPort
        end
    else
      let host := slice_to hostport i in
      if has host ":" then inr tooManyColons
      else tail host 0 0.

End net.

(** ** Requests and the client configuration *)

(** [http.Request], the fields the handler reads.  [Header] maps a
    header name to its values, as [http.Header] does. *)
Record Request := {
  Method : string;
  Host : string;
  Header : gmap string (list string);
}.

(** [Header.Get]: the first value of the header, or the empty string.
    Header names are compared in their canonical form; the map is keyed
    by the name as the lookup spells it. *)
Definition Header_Get (h : gmap string (list string)) (key : string) : string :=
  match h !! key with
  | Some (v :: _) => v
  | _ => ""
  end.

(** [Client], the fields the handler reads. *)
Record Client := {
  MinQOS : Z;
  ProxyAll : bool;
}.

(** ** The QoS resolver *)

Definition targetQOS (client : Client) (req : Request) : Z :=
  let requestedQOS := Header_Get (Header req) httpXFlashlightQOS in
  if decide (requestedQOS ≠ "") then
    match strconv.Atoi requestedQOS with
    | inl rqos => rqos
    | inr _ => MinQOS client
    end
  else MinQOS client.

(** ** Address defaulting *)

Definition hostIncludingPort (req : Request) (defaultPort : Z) : string :=
  match net.SplitHostPort (Host req) with
  | inl (_, port) =>
      if decide (port = "") then Host req +:+ ":" +:+ strconv.Itoa defaultPort
      else Host req
  | inr _ => Host req +:+ ":" +:+ strconv.Itoa defaultPort
  end.

Definition mkReq (host : string) (hdr : list (string * list string)) : Request :=
  {| Method := httpConnectMethod; Host := host; Header := list_to_map hdr |}.

(** ** Connections, registries and the collaborators

    A [net.Conn] is known by the identity of the object; the registries
    are keyed by it. *)

Abbreviation Conn := positive.

Record connMeta := {
  hostAddr : string;
  peerAddr : string;
  establishedAt : Z;
}.

(** What the handler writes on: the [http.ResponseWriter] of the request
    or a connection. *)
Inductive Writer :=
| W_resp
| W_conn (c : Conn).

(** What it writes: an [http.Response] of a given status, with no
    header and no body, serialised by [resp.Write]; or raw bytes. *)
Inductive Wire :=
| StatusResponse (code : Z)
| Bytes (b : string).

Definition StatusOK : Z := 200.
Definition StatusBadGateway : Z := 502.

(** The two threads of a tunnel attempt: the calling context and the
    goroutine that copies from the client to the outbound connection. *)
Inductive Tid := MainT | CopyT.

(** The collaborators of one attempt.  An error is known by its text;
    a call that may panic answers [None] when it does. *)
Record Env := {
  GOOS : string;
  (** [resp.(http.Hijacker)]: [None] when the response writer has no
      [Hijack] method, else what [Hijack()] returns. *)
  hijacker : option (Conn + string);
  (** [c.RemoteAddr().String()], [None] when the call panics. *)
  RemoteAddr : Conn → option string;
  (** [client.getBalancer().DialQOS(network, addr, qos)] *)
  DialQOS : string → string → Z → Conn + string;
  (** [detour.Dialer] *)
  detour_Dialer : (string → string → Conn + string) → string → string → Conn + string;
  (** The error of a write, [None] when it succeeds. *)
  write_err : Writer → Wire → option string;
  (** [time.Now()] at the two registrations. *)
  now_client : Z;
  now_out : Z;
}.

(** The observable actions of an attempt, oldest first in a trace:
    - [EvHijack c]: [Hijack()] returned the socket [c];
    - [EvWrite w x ok]: [x] was written on [w], with or without error;
    - [EvDialQOS network addr qos]: [intercept] called its base dial
      function [d] itself, which calls [DialQOS];
    - [EvDetourDialer]: [intercept] called [detour.Dialer(d)];
    - [EvDetourDial network addr]: it called the function returned;
    - [EvWgAdd], [EvWgDone]: [wg.Add(1)], [wg.Done()];
    - [EvWgWait]: [wg.Wait()] returned;
    - [EvCopyEnd t dst src]: [io.Copy(dst, src)] returned in thread [t];
    - [EvClose t c]: [c.Close()] returned in thread [t];
    - [EvLogError msg]: [log.Errorf]. *)
Inductive Event :=
| EvHijack (c : Conn)
| EvWrite (w : Writer) (x : Wire) (ok : bool)
| EvDialQOS (network addr : string) (qos : Z)
| EvDetourDialer
| EvDetourDial (network addr : string)
| EvWgAdd
| EvWgDone
| EvWgWait
| EvCopyEnd (t : Tid) (dst src : Conn)
| EvClose (t : Tid) (c : Conn)
| EvLogError (msg : string).

(** A deferred function of [intercept] is a [Close] followed by a
    [delete] under the lock; the stack holds them call by call. *)
Inductive Cleanup :=
| DoClose (c : Conn)
| DoDeleteClient (c : Conn)
| DoDeleteOut (c : Conn).

Inductive Outcome :=
| Returned
| Panicked (msg : string).

(** Program points of the calling context, [intercept] with [pipeData]
    inlined; each is named after the statement about to run:
    the check of the method (line 81), [Hijack] (89), the registration
    of the client socket and the first [defer] (93-101), the dial
    (103-114), [respondBadGateway] on the client socket (117), the
    registration of the outbound socket and the second [defer]
    (121-138), [wg.Add] and [go] (164-174), [respondOK] (177),
    [wg.Done] and the test of the error (178-182), the copy from the
    outbound to the client socket (185), the deferred calls, the end. *)
Inductive MainPc :=
| PcEntry
| PcHijack
| PcRegisterClient (clientConn : Conn)
| PcDial (clientConn : Conn)
| PcBadGateway (clientConn : Conn) (err : string)
| PcRegisterOut (clientConn connOut : Conn)
| PcPipe (clientConn connOut : Conn)
| PcRespondOK (clientConn connOut : Conn)
| PcWgDone (clientConn connOut : Conn) (err : option string)
| PcCopyBack (clientConn connOut : Conn)
| PcUnwind (o : Outcome)
| PcFinished (o : Outcome).

(** Program points of the goroutine of [pipeData]: the copy from the
    client to the outbound socket (line 167), [wg.Wait] (172),
    [clientConn.Close] (173). *)
Inductive TaskPc :=
| TNotStarted
| TCopy (clientConn connOut : Conn)
| TWait (clientConn : Conn)
| TClose (clientConn : Conn)
| TDone.

(** The state of an attempt: where the two threads are, the counter of
    the wait group, the stack of deferred calls of [intercept], whether
    [muConns] is held, the two registries, and what happened so far. *)
Record State := {
  pc : MainPc;
  task : TaskPc;
  wg : Z;
  defers : list Cleanup;
  muConns : bool;
  clientConns : gmap positive connMeta;
  conns : gmap positive connMeta;
  trace : list Event;
}.

#[global] Instance Writer_eq_dec : EqDecision Writer.
Proof. solve_decision. Defined.
#[global] Instance Wire_eq_dec : EqDecision Wire.
Proof. solve_decision. Defined.
#[global] Instance Tid_eq_dec : EqDecision Tid.
Proof. solve_decision. Defined.
#[global] Instance Event_eq_dec : EqDecision Event.
Proof. solve_decision. Defined.
#[global] Instance Cleanup_eq_dec : EqDecision Cleanup.
Proof. solve_decision. Defined.

Definition goto (p : MainPc) (s : State) : State :=
  {| pc := p; task := task s; wg := wg s; defers := defers s; muConns := muConns s;
     clientConns := clientConns s; conns := conns s; trace := trace s |}.

Definition set_task (t : TaskPc) (s : State) : State :=
  {| pc := pc s; task := t; wg := wg s; defers := defers s; muConns := muConns s;
     clientConns := clientConns s; conns := conns s; trace := trace s |}.

Definition wg_add (n : Z) (s : State) : State :=
  {| pc := pc s; task := task s; wg := wg s + n; defers := defers s; muConns := muConns s;
     clientConns := clientConns s; conns := conns s; trace := trace s |}.

Definition set_defers (d : list Cleanup) (s : State) : State :=
  {| pc := pc s; task := task s; wg := wg s; defers := d; muConns := muConns s;
     clientConns := clientConns s; conns := conns s; trace := trace s |}.

Definition set_muConns (b : bool) (s : State) : State :=
  {| pc := pc s; task := task s; wg := wg s; defers := defers s; muConns := b;
     clientConns := clientConns s; conns := conns s; trace := trace s |}.

Definition set_clientConns (m : gmap positive connMeta) (s : State) : State :=
  {| pc := pc s; task := task s; wg := wg s; defers := defers s; muConns := muConns s;
     clientConns := m; conns := conns s; trace := trace s |}.

Definition set_conns (m : gmap positive connMeta) (s : State) : State :=
  {| pc := pc s; task := task s; wg := wg s; defers := defers s; muConns := muConns s;
     clientConns := clientConns s; conns := m; trace := trace s |}.

Definition emit (es : list Event) (s : State) : State :=
  {| pc := pc s; task := task s; wg := wg s; defers := defers s; muConns := muConns s;
     clientConns := clientConns s; conns := conns s; trace := trace s ++ es |}.

(** The state in which [intercept] is entered: nothing deferred, the
    lock free, the registries as the other attempts left them. *)
Definition initial (Rc Ro : gmap positive connMeta) : State :=
  {| pc := PcEntry; task := TNotStarted; wg := 0; defers := []; muConns := false;
     clientConns := Rc; conns := Ro; trace := [] |}.

(** ** The tunnel establisher and the bidirectional pipe *)

Section Tunnel.

Context (env : Env) (client : Client) (req : Request).

(** [respondBadGateway(w, msg)]: the 502 response, then the message
    when the response was written without error. *)
Definition respondBadGateway (w : Writer) (msg : string) : list Event :=
  match write_err env w (StatusResponse StatusBadGateway) with
  | Some _ => [EvWrite w (StatusResponse StatusBadGateway) false]
  | None =>
      [EvWrite w (StatusResponse StatusBadGateway) true;
       EvWrite w (Bytes msg) (bool_decide (write_err env w (Bytes msg) = None))]
  end.

(** [respondOK(writer, req)]: the 200 response; the error is returned. *)
Definition respondOK (w : Writer) : option string * list Event :=
  let err := write_err env w (StatusResponse StatusOK) in
  (err, [EvWrite w (StatusResponse StatusOK) (bool_decide (err = None))]).

(** The base dial function [d] of [intercept]: it ignores its network
    argument and pins the QoS class of the request. *)
Definition d (network addr : string) : Conn + string :=
  DialQOS env "tcp" addr (targetQOS client req).

(** [runtime.GOOS == "android" || client.ProxyAll] *)
Definition forceDirect : bool :=
  bool_decide (GOOS env = "android") || ProxyAll client.

(** The dial of [intercept]: [d] itself, or [d] wrapped by
    [detour.Dialer]. *)
Definition dial (addr : string) : (Conn + string) * list Event :=
  if forceDirect
  then (d "tcp" addr, [EvDialQOS "tcp" addr (targetQOS client req)])
  else (detour_Dialer env d "tcp" addr, [EvDetourDialer; EvDetourDial "tcp" addr]).

(** One step of the calling context; [None] when it is finished or
    waits for the lock. *)
Definition step_main (s : State) : option State :=
  match pc s with
  | PcEntry =>
      if decide (Method req ≠ httpConnectMethod)
      then Some (goto (PcUnwind (Panicked "Intercept used for non-CONNECT request!")) s)
      else Some (goto PcHijack s)
  | PcHijack =>
      match hijacker env with
      | None =>
          Some (goto (PcUnwind (Panicked "interface conversion: not a http.Hijacker")) s)
      | Some (inr err) =>
          Some (goto (PcUnwind Returned)
                  (emit (respondBadGateway W_resp ("Unable to hijack connection: " +:+ err)) s))
      | Some (inl c) => Some (goto (PcRegisterClient c) (emit [EvHijack c] s))
      end
  | PcRegisterClient c =>
      if muConns s then None
      else
        match RemoteAddr env c with
        | None => Some (goto (PcUnwind (Panicked "RemoteAddr")) (set_muConns true s))
        | Some peer =>
            let meta := {| hostAddr := Host req; peerAddr := peer;
                           establishedAt := now_client env |} in
            Some (goto (PcDial c)
                    (set_defers (DoClose c :: DoDeleteClient c :: defers s)
                       (set_clientConns (<[c := meta]> (clientConns s)) s)))
        end
  | PcDial c =>
      let addr := hostIncludingPort req 443 in
      match dial addr with
      | (inr err, evs) => Some (goto (PcBadGateway c err) (emit evs s))
      | (inl out, evs) => Some (goto (PcRegisterOut c out) (emit evs s))
      end
  | PcBadGateway c err =>
      Some (goto (PcUnwind Returned)
              (emit (respondBadGateway (W_conn c)
                       ("Unable to handle CONNECT request: " +:+ err)) s))
  | PcRegisterOut c out =>
      if muConns s then None
      else
        let serverAddr := default "" (RemoteAddr env out) in
        let meta := {| hostAddr := hostIncludingPort req 443; peerAddr := serverAddr;
                       establishedAt := now_out env |} in
        Some (goto (PcPipe c out)
                (set_defers (DoClose out :: DoDeleteOut out :: defers s)
                   (set_conns (<[out := meta]> (conns s)) s)))
  | PcPipe c out =>
      Some (goto (PcRespondOK c out)
              (set_task (TCopy c out) (wg_add 1 (emit [EvWgAdd] s))))
  | PcRespondOK c out =>
      let '(err, evs) := respondOK (W_conn c) in
      Some (goto (PcWgDone c out err) (emit evs s))
  | PcWgDone c out err =>
      let s1 := wg_add (-1) (emit [EvWgDone] s) in
      match err with
      | Some e =>
          Some (goto (PcUnwind Returned)
                  (emit [EvLogError ("Unable to respond OK: " +:+ e)] s1))
      | None => Some (goto (PcCopyBack c out) s1)
      end
  | PcCopyBack c out =>
      Some (goto (PcUnwind Returned) (emit [EvCopyEnd MainT c out] s))
  | PcUnwind o =>
      match defers s with
      | [] => Some (goto (PcFinished o) s)
      | DoClose c :: rest => Some (set_defers rest (emit [EvClose MainT c] s))
      | DoDeleteClient c :: rest =>
          if muConns s then None
          else Some (set_defers rest (set_clientConns (delete c (clientConns s)) s))
      | DoDeleteOut c :: rest =>
          if muConns s then None
          else Some (set_defers rest (set_conns (delete c (conns s)) s))
      end
  | PcFinished _ => None
  end.

(** One step of the goroutine; [None] when it is not running or waits
    for the counter of the wait group to reach zero. *)
Definition step_task (s : State) : option State :=
  match task s with
  | TNotStarted => None
  | TCopy c out => Some (set_task (TWait c) (emit [EvCopyEnd CopyT out c] s))
  | TWait c =>
      if decide (wg s = 0) then Some (set_task (TClose c) (emit [EvWgWait] s))
      else None
  | TClose c => Some (set_task TDone (emit [EvClose CopyT c] s))
  | TDone => None
  end.

Definition step_of (t : Tid) (s : State) : option State :=
  match t with
  | MainT => step_main s
  | CopyT => step_task s
  end.

(** The interleaving of the two threads. *)
Definition step (s s' : State) : Prop := ∃ t, step_of t s = Some s'.

(** Running a schedule: the scheduled thread steps when it can. *)
Fixpoint exec (sched : list Tid) (s : State) : State :=
  match sched with
  | [] => s
  | t :: sched' =>
      match step_of t s with
      | Some s' => exec sched' s'
      | None => exec sched' s
      end
  end.

Definition reachable (Rc Ro : gmap positive connMeta) (s : State) : Prop :=
  rtc step (initial Rc Ro) s.

(** Both threads are finished: [intercept] has returned or panicked
    and the goroutine, when there is one, has ended. *)
Definition terminal (s : State) : Prop :=
  (∃ o, pc s = PcFinished o) ∧ (task s = TNotStarted ∨ task s = TDone).

End Tunnel.

(** ** Reading a trace *)

Definition received (w : Writer) (tr : list Event) : list Wire :=
  omap (λ e, match e with
             | EvWrite w' x true => if decide (w' = w) then Some x else None
             | _ => None
             end) tr.

Definition closed_by (t : Tid) (c : Conn) (tr : list Event) : Prop := EvClose t c ∈ tr.

Definition closed (c : Conn) (tr : list Event) : Prop := ∃ t, EvClose t c ∈ tr.

Definition count (e : Event) (tr : list Event) : nat :=
  length (List.filter (λ x, bool_decide (x = e)) tr).

(** The events of the goroutine, and the two halves of a trace. *)
Definition is_task_event (e : Event) : bool :=
  match e with
  | EvCopyEnd CopyT _ _ | EvWgWait | EvClose CopyT _ => true
  | _ => false
  end.

Definition mtrace (tr : list Event) : list Event :=
  List.filter (λ e, negb (is_task_event e)) tr.

Definition ttrace (tr : list Event) : list Event :=
  List.filter is_task_event tr.

(** [before P Q tr]: every event of [tr] that satisfies [Q] comes after
    one that satisfies [P]. *)
Definition before (P Q : Event → Prop) (tr : list Event) : Prop :=
  ∀ tr1 e tr2, tr = tr1 ++ e :: tr2 → Q e → ∃ e', e' ∈ tr1 ∧ P e'.

(** What the deferred calls still to run will do. *)
Fixpoint pend_clientConns (ds : list Cleanup) (m : gmap positive connMeta)
    : gmap positive connMeta :=
  match ds with
  | [] => m
  | DoDeleteClient c :: ds' => pend_clientConns ds' (delete c m)
  | _ :: ds' => pend_clientConns ds' m
  end.

Fixpoint pend_conns (ds : list Cleanup) (m : gmap positive connMeta)
    : gmap positive connMeta :=
  match ds with
  | [] => m
  | DoDeleteOut c :: ds' => pend_conns ds' (delete c m)
  | _ :: ds' => pend_conns ds' m
  end.

Fixpoint pend_closes (ds : list Cleanup) : list Event :=
  match ds with
  | [] => []
  | DoClose c :: ds' => EvClose MainT c :: pend_closes ds'
  | _ :: ds' => pend_closes ds'
  end.


(** Where the calling context is. *)
Definition past_register (p : MainPc) : bool :=
  match p with
  | PcEntry | PcHijack | PcRegisterClient _ => false
  | _ => true
  end.


Definition out_registered (p : MainPc) : bool :=
  match p with
  | PcEntry | PcHijack | PcRegisterClient _ | PcDial _ | PcBadGateway _ _
  | PcRegisterOut _ _ => false
  | _ => true
  end.

(** [pipeData] is running. *)
Definition piping (p : MainPc) : bool :=
  match p with
  | PcPipe _ _ | PcRespondOK _ _ | PcWgDone _ _ _ | PcCopyBack _ _ => true
  | _ => false
  end.

Definition is_dial_event (e : Event) : bool :=
  match e with
  | EvDialQOS _ _ _ | EvDetourDialer | EvDetourDial _ _ => true
  | _ => false
  end.

(** ** The invariant of a tunnel attempt

    The calling context is deterministic: what it has acquired, deferred
    and logged at a program point follows from the collaborators. *)

Section Invariant.

Context (env : Env) (client : Client) (req : Request).
Context (Rc Ro : gmap positive connMeta).

Definition addr : string := hostIncludingPort req 443.

Definition metaC (peer : string) : connMeta :=
  {| hostAddr := Host req; peerAddr := peer; establishedAt := now_client env |}.

Definition metaO (out : Conn) : connMeta :=
  {| hostAddr := addr; peerAddr := default "" (RemoteAddr env out);
     establishedAt := now_out env |}.

Definition DC (c : Conn) : list Cleanup := [DoClose c; DoDeleteClient c].
Definition DO (out : Conn) : list Cleanup := [DoClose out; DoDeleteOut out].

Definition dial_result : Conn + string := fst (dial env client req addr).
Definition dial_events : list Event := snd (dial env client req addr).

Definition okWrite (c : Conn) : Event :=
  EvWrite (W_conn c) (StatusResponse StatusOK)
    (bool_decide (write_err env (W_conn c) (StatusResponse StatusOK) = None)).

Definition hijackMsg (e : string) : string := "Unable to hijack connection: " +:+ e.
Definition dialMsg (e : string) : string := "Unable to handle CONNECT request: " +:+ e.

(** The socket was hijacked and its remote address read. *)
Definition hijacked (c : Conn) (peer : string) : Prop :=
  Method req = httpConnectMethod ∧ hijacker env = Some (inl c) ∧
  RemoteAddr env c = Some peer.

Definition dialed (c : Conn) (peer : string) (out : Conn) : Prop :=
  hijacked c peer ∧ dial_result = inl out.

(** Before [pipeData]: no goroutine, the counter at zero. *)
Definition pre_pipe (s : State) : Prop :=
  task s = TNotStarted ∧ wg s = 0 ∧ ttrace (trace s) = [] ∧ muConns s = false.

(** Nothing is registered or deferred. *)
Definition nothing_acquired (s : State) (lock : bool) (tr : list Event) : Prop :=
  task s = TNotStarted ∧ wg s = 0 ∧ ttrace (trace s) = [] ∧ muConns s = lock ∧
  defers s = [] ∧ clientConns s = Rc ∧ conns s = Ro ∧ mtrace (trace s) = tr.

(** The client socket is registered, its cleanup deferred. *)
Definition client_acquired (s : State) (c : Conn) (peer : string) : Prop :=
  defers s = DC c ∧ clientConns s = <[c := metaC peer]> Rc ∧ conns s = Ro.

(** Both sockets are registered, their cleanups deferred. *)
Definition both_acquired (s : State) (c : Conn) (peer : string) (out : Conn) : Prop :=
  defers s = DO out ++ DC c ∧ clientConns s = <[c := metaC peer]> Rc ∧
  conns s = <[out := metaO out]> Ro ∧ muConns s = false.

(** The goroutine of the tunnel of [c] and [out]; [released] tells
    whether the calling context is past [wg.Done()]. *)
Definition task_rel (c out : Conn) (released : bool) (s : State) : Prop :=
  match task s with
  | TNotStarted => False
  | TCopy c' out' => c' = c ∧ out' = out ∧ ttrace (trace s) = []
  | TWait c' => c' = c ∧ ttrace (trace s) = [EvCopyEnd CopyT out c]
  | TClose c' =>
      c' = c ∧ released = true ∧
      ttrace (trace s) = [EvCopyEnd CopyT out c; EvWgWait]
  | TDone =>
      released = true ∧
      ttrace (trace s) = [EvCopyEnd CopyT out c; EvWgWait; EvClose CopyT c]
  end.

Definition pipe_end (c out : Conn) : list Event :=
  match write_err env (W_conn c) (StatusResponse StatusOK) with
  | Some e => [EvLogError ("Unable to respond OK: " +:+ e)]
  | None => [EvCopyEnd MainT c out]
  end.

(** The trace of the calling context on each path, up to the
    deferred calls. *)
Definition dial_failed_main (c : Conn) (e : string) : list Event :=
  [EvHijack c] ++ dial_events ++ respondBadGateway env (W_conn c) (dialMsg e).

Definition tunnel_main (c out : Conn) : list Event :=
  [EvHijack c] ++ dial_events ++ [EvWgAdd; okWrite c; EvWgDone] ++ pipe_end c out.

(** The same once the deferred calls have run. *)
Definition dial_failed_full (c : Conn) (e : string) : list Event :=
  dial_failed_main c e ++ [EvClose MainT c].

Definition tunnel_full (c out : Conn) : list Event :=
  tunnel_main c out ++ [EvClose MainT out; EvClose MainT c].

(** While the deferred calls run, and after: on which path the attempt
    ends, and which of the deferred calls have run. *)
Inductive Final (s : State) (o : Outcome) : Prop :=
| FinalBadMethod :
    Method req ≠ httpConnectMethod →
    o = Panicked "Intercept used for non-CONNECT request!" →
    nothing_acquired s false [] → Final s o
| FinalNoHijacker :
    Method req = httpConnectMethod → hijacker env = None →
    o = Panicked "interface conversion: not a http.Hijacker" →
    nothing_acquired s false [] → Final s o
| FinalHijackErr e :
    Method req = httpConnectMethod → hijacker env = Some (inr e) →
    o = Returned →
    nothing_acquired s false (respondBadGateway env W_resp (hijackMsg e)) →
    Final s o
| FinalAddrPanic c :
    Method req = httpConnectMethod → hijacker env = Some (inl c) →
    RemoteAddr env c = None →
    o = Panicked "RemoteAddr" →
    nothing_acquired s true [EvHijack c] → Final s o
| FinalDialErr c peer e ran :
    hijacked c peer → dial_result = inr e → o = Returned →
    pre_pipe s →
    DC c = ran ++ defers s →
    clientConns s = pend_clientConns ran (<[c := metaC peer]> Rc) →
    conns s = Ro →
    mtrace (trace s) = dial_failed_main c e ++ pend_closes ran →
    Final s o
| FinalTunnel c peer out ran :
    dialed c peer out → o = Returned →
    muConns s = false → wg s = 0 → task_rel c out true s →
    DO out ++ DC c = ran ++ defers s →
    clientConns s = pend_clientConns ran (<[c := metaC peer]> Rc) →
    conns s = pend_conns ran (<[out := metaO out]> Ro) →
    mtrace (trace s) = tunnel_main c out ++ pend_closes ran →
    Final s o.

(** The states of an attempt whose hijack and dial succeed, by phase:
    before the client socket is registered, with the client socket
    only, inside [pipeData], and while the deferred calls run. *)
Inductive TunnelView (c : Conn) (peer : string) (out : Conn) (s : State) : Prop :=
| TVBefore :
    past_register (pc s) = false →
    pre_pipe s → defers s = [] → clientConns s = Rc → conns s = Ro →
    TunnelView c peer out s
| TVClient :
    past_register (pc s) = true → out_registered (pc s) = false →
    pre_pipe s → client_acquired s c peer →
    TunnelView c peer out s
| TVPiping :
    piping (pc s) = true →
    both_acquired s c peer out →
    TunnelView c peer out s
| TVUnwind ran o :
    pc s = PcUnwind o ∨ (pc s = PcFinished o ∧ defers s = []) →
    o = Returned → task_rel c out true s →
    DO out ++ DC c = ran ++ defers s →
    clientConns s = pend_clientConns ran (<[c := metaC peer]> Rc) →
    conns s = pend_conns ran (<[out := metaO out]> Ro) →
    mtrace (trace s) = tunnel_main c out ++ pend_closes ran →
    TunnelView c peer out s.

Definition Inv (s : State) : Prop :=
  match pc s with
  | PcEntry => nothing_acquired s false []
  | PcHijack => Method req = httpConnectMethod ∧ nothing_acquired s false []
  | PcRegisterClient c =>
      Method req = httpConnectMethod ∧ hijacker env = Some (inl c) ∧
      nothing_acquired s false [EvHijack c]
  | PcDial c =>
      ∃ peer, hijacked c peer ∧ pre_pipe s ∧ client_acquired s c peer ∧
              mtrace (trace s) = [EvHijack c]
  | PcBadGateway c e =>
      ∃ peer, hijacked c peer ∧ dial_result = inr e ∧ pre_pipe s ∧
              client_acquired s c peer ∧
              mtrace (trace s) = [EvHijack c] ++ dial_events
  | PcRegisterOut c out =>
      ∃ peer, dialed c peer out ∧ pre_pipe s ∧ client_acquired s c peer ∧
              mtrace (trace s) = [EvHijack c] ++ dial_events
  | PcPipe c out =>
      ∃ peer, dialed c peer out ∧ pre_pipe s ∧ both_acquired s c peer out ∧
              mtrace (trace s) = [EvHijack c] ++ dial_events
  | PcRespondOK c out =>
      ∃ peer, dialed c peer out ∧ both_acquired s c peer out ∧ wg s = 1 ∧
              task_rel c out false s ∧
              mtrace (trace s) = [EvHijack c] ++ dial_events ++ [EvWgAdd]
  | PcWgDone c out err =>
      ∃ peer, dialed c peer out ∧ both_acquired s c peer out ∧ wg s = 1 ∧
              task_rel c out false s ∧
              err = write_err env (W_conn c) (StatusResponse StatusOK) ∧
              mtrace (trace s) = [EvHijack c] ++ dial_events ++ [EvWgAdd; okWrite c]
  | PcCopyBack c out =>
      ∃ peer, dialed c peer out ∧ both_acquired s c peer out ∧ wg s = 0 ∧
              task_rel c out true s ∧
              write_err env (W_conn c) (StatusResponse StatusOK) = None ∧
              mtrace (trace s) =
                [EvHijack c] ++ dial_events ++ [EvWgAdd; okWrite c; EvWgDone]
  | PcUnwind o => Final s o
  | PcFinished o => Final s o ∧ defers s = []
  end.

End Invariant.

(** ** A measure of what is left to run *)

Definition main_rank (p : MainPc) : nat :=
  match p with
  | PcEntry => 17
  | PcHijack => 16
  | PcRegisterClient _ => 15
  | PcDial _ => 12
  | PcRegisterOut _ _ => 11
  | PcPipe _ _ => 8
  | PcRespondOK _ _ => 4
  | PcWgDone _ _ _ => 3
  | PcCopyBack _ _ => 2
  | PcBadGateway _ _ => 2
  | PcUnwind _ => 1
  | PcFinished _ => 0
  end.

Definition task_rank (t : TaskPc) : nat :=
  match t with
  | TNotStarted => 3
  | TCopy _ _ => 3
  | TWait _ => 2
  | TClose _ => 1
  | TDone => 0
  end.

Definition measure (s : State) : nat :=
  (main_rank (pc s) + length (defers s) + task_rank (task s))%nat.

(** The orderings of a trace that the wait group enforces. *)
Definition is_okWrite (c : Conn) (e : Event) : Prop :=
  ∃ ok, e = EvWrite (W_conn c) (StatusResponse StatusOK) ok.

Definition is_task_close (e : Event) : Prop := ∃ c, e = EvClose CopyT c.

(** The goroutine's copy from the client socket [c] has returned. *)
Definition is_copied (c : Conn) (e : Event) : Prop :=
  ∃ out, e = EvCopyEnd CopyT out c.

Definition Ord (s : State) : Prop :=
  (∀ c, before (is_okWrite c) (λ e, e = EvClose CopyT c) (trace s)) ∧
  before (λ e, ∃ c, is_okWrite c e) (λ e, e = EvWgDone) (trace s) ∧
  before (λ e, e = EvWgDone) is_task_close (trace s) ∧
  (∀ c, before (is_copied c) (λ e, e = EvClose CopyT c) (trace s)).

(** Past its copy, the goroutine has logged the end of it. *)
Definition CopyDone (s : State) : Prop :=
  match task s with
  | TWait c | TClose c => ∃ out, EvCopyEnd CopyT out c ∈ trace s
  | _ => True
  end.

(** A host or port text with no colon and no bracket. *)
Definition plain (s : string) : bool :=
  negb (net.has s ":") && negb (net.has s "[") && negb (net.has s "]").

(** ** Concrete requests, clients and collaborators *)

Definition qosReq (host : string) (qos : list string) : Request :=
  mkReq host [(httpXFlashlightQOS, qos)].

Definition plainReq (host : string) : Request := mkReq host [].

Definition someClient : Client := {| MinQOS := 3; ProxyAll := false |}.

(** Collaborators of an attempt on a Linux desktop, with a detour layer
    that hands every dial to the base dial function. *)
Definition mkEnv (goos : string) (hij : option (Conn + string))
    (ra : Conn → option string) (dq : Conn + string)
    (we : Writer → Wire → option string) : Env :=
  {| GOOS := goos; hijacker := hij; RemoteAddr := ra;
     DialQOS := λ _ _ _, dq; detour_Dialer := λ f, f; write_err := we;
     now_client := 1000; now_out := 1001 |}.

Definition clientSock : Conn := 1%positive.
Definition outSock : Conn := 2%positive.

Definition addrOf (c : Conn) : option string :=
  if decide (c = clientSock) then Some "10.0.0.7:51000" else Some "93.184.216.34:443".

Definition noWriteError : Writer → Wire → option string := λ _ _, None.

(** Every write on a connection fails; the response writer works. *)
Definition brokenSockets : Writer → Wire → option string :=
  λ w _, match w with W_conn _ => Some "broken pipe" | W_resp => None end.

Definition tunnelEnv : Env :=
  mkEnv "linux" (Some (inl clientSock)) addrOf (inl outSock) noWriteError.


Definition dialFailEnv : Env :=
  mkEnv "linux" (Some (inl clientSock)) addrOf (inr "no route to host") noWriteError.

Definition dialFailBrokenEnv : Env :=
  mkEnv "linux" (Some (inl clientSock)) addrOf (inr "no route to host") brokenSockets.

Definition respondFailEnv : Env :=
  mkEnv "linux" (Some (inl clientSock)) addrOf (inl outSock) brokenSockets.

Definition noHijackerEnv : Env :=
  mkEnv "linux" None addrOf (inl outSock) noWriteError.

Definition hijackErrEnv : Env :=
  mkEnv "linux" (Some (inr "already hijacked")) addrOf (inl outSock) noWriteError.

(** The remote address of the client socket panics, that of the
    outbound socket does not. *)
Definition clientAddrPanicEnv : Env :=
  mkEnv "linux" (Some (inl clientSock))
    (λ c, if decide (c = clientSock) then None else Some "93.184.216.34:443")
    (inl outSock) noWriteError.

(** The remote address of the outbound socket panics. *)
Definition outAddrPanicEnv : Env :=
  mkEnv "linux" (Some (inl clientSock))
    (λ c, if decide (c = clientSock) then Some "10.0.0.7:51000" else None)
    (inl outSock) noWriteError.

Definition someReq : Request := qosReq "example.com" ["7"].

(** A schedule that lets the calling context run alone, and one that
    lets the goroutine finish as soon as it can. *)
Definition mainOnly (n : nat) : list Tid := repeat MainT n.

Definition taskEarly : list Tid :=
  repeat MainT 8 ++ repeat CopyT 3 ++ repeat MainT 8.

Definition taskLate : list Tid := repeat MainT 20 ++ repeat CopyT 3.

(** The goroutine closes the client socket while the calling context
    is still copying from the outbound socket. *)
Definition closeDuringPipe : list Tid := repeat MainT 8 ++ repeat CopyT 3.

(** ** The dispatch of [ServeHTTP]

    [ServeHTTP] hands a CONNECT request to [intercept] and every other
    request to the reverse proxy, a collaborator of which the handler
    knows nothing more; the two lines it logs at the trace level are
    left out. *)

Inductive Served :=
| Intercepting (s : State)
| ReverseProxying.

Definition ServeHTTP (req : Request) (Rc Ro : gmap positive connMeta) : Served :=
  if decide (Method req = httpConnectMethod) then Intercepting (initial Rc Ro)
  else ReverseProxying.

(** A request that is being served goes on inside [intercept]. *)
Definition serve_step (env : Env) (client : Client) (req : Request)
    (x y : Served) : Prop :=
  match x, y with
  | Intercepting s, Intercepting s' => step env client req s s'
  | _, _ => False
  end.

Definition nonConnectPanic : Outcome :=
  Panicked "Intercept used for non-CONNECT request!".

(** ** The reporter started by [init]

    Every ten seconds the goroutine of [init] takes the read lock of
    the registries and logs one line for each connection and the size
    of each registry.  An instant is a number of nanoseconds, as is a
    [time.Duration], which is a 64-bit integer. *)

Module time.

Definition Second : Z := 1000000000.
Definition Minute : Z := 60 * Second.
Definition minDuration : Z := - 2 ^ 63.
Definition maxDuration : Z := 2 ^ 63 - 1.

(** [t.Sub(u)]: the duration [t - u], or the least or the greatest
    duration when [t - u] is out of range. *)
Definition Sub (t u : Z) : Z :=
  if t - u <? minDuration then minDuration
  else if t - u >? maxDuration then maxDuration
  else t - u.

End time.

Inductive Level := LvDebug | LvTrace.

(** A line of the log, by its format and the arguments of the format:
    - [Connection h p d]:
      [**********Connection to h via p lasted for d];
    - [ConnectionsTotal n]: [**********n connections in total];
    - [ClientConnection h p d]:
      [**********Client connection to h from p lasted for d];
    - [ClientConnectionsTotal n]:
      [**********n client connections in total]. *)
Inductive Message :=
| Connection (hostAddr peerAddr : string) (d : Z)
| ConnectionsTotal (n : Z)
| ClientConnection (hostAddr peerAddr : string) (d : Z)
| ClientConnectionsTotal (n : Z).

Definition LogLine : Type := Level * Message.

(** [if d > 10*time.Minute { log.Debug(msg) } else { log.Trace(msg) }] *)
Definition level_of (d : Z) : Level :=
  if d >? 10 * time.Minute then LvDebug else LvTrace.

Definition report_conn (now : Z) (meta : connMeta) : LogLine :=
  let d := time.Sub now (establishedAt meta) in
  (level_of d, Connection (hostAddr meta) (peerAddr meta) d).

Definition report_client (now : Z) (meta : connMeta) : LogLine :=
  let d := time.Sub now (establishedAt meta) in
  (level_of d, ClientConnection (hostAddr meta) (peerAddr meta) d).

(** The body of the loop for the tick [now]; [co] and [cl] are the
    entries of the two registries in the order in which [range] visits
    them. *)
Definition report (now : Z) (conns clientConns : gmap positive connMeta)
    (co cl : list (Conn * connMeta)) : list LogLine :=
  ((λ kv, report_conn now kv.2) <$> co) ++
  [(LvDebug, ConnectionsTotal (Z.of_nat (size conns)))] ++
  ((λ kv, report_client now kv.2) <$> cl) ++
  [(LvDebug, ClientConnectionsTotal (Z.of_nat (size clientConns)))].

(** One tick between two steps of an attempt, with the registries
    visited in the order of their keys; [None] when [muConns.RLock()]
    waits for a writer. *)
Definition tick (now : Z) (s : State) : option (list LogLine) :=
  if muConns s then None
  else Some (report now (conns s) (clientConns s)
               (map_to_list (conns s)) (map_to_list (clientConns s))).

(** The same with any order of visit: [range] over a map visits every
    entry once, in an order that is not specified. *)
Definition Reports (now : Z) (s : State) (logs : list LogLine) : Prop :=
  muConns s = false ∧
  ∃ co cl, co ≡ₚ map_to_list (conns s) ∧ cl ≡ₚ map_to_list (clientConns s) ∧
           logs = report now (conns s) (clientConns s) co cl.

(** The calling context is between [wg.Add(1)] and [wg.Done()]. *)
Definition wg_held (p : MainPc) : bool :=
  match p with
  | PcRespondOK _ _ | PcWgDone _ _ _ => true
  | _ => false
  end.

(** [intercept] is running its deferred calls or has ended. *)
Definition unwinding (p : MainPc) : bool :=
  match p with
  | PcUnwind _ | PcFinished _ => true
  | _ => false
  end.

(** ** Decimal texts *)

Fixpoint all_digits (s : string) : bool :=
  match s with
  | EmptyString => true
  | String ch s' => bool_decide (is_Some (strconv.digit_of ch)) && all_digits s'
  end.

(** An optional sign followed by one decimal digit at least. *)
Definition signed_decimal (s : string) : bool :=
  match s with
  | EmptyString => false
  | String c rest =>
      let body := if Ascii.eqb c "+" || Ascii.eqb c "-" then rest else s in
      bool_decide (body ≠ "") && all_digits body
  end.

(** A request that is no CONNECT. *)
Definition getReq : Request :=
  {| Method := "GET"; Host := "example.com"; Header := ∅ |}.

Definition longLived : connMeta :=
  {| hostAddr := "example.com:443"; peerAddr := "93.184.216.34:443";
     establishedAt := 0 |}.

(** * Properties *)

(** ** Traces *)

Lemma mtrace_app tr es : mtrace (tr ++ es) = mtrace tr ++ mtrace es.
Proof. apply List.filter_app. Qed.

Lemma ttrace_app tr es : ttrace (tr ++ es) = ttrace tr ++ ttrace es.
Proof. apply List.filter_app. Qed.

Lemma count_app e tr es : count e (tr ++ es) = (count e tr + count e es)%nat.
Proof. unfold count. by rewrite List.filter_app, length_app. Qed.

Lemma count_split e tr : count e tr = (count e (mtrace tr) + count e (ttrace tr))%nat.
Proof.
  induction tr as [|x tr IH]; [done|].
  change (x :: tr) with ([x] ++ tr).
  rewrite mtrace_app, ttrace_app, !count_app, IH.
  unfold mtrace, ttrace, count. simpl.
  destruct (is_task_event x); simpl; destruct (bool_decide (x = e)); simpl; lia.
Qed.

Lemma elem_of_mtrace e tr : e ∈ mtrace tr ↔ e ∈ tr ∧ is_task_event e = false.
Proof.
  unfold mtrace. rewrite !list_elem_of_In, List.filter_In.
  by rewrite negb_true_iff.
Qed.

Lemma elem_of_ttrace e tr : e ∈ ttrace tr ↔ e ∈ tr ∧ is_task_event e = true.
Proof. unfold ttrace. by rewrite !list_elem_of_In, List.filter_In. Qed.

Lemma before_nil P Q : before P Q [].
Proof. intros [|??] ?? ?; simplify_eq. Qed.

Lemma snoc_split (tr es tr1 : list Event) e tr2 :
  tr ++ es = tr1 ++ e :: tr2 →
  (∃ k, tr = tr1 ++ e :: k) ∨ (∃ k1 k2, es = k1 ++ e :: k2 ∧ tr1 = tr ++ k1).
Proof.
  intros Heq. apply app_eq_inv in Heq as [(k & Hk1 & Hk2)|(k & Hk1 & Hk2)].
  - destruct k as [|y k]; simpl in Hk2.
    + right. exists [], tr2. rewrite app_nil_r in Hk1. subst. by rewrite app_nil_r.
    + left. injection Hk2 as <- _. eauto.
  - right. eauto.
Qed.

Lemma before_extend P Q tr es :
  before P Q tr → (∀ e, e ∈ es → Q e → ∃ e', e' ∈ tr ∧ P e') →
  before P Q (tr ++ es).
Proof.
  intros Hb Hes tr1 e tr2 Heq HQ.
  apply snoc_split in Heq as [(k & Hk)|(k1 & k2 & Hk & ->)].
  - eapply Hb; eauto.
  - destruct (Hes e) as (e' & He' & HP); [|done|].
    + subst es. apply list_elem_of_In, in_elt.
    + exists e'. split; [|done]. apply elem_of_app. by left.
Qed.

Lemma before_snoc P Q tr e :
  before P Q tr → (Q e → ∃ e', e' ∈ tr ∧ P e') → before P Q (tr ++ [e]).
Proof.
  intros Hb He tr1 x tr2 Heq HQ.
  apply snoc_split in Heq as [(k & Hk)|(k1 & k2 & Hk & Htr1)].
  - eapply Hb; eauto.
  - destruct k1 as [|y k1]; simpl in Hk.
    + injection Hk as <- _. rewrite app_nil_r in Htr1. subst tr1. auto.
    + injection Hk as _ Hk. by destruct k1.
Qed.

(** ** The invariant holds in every reachable state *)

Ltac in_list :=
  repeat first [rewrite elem_of_app | rewrite elem_of_cons]; auto 20.

Ltac st :=
  cbn [pc task wg defers muConns clientConns conns trace goto set_task wg_add
       set_defers set_muConns set_clientConns set_conns emit] in *.

Lemma mtrace_dial env client req a :
  mtrace (snd (dial env client req a)) = snd (dial env client req a).
Proof. unfold dial. by destruct (forceDirect env client). Qed.

Lemma ttrace_dial env client req a : ttrace (snd (dial env client req a)) = [].
Proof. unfold dial. by destruct (forceDirect env client). Qed.

Lemma mtrace_respondBadGateway env w m :
  mtrace (respondBadGateway env w m) = respondBadGateway env w m.
Proof. unfold respondBadGateway. by destruct (write_err env w _). Qed.

Lemma ttrace_respondBadGateway env w m : ttrace (respondBadGateway env w m) = [].
Proof. unfold respondBadGateway. by destruct (write_err env w _). Qed.

Ltac unf :=
  unfold nothing_acquired, pre_pipe, client_acquired, both_acquired, task_rel,
    dialed, hijacked, dial_result, dial_events, addr in *.

Lemma pend_clientConns_app l1 l2 m :
  pend_clientConns (l1 ++ l2) m = pend_clientConns l2 (pend_clientConns l1 m).
Proof. revert m. induction l1 as [|[]]; intros; simpl; auto. Qed.

Lemma pend_conns_app l1 l2 m :
  pend_conns (l1 ++ l2) m = pend_conns l2 (pend_conns l1 m).
Proof. revert m. induction l1 as [|[]]; intros; simpl; auto. Qed.

Lemma pend_closes_app l1 l2 :
  pend_closes (l1 ++ l2) = pend_closes l1 ++ pend_closes l2.
Proof. induction l1 as [|[]]; simpl; auto. by rewrite IHl1. Qed.

(** Split the hypotheses, rewrite the two halves of the trace, and close
    what is then immediate. *)
Ltac fin :=
  repeat match goal with
    | H : _ ∧ _ |- _ => destruct H
    | H : ∃ _, _ |- _ => destruct H
    end;
  subst; st;
  rewrite ?mtrace_app, ?ttrace_app, ?mtrace_respondBadGateway,
    ?ttrace_respondBadGateway, ?mtrace_dial, ?ttrace_dial,
    ?pend_clientConns_app, ?pend_conns_app, ?pend_closes_app;
  repeat match goal with
    | H : ttrace _ = _ |- _ => rewrite H
    | H : mtrace _ = _ |- _ => rewrite H
    end;
  cbn [mtrace ttrace List.filter is_task_event negb app
       pend_clientConns pend_conns pend_closes DO DC];
  rewrite ?app_nil_r, ?delete_insert_eq, <- ?app_assoc; repeat split; try done.

Section InvariantProofs.

Context (env : Env) (client : Client) (req : Request).
Context (Rc Ro : gmap positive connMeta).

Lemma Inv_initial : Inv env client req Rc Ro (initial Rc Ro).
Proof. by repeat split. Qed.

Lemma Inv_step_main s s' :
  Inv env client req Rc Ro s → step_main env client req s = Some s' →
  Inv env client req Rc Ro s'.
Proof.
  destruct s as [p t w ds mu cc co tr].
  unfold Inv, step_main. st. intros HI Hs. destruct p; unf; st.
  - (* entry *)
    case_decide; simplify_eq; st.
    + by apply FinalBadMethod.
    + split; [|done]. by destruct (decide (Method req = httpConnectMethod)).
  - (* hijack *)
    destruct HI as [Hm HI].
    destruct (hijacker env) as [[c|e]|] eqn:Hh; simplify_eq; st.
    + fin.
    + eapply FinalHijackErr; eauto. unf. fin.
    + by apply FinalNoHijacker.
  - (* register the client socket *)
    destruct HI as (Hm & Hh & Ht & Hw & Htt & Hmu & Hd & Hcc & Hco & Hmt).
    subst mu. destruct (RemoteAddr env clientConn) as [peer|] eqn:Hra;
      simplify_eq; st.
    + exists peer. by repeat split.
    + eapply FinalAddrPanic; eauto. by repeat split.
  - (* dial *)
    destruct HI as (peer & Hhj & Hpre & Hacq & Hmt).
    pose proof (mtrace_dial env client req (hostIncludingPort req 443)) as Hmd.
    pose proof (ttrace_dial env client req (hostIncludingPort req 443)) as Htd.
    destruct (dial env client req (hostIncludingPort req 443)) as [[out|e] evs] eqn:Hdial;
      simplify_eq; st; exists peer; simpl in *; fin.
  - (* respond Bad Gateway on the client socket *)
    simplify_eq. destruct HI as (peer & Hhj & Hde & Hpre & Hacq & Hmt).
    eapply (FinalDialErr _ _ _ _ _ _ _ clientConn peer err []); eauto; unf;
      unfold dial_failed_main, dial_events, dialMsg, addr; fin.
  - (* register the outbound socket *)
    destruct HI as (peer & Hd & Hpre & Hacq & Hmt).
    destruct mu; [fin|]. simplify_eq. st. exists peer. fin.
  - (* enter pipeData *)
    destruct HI as (peer & Hd & Hpre & Hacq & Hmt).
    simplify_eq. st. exists peer. fin.
  - (* respond OK *)
    destruct HI as (peer & Hd & Hacq & Hw & Ht & Hmt).
    cbv beta iota zeta delta [respondOK] in Hs.
    simplify_eq. st. exists peer. destruct t; fin.
  - (* wg.Done *)
    destruct HI as (peer & Hd & Hacq & Hw & Ht & Herr & Hmt).
    destruct err as [e|]; simplify_eq; st.
    + eapply (FinalTunnel _ _ _ _ _ _ _ clientConn peer connOut []); eauto; unf; st.
      all: try by fin.
      all: try by destruct t; fin.
      unfold tunnel_main, pipe_end, dial_events, addr.
      rewrite <- Herr. fin.
    + exists peer. destruct t; fin.
  - (* copy from the outbound to the client socket *)
    destruct HI as (peer & Hd & Hacq & Hw & Ht & Herr & Hmt).
    simplify_eq. st.
    eapply (FinalTunnel _ _ _ _ _ _ _ clientConn peer connOut []); eauto; unf; st.
    all: try by fin.
    all: try by destruct t; fin.
    unfold tunnel_main, pipe_end, dial_events, addr.
    rewrite Herr. fin.
  - (* run the deferred calls *)
    destruct ds as [|a rest].
    { simplify_eq. st. split; [|done].
      destruct HI;
        [eapply FinalBadMethod|eapply FinalNoHijacker|eapply FinalHijackErr
        |eapply FinalAddrPanic|eapply FinalDialErr|eapply FinalTunnel]; eauto. }
    destruct HI as [? ? Hn|? ? ? Hn|e ? ? ? Hn|c ? ? ? ? Hn
                   |c peer e ran Hhj Hde Ho Hpre Hran Hcc Hco Hmt
                   |c peer out ran Hd Ho Hmu Hw Ht Hran Hcc Hco Hmt].
    1-4: by (unf; st; destruct Hn as (?&?&?&?&?&?); simplify_eq).
    + (* after a failed dial *)
      st. destruct Hpre as (Ht & Hw & Htt & Hmu). st. subst mu.
      assert (a ∈ DC c) as Ha by (rewrite Hran; in_list).
      destruct a; simplify_eq; st.
      * eapply (FinalDialErr _ _ _ _ _ _ _ c peer e (ran ++ [DoClose c0]));
          eauto; unf; st; fin.
      * eapply (FinalDialErr _ _ _ _ _ _ _ c peer e (ran ++ [DoDeleteClient c0]));
          eauto; unf; st; fin.
      * exfalso. unfold DC in Ha. rewrite !elem_of_cons, elem_of_nil in Ha.
        by destruct Ha as [?|[?|?]].
    + (* after the pipe *)
      st. subst mu.
      destruct a; simplify_eq; st.
      * eapply (FinalTunnel _ _ _ _ _ _ _ c peer out (ran ++ [DoClose c0]));
          eauto; unf; st.
        all: try by fin.
        all: try by destruct t; fin.
      * eapply (FinalTunnel _ _ _ _ _ _ _ c peer out (ran ++ [DoDeleteClient c0]));
          eauto; unf; st; by fin.
      * eapply (FinalTunnel _ _ _ _ _ _ _ c peer out (ran ++ [DoDeleteOut c0]));
          eauto; unf; st; by fin.
  - (* finished *) done.
Qed.

Lemma step_task_main_fields s s' :
  step_task s = Some s' →
  pc s' = pc s ∧ defers s' = defers s ∧ wg s' = wg s ∧ muConns s' = muConns s ∧
  clientConns s' = clientConns s ∧ conns s' = conns s ∧
  mtrace (trace s') = mtrace (trace s).
Proof.
  destruct s as [p t w ds mu cc co tr]. unfold step_task. st.
  destruct t; try done; try case_decide; intros; simplify_eq; st; fin.
Qed.

Lemma Final_step_task s s' o :
  Final env client req Rc Ro s o → step_task s = Some s' →
  Final env client req Rc Ro s' o.
Proof.
  intros HF Hs.
  destruct s as [p t w ds mu cc co tr]. unfold step_task in Hs. st.
  destruct HF as [? ? Hn|? ? ? Hn|e ? ? ? Hn|c ? ? ? ? Hn
                 |c peer e ran Hhj Hde Ho Hpre Hran Hcc Hco Hmt
                 |c peer out ran Hd Ho Hmu Hw Ht Hran Hcc Hco Hmt].
  1-5: by (unf; st; fin).
  unf. st.
  destruct t; try done; try case_decide; try done; injection Hs as <-; st.
  all: eapply (FinalTunnel _ _ _ _ _ _ _ c peer out ran); eauto; unf; st; fin.
Qed.

Lemma Inv_step_task s s' :
  Inv env client req Rc Ro s → step_task s = Some s' →
  Inv env client req Rc Ro s'.
Proof.
  unfold Inv. intros HI Hs.
  pose proof (step_task_main_fields _ _ Hs) as (E1 & E2 & E3 & E4 & E5 & E6 & E7).
  rewrite E1. destruct (pc s) eqn:Hp.
  11: by eapply Final_step_task.
  11: { destruct HI. split; [by eapply Final_step_task | congruence]. }
  all: clear E1 E2 E3 E4 E5 E6 E7.
  all: destruct s as [p t w ds mu cc co tr]; unfold step_task in Hs; st; unf; st.
  all: subst p.
  all: destruct t; try done; try case_decide; try done; injection Hs as <-; st;
    try by fin.
  all: try (destruct HI as (peer & HI); exists peer; by fin).
Qed.

Lemma Inv_step s s' :
  Inv env client req Rc Ro s → step env client req s s' →
  Inv env client req Rc Ro s'.
Proof.
  intros HI [[] Hs]; [by eapply Inv_step_main | by eapply Inv_step_task].
Qed.

Lemma Inv_reachable s :
  reachable env client req Rc Ro s → Inv env client req Rc Ro s.
Proof.
  unfold reachable. intros Hr.
  eapply (rtc_ind_r (λ z, Inv env client req Rc Ro z)); [|  |exact Hr].
  - apply Inv_initial.
  - intros y z _ Hyz Hy. by eapply Inv_step.
Qed.

End InvariantProofs.

(** ** Progress and termination *)

Section Progress.

Context (env : Env) (client : Client) (req : Request).
Context (Rc Ro : gmap positive connMeta).

Lemma step_measure s s' :
  step env client req s s' → (measure s' < measure s)%nat.
Proof.
  intros [[] Hs]; destruct s as [p t w ds mu cc co tr]; simpl in Hs.
  - unfold step_main in Hs. st. unfold measure.
    destruct p; repeat case_match; simplify_eq; st; simpl; lia.
  - unfold step_task in Hs. st. unfold measure.
    destruct t; repeat case_match; simplify_eq; st; simpl; lia.
Qed.

Lemma nsteps_measure n s s' :
  nsteps (step env client req) n s s' → (n + measure s' ≤ measure s)%nat.
Proof.
  induction 1 as [|n x y z Hxy _ IH]; [done|].
  apply step_measure in Hxy. lia.
Qed.

Lemma Inv_progress s :
  Inv env client req Rc Ro s →
  terminal s ∨ ∃ s', step env client req s s'.
Proof.
  intros HI.
  destruct (step_main env client req s) as [s'|] eqn:E;
    [right; by exists s', MainT|].
  destruct s as [p t w ds mu cc co tr]. unfold Inv in HI.
  unfold step_main in E. st.
  destruct p; repeat case_match; simplify_eq; unf; st; try by fin.
  - exfalso. destruct HI; unf; st; by fin.
  - exfalso. destruct HI; unf; st; by fin.
  - destruct HI as [HF _].
    destruct t as [|c out|c|c|].
    + left. split; eauto.
    + right. eexists. by exists CopyT.
    + right. eexists. exists CopyT. simpl. unfold step_task. st.
      rewrite decide_True; [done|]. destruct HF; unf; st; by fin.
    + right. eexists. by exists CopyT.
    + left. split; eauto.
Qed.

(** Every run is finite and ends with both threads finished. *)
Lemma reach_terminal s :
  Inv env client req Rc Ro s →
  ∃ s', rtc (step env client req) s s' ∧ terminal s'.
Proof.
  remember (measure s) as n eqn:Hn. revert s Hn.
  induction n as [n IH] using lt_wf_ind. intros s -> HI.
  destruct (Inv_progress s HI) as [Ht|(s1 & Hs1)].
  - by exists s.
  - destruct (IH (measure s1) (step_measure _ _ Hs1) s1 eq_refl) as (s' & Hr & Ht).
    + by eapply Inv_step.
    + exists s'. split; [|done]. by eapply rtc_l.
Qed.

End Progress.

(** ** The orderings the wait group enforces *)

Lemma mtrace_subseteq e tr : e ∈ mtrace tr → e ∈ tr.
Proof. rewrite elem_of_mtrace. by intros [? _]. Qed.


Section Ordering.

Context (env : Env) (client : Client) (req : Request).
Context (Rc Ro : gmap positive connMeta).

Lemma tunnel_main_okWrite c out :
  okWrite env c ∈ tunnel_main env client req c out ∧
  EvWgDone ∈ tunnel_main env client req c out.
Proof. unfold tunnel_main. split; in_list. Qed.

Lemma Final_released s o c :
  Final env client req Rc Ro s o → task s = TClose c ∨ task s = TDone →
  ∃ c' out, (task s = TClose c → c' = c) ∧
    ttrace (trace s) `prefix_of` [EvCopyEnd CopyT out c'; EvWgWait; EvClose CopyT c'] ∧
    okWrite env c' ∈ trace s ∧ EvWgDone ∈ trace s.
Proof.
  intros HF Ht.
  destruct HF as [? ? Hn|? ? ? Hn|e ? ? ? Hn|c0 ? ? ? ? Hn
                 |c0 peer e ran Hhj Hde Ho Hpre Hran Hcc Hco Hmt
                 |c0 peer out ran Hd Ho Hmu Hw Htr Hran Hcc Hco Hmt].
  1-5: by (unf; destruct Ht; fin; congruence).
  exists c0, out.
  destruct (tunnel_main_okWrite c0 out) as [H1 H2].
  assert (okWrite env c0 ∈ trace s) as H1'
    by (apply mtrace_subseteq; rewrite Hmt; apply elem_of_app; by left).
  assert (EvWgDone ∈ trace s) as H2'
    by (apply mtrace_subseteq; rewrite Hmt; apply elem_of_app; by left).
  clear H1 H2. rename H1' into H1. rename H2' into H2.
  unfold task_rel in Htr.
  destruct Ht as [Ht|Ht]; rewrite Ht in Htr; destruct Htr as (? & Htr);
    repeat split; try done; try congruence.
  - destruct Htr as [_ ->]. by exists [EvClose CopyT c0].
  - rewrite Htr. done.
Qed.

Lemma Inv_released s c :
  Inv env client req Rc Ro s → task s = TClose c →
  okWrite env c ∈ trace s ∧ EvWgDone ∈ trace s.
Proof.
  intros HI Ht. unfold Inv in HI. destruct (pc s) eqn:Hp.
  11: { destruct (Final_released s o c HI) as (c' & out & Hc & _ & ? & ?); auto.
        by rewrite <- (Hc Ht). }
  11: { destruct HI as [HI _].
        destruct (Final_released s o c HI) as (c' & out & Hc & _ & ? & ?); auto.
        by rewrite <- (Hc Ht). }
  all: unf; try (by fin; congruence).
  all: destruct HI as (peer & HI); rewrite Ht in HI; try by fin.
  destruct HI as (_ & _ & _ & (-> & _ & _) & _ & Hmt).
  split; apply mtrace_subseteq; rewrite Hmt; in_list.
Qed.

Lemma Inv_at_WgDone s c out err :
  Inv env client req Rc Ro s → pc s = PcWgDone c out err →
  okWrite env c ∈ trace s.
Proof.
  unfold Inv. intros HI Hp. rewrite Hp in HI.
  destruct HI as (peer & _ & _ & _ & _ & _ & Hmt).
  apply mtrace_subseteq. rewrite Hmt. in_list.
Qed.

(** What a step adds to the trace. *)
Lemma step_main_trace s s' :
  step_main env client req s = Some s' →
  ∃ es, trace s' = trace s ++ es ∧ ttrace es = [] ∧
        (EvWgDone ∈ es → ∃ c out err, pc s = PcWgDone c out err).
Proof.
  destruct s as [p t w ds mu cc co tr].
  unfold step_main, respondBadGateway, respondOK, dial. st. intros Hs.
  destruct p; repeat case_match; simplify_eq; st; rewrite <- ?app_assoc.
  all: try (exists []; split; [by rewrite app_nil_r|]; split; [done|];
            by intros ?%elem_of_nil).
  all: eexists; (split; [done|]); (split; [done|]); eauto.
  all: intros Hin; exfalso.
  all: repeat (apply elem_of_cons in Hin as [Hin|Hin]; [discriminate|]).
  all: by apply elem_of_nil in Hin.
Qed.

Lemma step_task_trace s s' :
  step_task s = Some s' →
  ∃ e, trace s' = trace s ++ [e] ∧ is_task_event e = true ∧
       (∀ c, e = EvClose CopyT c → task s = TClose c).
Proof.
  destruct s as [p t w ds mu cc co tr]. unfold step_task. st. intros Hs.
  destruct t; repeat case_match; simplify_eq; st.
  all: eexists; (split; [done|]); (split; [done|]); intros; by simplify_eq.
Qed.

Lemma CopyDone_step s s' :
  CopyDone s → step env client req s s' → CopyDone s'.
Proof.
  intros HK [[] Hs]; simpl in Hs.
  - destruct (step_main_trace _ _ Hs) as (es & Htr & _).
    assert (task s' = task s ∨ ∃ c out, task s' = TCopy c out)
      as [Ht|(c & out & Ht')].
    { clear HK Htr. destruct s as [p t w ds mu cc co tr].
      unfold step_main, respondOK in Hs. st.
      destruct p; repeat case_match; simplify_eq; st; eauto. }
    + unfold CopyDone in *. rewrite Ht, Htr.
      destruct (task s); try done; destruct HK as [out ?]; exists out;
        apply elem_of_app; by left.
    + unfold CopyDone. by rewrite Ht'.
  - destruct s as [p t w ds mu cc co tr]. unfold step_task in Hs.
    unfold CopyDone in *. st.
    destruct t; try done; try case_decide; try done; injection Hs as <-; st;
      try done.
    + exists connOut. in_list.
    + destruct HK as [out ?]. exists out. apply elem_of_app. by left.
Qed.

Lemma CopyDone_reachable s : reachable env client req Rc Ro s → CopyDone s.
Proof.
  unfold reachable. intros Hr.
  eapply (rtc_ind_r (λ z, CopyDone z)); [| |exact Hr].
  - done.
  - intros y z _ Hyz Hy. by eapply CopyDone_step.
Qed.

Lemma Ord_initial : Ord (initial Rc Ro).
Proof. repeat split; intros; apply before_nil. Qed.

Lemma Ord_step s s' :
  Inv env client req Rc Ro s → CopyDone s → Ord s →
  step env client req s s' → Ord s'.
Proof.
  intros HI HK (O1 & O2 & O3 & O4) [[] Hs]; simpl in Hs; unfold Ord.
  - destruct (step_main_trace _ _ Hs) as (es & -> & Hes & Hdone).
    assert (∀ e, e ∈ es → is_task_event e = false) as Hnt.
    { intros e He. destruct (is_task_event e) eqn:E; [|done].
      assert (e ∈ ttrace es) as Hin by (by apply elem_of_ttrace).
      rewrite Hes in Hin. by apply elem_of_nil in Hin. }
    split; [intros c|split; [|split; [|intros c]]]; apply before_extend; try done.
    + intros e He ->. by apply Hnt in He.
    + intros e He ->. destruct (Hdone He) as (c & out & err & Hp).
      exists (okWrite env c). split; [by eapply Inv_at_WgDone|].
      exists c. by eexists.
    + intros e He [c ->]. by apply Hnt in He.
    + intros e He ->. by apply Hnt in He.
  - destruct (step_task_trace _ _ Hs) as (e & -> & He & Hclose).
    split; [intros c|split; [|split; [|intros c]]]; apply before_snoc; try done.
    + intros ->. destruct (Inv_released s c HI (Hclose _ eq_refl)) as [? ?].
      exists (okWrite env c). split; [done|]. by eexists.
    + by intros ->.
    + intros [c ->]. destruct (Inv_released s c HI (Hclose _ eq_refl)) as [? ?].
      by exists EvWgDone.
    + intros ->. unfold CopyDone in HK. rewrite (Hclose _ eq_refl) in HK.
      destruct HK as [out Hin]. exists (EvCopyEnd CopyT out c).
      split; [done|]. by exists out.
Qed.

Lemma Ord_reachable s : reachable env client req Rc Ro s → Ord s.
Proof.
  unfold reachable. intros Hr.
  eapply (rtc_ind_r (λ z, reachable env client req Rc Ro z ∧ Ord z));
    [| |exact Hr].
  - split; [apply rtc_refl | apply Ord_initial].
  - intros y z _ Hyz [Hy HO]. split; [by eapply rtc_r|].
    eapply Ord_step; eauto; [by apply Inv_reachable|by apply CopyDone_reachable].
Qed.

End Ordering.

(** ** Go strings *)

Section GoStringFacts.

Import GoString.

Lemma sapp_nil t : "" +:+ t = t.
Proof. done. Qed.

Lemma sapp_cons a s t : String a s +:+ t = String a (s +:+ t).
Proof. done. Qed.

Lemma IndexByteString_range s c :
  IndexByteString s c = -1 ∨ 0 ≤ IndexByteString s c < len s.
Proof.
  unfold len. induction s as [|a s IH]; simpl; [by left|].
  destruct (Ascii.eqb a c); [right; lia|].
  destruct (Z.ltb_spec (IndexByteString s c) 0); [by left|right; lia].
Qed.

Lemma has_cons a s c : net.has (String a s) c = Ascii.eqb a c || net.has s c.
Proof.
  unfold net.has. simpl. destruct (Ascii.eqb a c); [done|].
  destruct (IndexByteString_range s c) as [E|E]; [by rewrite E|].
  simpl. destruct (Z.ltb_spec (IndexByteString s c) 0); [lia|].
  destruct (Z.leb_spec 0 (1 + IndexByteString s c)),
    (Z.leb_spec 0 (IndexByteString s c)); try done; lia.
Qed.

Lemma has_app s t c : net.has (s +:+ t) c = net.has s c || net.has t c.
Proof.
  induction s as [|a s IH]; [done|].
  rewrite sapp_cons, !has_cons, IH. by rewrite orb_assoc.
Qed.

(** No [c] in [s]: [last] finds none either. *)
Lemma last_absent s c : net.has s c = false → last s c = -1.
Proof.
  induction s as [|a s IH]; [done|].
  rewrite has_cons. intros [Ha Hs]%orb_false_elim. simpl.
  rewrite (IH Hs), Ha. done.
Qed.

(** The last [c] of [h ++ c :: p] is the one written, when [p] has none. *)
Lemma last_app_sep h p c :
  net.has p c = false → last (h +:+ String c p) c = len h.
Proof.
  intros Hp. unfold len. induction h as [|a h IH].
  - rewrite sapp_nil. simpl. rewrite (last_absent _ _ Hp). simpl.
    by rewrite Ascii.eqb_refl.
  - rewrite sapp_cons. simpl last. rewrite IH.
    cbn [String.length]. rewrite Nat2Z.inj_succ.
    destruct (Z.leb_spec 0 (Z.of_nat (String.length h))); lia.
Qed.

Lemma slice_to_app h t : slice_to (h +:+ t) (len h) = h.
Proof.
  unfold slice_to, len. rewrite Nat2Z.id.
  induction h as [|a h IH]; [by destruct t|].
  rewrite sapp_cons. simpl. by rewrite IH.
Qed.

Lemma substring_all s : String.substring 0 (String.length s) s = s.
Proof. induction s as [|a s IH]; simpl; [done|by rewrite IH]. Qed.

Lemma length_sapp s t :
  String.length (s +:+ t) = (String.length s + String.length t)%nat.
Proof.
  induction s as [|a s IH]; [done|]. rewrite sapp_cons. simpl. by rewrite IH.
Qed.

Lemma slice_from_app h t : slice_from (h +:+ t) (len h) = t.
Proof.
  unfold slice_from, len. rewrite Nat2Z.id, length_sapp.
  replace (String.length h + String.length t - String.length h)%nat
    with (String.length t) by lia.
  induction h as [|a h IH]; [apply substring_all|].
  rewrite sapp_cons. simpl. apply IH.
Qed.

Lemma slice_from_0 s : slice_from s 0 = s.
Proof. unfold slice_from. simpl. rewrite Nat.sub_0_r. apply substring_all. Qed.

Lemma sapp_assoc (a b c : string) : a +:+ b +:+ c = (a +:+ b) +:+ c.
Proof.
  induction a as [|x a IH]; [done|]. by rewrite !sapp_cons, IH.
Qed.

Lemma len_app s t : len (s +:+ t) = len s + len t.
Proof. unfold len. rewrite length_sapp. lia. Qed.

End GoStringFacts.

(** ** [net.SplitHostPort] on the hosts of the claims *)

Section SplitHostPortFacts.

Import GoString.

(** A host separated from a port by the only colon, no bracket
    anywhere: the split succeeds. *)
Lemma SplitHostPort_plain h p :
  net.has h ":" = false → net.has h "[" = false → net.has h "]" = false →
  net.has p ":" = false → net.has p "[" = false → net.has p "]" = false →
  net.SplitHostPort (h +:+ ":" +:+ p) = inl (h, p).
Proof.
  intros Hh1 Hh2 Hh3 Hp1 Hp2 Hp3. unfold net.SplitHostPort.
  change (":" +:+ p) with (String ":" p).
  rewrite (last_app_sep h p ":" Hp1).
  assert ((len h <? 0) = false) as -> by (apply Z.ltb_ge; unfold len; lia).
  assert (match at_ (h +:+ String ":" p) 0 with
          | Some c => Ascii.eqb c "["
          | None => false
          end = false) as ->.
  { destruct h as [|a h]; [done|]. rewrite has_cons in Hh2.
    rewrite sapp_cons. simpl. by apply orb_false_elim in Hh2 as [-> _]. }
  rewrite slice_to_app, Hh1, slice_from_0.
  rewrite !has_app, !has_cons, Hh2, Hh3, Hp2, Hp3. simpl.
  assert (len h + 1 = len (h +:+ ":")) as -> by (by rewrite len_app).
  change (String ":" p) with (":" +:+ p).
  by rewrite sapp_assoc, slice_from_app.
Qed.

(** No colon at all: the port is missing. *)
Lemma SplitHostPort_no_colon h :
  net.has h ":" = false → net.SplitHostPort h = inr net.missingPort.
Proof.
  intros Hh. unfold net.SplitHostPort. by rewrite (last_absent _ _ Hh).
Qed.

End SplitHostPortFacts.

(** ** [strconv]: the decimal text of an [int] parses to it *)

Section AtoiItoa.

Import strconv.

Lemma zacc_le d n : 0 ≤ n → n ≤ zacc d n.
Proof.
  revert n. induction d; intros n Hn; simpl; try lia;
    (etrans; [|apply IHd]); lia.
Qed.

Lemma zacc_of_uint_acc d acc :
  zacc d (Z.pos acc) = Z.pos (Pos.of_uint_acc d acc).
Proof.
  revert acc. induction d; intros acc; simpl; try done;
    rewrite <- IHd; f_equal; lia.
Qed.

Lemma zacc_of_uint d : zacc d 0 = Z.of_N (Pos.of_uint d).
Proof.
  induction d; simpl; try done; by rewrite <- zacc_of_uint_acc.
Qed.

Lemma zacc_to_uint p : zacc (Pos.to_uint p) 0 = Z.pos p.
Proof. by rewrite zacc_of_uint, DecimalPos.Unsigned.of_to. Qed.

Lemma parse_digits_uint d n :
  0 ≤ n → zacc d n ≤ maxUint64 →
  parse_digits (NilEmpty.string_of_uint d) n = inl (zacc d n).
Proof.
  revert n.
  induction d as [|d IH|d IH|d IH|d IH|d IH|d IH|d IH|d IH|d IH|d IH];
    intros n Hn Hmax; [done|..].
  all: cbn [NilEmpty.string_of_uint parse_digits zacc] in *.
  all: match goal with
       | |- context [digit_of ?c] =>
           let v := eval vm_compute in (digit_of c) in
           change (digit_of c) with v
       end.
  all: cbv iota beta.
  all: match type of Hmax with
       | (zacc _ ?m <= _)%Z =>
           assert (m <= zacc d m)%Z as Hle by (apply zacc_le; lia)
       end.
  all: unfold maxUint64 in *.
  all: change (2 ^ 64 - 1) with 18446744073709551615 in *.
  all: change (18446744073709551615 `div` 10 + 1) with 1844674407370955162 in *.
  all: destruct (Z.geb_spec n 1844674407370955162) as [Hge|Hlt]; [exfalso; lia|].
  all: match goal with
       | |- context [?a >? ?b] =>
           destruct (Z.gtb_spec a b) as [Hgt|Hle']; [exfalso; lia|]
       end.
  all: match goal with
       | |- context [parse_digits _ ?a] =>
           match type of Hmax with
           | (zacc _ ?m <= _)%Z => replace a with m by lia
           end
       end.
  all: by rewrite IH by lia.
Qed.

Lemma string_of_uint_digits d :
  d ≠ Decimal.Nil →
  NilZero.string_of_uint d = NilEmpty.string_of_uint d ∧
  ∃ c rest, NilEmpty.string_of_uint d = String c rest ∧
            Ascii.eqb c "+" = false ∧ Ascii.eqb c "-" = false.
Proof. destruct d; try done; intros _; split; try done; by eexists _, _. Qed.

Lemma ParseUint_to_uint p :
  Z.pos p ≤ maxUint64 →
  ParseUint (NilEmpty.string_of_uint (Pos.to_uint p)) = inl (Z.pos p).
Proof.
  intros Hp.
  destruct (string_of_uint_digits _ (Unsigned.to_uint_nonnil p))
    as (_ & c & rest & Hs & _).
  unfold ParseUint. rewrite Hs, <- Hs.
  rewrite parse_digits_uint; rewrite ?zacc_to_uint; done.
Qed.

(** Every [int] is read back from its decimal text. *)
Lemma Atoi_Itoa n : - 2 ^ 63 ≤ n < 2 ^ 63 → Atoi (Itoa n) = inl n.
Proof.
  intros Hn. destruct n as [|p|p]; [done|..].
  - unfold Itoa, Atoi, ParseInt. simpl Z.to_int. simpl NilZero.string_of_int.
    destruct (string_of_uint_digits _ (Unsigned.to_uint_nonnil p))
      as (-> & c & rest & Hs & Hplus & Hminus).
    rewrite Hs, Hplus, Hminus, <- Hs. simpl orb. cbv iota.
    rewrite ParseUint_to_uint by (unfold maxUint64; lia).
    unfold intSize. simpl negb. simpl andb.
    destruct (Z.geb_spec (Z.pos p) (2 ^ (64 - 1))) as [Hge|Hlt]; [|done].
    change (2 ^ (64 - 1)) with (2 ^ 63) in Hge. lia.
  - unfold Itoa, Atoi, ParseInt. simpl Z.to_int. simpl NilZero.string_of_int.
    destruct (string_of_uint_digits _ (Unsigned.to_uint_nonnil p)) as (-> & _).
    change (Ascii.eqb "-" "-") with true. rewrite orb_true_r. cbv iota.
    rewrite ParseUint_to_uint
      by (unfold maxUint64; change (2 ^ 64 - 1) with 18446744073709551615;
          change (- 2 ^ 63) with (-9223372036854775808) in Hn; lia).
    unfold intSize. simpl negb. simpl andb.
    destruct (Z.gtb_spec (Z.pos p) (2 ^ (64 - 1))) as [Hgt|Hle]; [|done].
    change (2 ^ (64 - 1)) with (2 ^ 63) in Hgt. lia.
Qed.

End AtoiItoa.

(** ** The QoS resolver *)

Lemma Atoi_empty : strconv.Atoi "" = inr strconv.ErrSyntax.
Proof. done. Qed.

Lemma Header_Get_qosReq host v vs :
  Header_Get (Header (qosReq host (v :: vs))) httpXFlashlightQOS = v.
Proof.
  unfold Header_Get, qosReq, mkReq. cbn [Header list_to_map foldr].
  by rewrite lookup_insert_eq.
Qed.

(** C8. The QoS resolver returns the integer of the X-Flashlight-QOS
    header whenever [strconv.Atoi] parses it, whatever its value: the
    decimal text of every [int] gives that [int] back, with no range
    validation ("7" gives 7, "-12" gives -12).  It returns the default
    [MinQOS] when the header is absent, empty or not parseable ("abc",
    or no header).  It is a total function. *)
Theorem targetQOS_resolves (client : Client) (req : Request) :
  targetQOS client req =
    match strconv.Atoi (Header_Get (Header req) httpXFlashlightQOS) with
    | inl n => n
    | inr _ => MinQOS client
    end
  ∧ (Header req !! httpXFlashlightQOS = None →
     targetQOS client req = MinQOS client)
  ∧ (∀ host n, - 2 ^ 63 ≤ n < 2 ^ 63 →
       targetQOS client (qosReq host [strconv.Itoa n]) = n)
  ∧ (∀ host, targetQOS client (qosReq host ["7"]) = 7)
  ∧ (∀ host, targetQOS client (qosReq host ["-12"]) = -12)
  ∧ (∀ host, targetQOS client (qosReq host ["abc"]) = MinQOS client)
  ∧ (∀ host, targetQOS client (plainReq host) = MinQOS client).
Proof.
  assert (∀ r, targetQOS client r =
    match strconv.Atoi (Header_Get (Header r) httpXFlashlightQOS) with
    | inl n => n
    | inr _ => MinQOS client
    end) as Hspec.
  { intros r. unfold targetQOS. case_decide as Hne; [done|].
    by rewrite Hne, Atoi_empty. }
  split; [done|]. split.
  { intros Hnone. rewrite Hspec. unfold Header_Get. by rewrite Hnone. }
  split.
  { intros host n Hn. by rewrite Hspec, Header_Get_qosReq, Atoi_Itoa. }
  repeat split; intros host; by vm_compute.
Qed.

Lemma targetQOS_resolves_witness :
  targetQOS someClient (plainReq "example.com") = 3 ∧
  targetQOS someClient (qosReq "example.com" [strconv.Itoa 4096]) = 4096.
Proof.
  destruct (targetQOS_resolves someClient (plainReq "example.com"))
    as (_ & H1 & H2 & _).
  split; [by apply H1|]. apply H2. lia.
Defined.

(** ** Address defaulting *)

Lemma plain_has s :
  plain s = true →
  net.has s ":" = false ∧ net.has s "[" = false ∧ net.has s "]" = false.
Proof.
  unfold plain. intros [[H1 H2]%andb_prop H3]%andb_prop.
  by rewrite !negb_true_iff in *.
Qed.

Lemma hostIncludingPort_split_ok req dp h p :
  net.SplitHostPort (Host req) = inl (h, p) → p ≠ "" →
  hostIncludingPort req dp = Host req.
Proof. unfold hostIncludingPort. intros -> Hp. by rewrite decide_False. Qed.

Lemma hostIncludingPort_split_fails req dp :
  (∃ e, net.SplitHostPort (Host req) = inr e) ∨
  (∃ h, net.SplitHostPort (Host req) = inl (h, "")) →
  hostIncludingPort req dp = Host req +:+ ":" +:+ strconv.Itoa dp.
Proof. unfold hostIncludingPort. by intros [[e ->]|[h ->]]. Qed.

(** C9. [intercept] resolves the address with default port 443.  A host
    with no colon gets the default port appended ("example.com" becomes
    "example.com:443"); a host of the form host:port, with a port that
    is not empty and no further colon or bracket, is returned unchanged
    ("example.com:8443" stays). *)
Theorem hostIncludingPort_defaults (req : Request) :
  addr req = hostIncludingPort req 443
  ∧ (∀ dp, net.has (Host req) ":" = false →
       hostIncludingPort req dp = Host req +:+ ":" +:+ strconv.Itoa dp)
  ∧ (net.has (Host req) ":" = false → addr req = Host req +:+ ":443")
  ∧ (∀ dp h p, Host req = h +:+ ":" +:+ p → plain h = true → plain p = true →
       p ≠ "" → hostIncludingPort req dp = Host req)
  ∧ hostIncludingPort (plainReq "example.com") 443 = "example.com:443"
  ∧ hostIncludingPort (plainReq "example.com:8443") 443 = "example.com:8443".
Proof.
  split; [done|].
  assert (∀ dp, net.has (Host req) ":" = false →
            hostIncludingPort req dp = Host req +:+ ":" +:+ strconv.Itoa dp) as Hno.
  { intros dp Hh. apply hostIncludingPort_split_fails. left.
    rewrite (SplitHostPort_no_colon _ Hh). by eexists. }
  split; [done|]. split; [by apply Hno|]. split; [|by vm_compute].
  intros dp h p Heq (Hh1 & Hh2 & Hh3)%plain_has (Hp1 & Hp2 & Hp3)%plain_has Hp.
  apply (hostIncludingPort_split_ok req dp h p); [|done].
  rewrite Heq. by apply SplitHostPort_plain.
Qed.

Lemma hostIncludingPort_defaults_witness :
  addr (plainReq "example.org") = "example.org:443"
  ∧ hostIncludingPort (plainReq "example.org:80") 443 = "example.org:80".
Proof.
  destruct (hostIncludingPort_defaults (plainReq "example.org")) as (_ & _ & H & _).
  destruct (hostIncludingPort_defaults (plainReq "example.org:80"))
    as (_ & _ & _ & H' & _).
  split.
  - apply H. reflexivity.
  - apply (H' 443 "example.org" "80"); [reflexivity|reflexivity|reflexivity|].
    discriminate.
Defined.

(** C10. When the split of the host fails or finds an empty port, the
    default port is appended after a colon to the host as it is, colons
    included: a trailing colon gives two colons ("example.com:" becomes
    "example.com::443") and a bare IPv6 literal gets the port glued on
    ("::1" becomes "::1:443"). *)
Theorem hostIncludingPort_appends (req : Request) (dp : Z) :
  ((∃ e, net.SplitHostPort (Host req) = inr e) ∨
   (∃ h, net.SplitHostPort (Host req) = inl (h, "")) →
   hostIncludingPort req dp = Host req +:+ ":" +:+ strconv.Itoa dp)
  ∧ (∀ h, Host req = h +:+ ":" → plain h = true →
       hostIncludingPort req dp = h +:+ "::" +:+ strconv.Itoa dp)
  ∧ hostIncludingPort (plainReq "example.com:") 443 = "example.com::443"
  ∧ hostIncludingPort (plainReq "::1") 443 = "::1:443"
  ∧ net.SplitHostPort "example.com:" = inl ("example.com", "")
  ∧ net.SplitHostPort "::1" = inr net.tooManyColons.
Proof.
  split; [apply hostIncludingPort_split_fails|].
  split; [|by vm_compute].
  intros h Heq (Hh1 & Hh2 & Hh3)%plain_has.
  rewrite hostIncludingPort_split_fails.
  - rewrite Heq. by rewrite <- sapp_assoc.
  - right. exists h. rewrite Heq.
    by apply (SplitHostPort_plain h "").
Qed.

Lemma hostIncludingPort_appends_witness :
  hostIncludingPort (plainReq "[::1]") 8080 = "[::1]:8080"
  ∧ hostIncludingPort (plainReq "localhost:") 8080 = "localhost::8080".
Proof.
  split.
  - apply (proj1 (hostIncludingPort_appends (plainReq "[::1]") 8080)).
    left. exists net.missingPort. reflexivity.
  - apply (proj1 (proj2 (hostIncludingPort_appends (plainReq "localhost:") 8080))
             "localhost"); reflexivity.
Defined.

(** ** Runs *)

Section Runs.

Context (env : Env) (client : Client) (req : Request).
Context (Rc Ro : gmap positive connMeta).

Lemma exec_steps sched s : rtc (step env client req) s (exec env client req sched s).
Proof.
  revert s. induction sched as [|t sched IH]; intros s; simpl; [done|].
  destruct (step_of env client req t s) as [s'|] eqn:E; [|done].
  eapply rtc_l; [by exists t|done].
Qed.

Lemma exec_reachable sched :
  reachable env client req Rc Ro (exec env client req sched (initial Rc Ro)).
Proof. apply exec_steps. Qed.

Lemma Inv_terminal s :
  Inv env client req Rc Ro s → terminal s →
  ∃ o, pc s = PcFinished o ∧ Final env client req Rc Ro s o ∧ defers s = [] ∧
       (task s = TNotStarted ∨ task s = TDone).
Proof.
  intros HI [[o Ho] Ht]. unfold Inv in HI. rewrite Ho in HI.
  destruct HI. by exists o.
Qed.

(** From every reachable state the attempt runs to its end, in at
    most [measure] steps. *)
Lemma reachable_terminates s :
  reachable env client req Rc Ro s →
  (∃ s', rtc (step env client req) s s' ∧ terminal s') ∧
  (∀ n s', nsteps (step env client req) n s s' → (n ≤ measure s)%nat).
Proof.
  intros Hr. split.
  - eapply reach_terminal. by apply Inv_reachable.
  - intros n s' Hn. apply nsteps_measure in Hn. lia.
Qed.

End Runs.

Lemma mtrace_all tr : ttrace tr = [] → mtrace tr = tr.
Proof.
  induction tr as [|e tr IH]; [done|]. unfold ttrace, mtrace in *. simpl.
  destruct (is_task_event e); simpl; [done|]. intros H. by rewrite IH.
Qed.

Lemma count_cons e x tr :
  count e (x :: tr) = ((if bool_decide (x = e) then 1 else 0) + count e tr)%nat.
Proof. unfold count. simpl. by destruct (bool_decide (x = e)). Qed.

Lemma count_pend_closes e ds :
  (∀ c, e ≠ EvClose MainT c) → count e (pend_closes ds) = 0%nat.
Proof.
  intros Hne. induction ds as [|[c|c|c] ds IH]; simpl; try done.
  rewrite count_cons, IH, bool_decide_false; [done|]. intros E. by eapply Hne.
Qed.

Lemma count_ttrace e tr : is_task_event e = false → count e (ttrace tr) = 0%nat.
Proof.
  intros He. induction tr as [|x tr IH]; [done|].
  unfold ttrace in *. simpl. destruct (is_task_event x) eqn:Ex; [|done].
  rewrite count_cons, IH, bool_decide_false; [done|]. congruence.
Qed.

Lemma received_app w tr es : received w (tr ++ es) = received w tr ++ received w es.
Proof. unfold received. apply omap_app. Qed.

Lemma received_respondBadGateway env w m :
  received w (respondBadGateway env w m) =
    match write_err env w (StatusResponse StatusBadGateway) with
    | Some _ => []
    | None =>
        StatusResponse StatusBadGateway ::
        match write_err env w (Bytes m) with
        | Some _ => []
        | None => [Bytes m]
        end
    end.
Proof.
  unfold respondBadGateway, received.
  destruct (write_err env w (StatusResponse StatusBadGateway)); simpl; [done|].
  rewrite decide_True by done.
  destruct (write_err env w (Bytes m)); simpl; [done|].
  by rewrite decide_True.
Qed.

(** ** Failure of the hijack *)

Section HijackFailure.

Context (env : Env) (client : Client) (req : Request).
Context (Rc Ro : gmap positive connMeta).

Lemma no_hijack_nothing_acquired s :
  Inv env client req Rc Ro s →
  (∀ c, hijacker env ≠ Some (inl c)) →
  clientConns s = Rc ∧ conns s = Ro ∧ task s = TNotStarted ∧
  mtrace (trace s) = trace s.
Proof.
  intros HI Hh. unfold Inv in HI.
  assert (∀ lock tr, nothing_acquired Rc Ro s lock tr →
            clientConns s = Rc ∧ conns s = Ro ∧ task s = TNotStarted ∧
            mtrace (trace s) = trace s) as Hn.
  { intros lock tr (? & ? & ? & ? & ? & ? & ? & ?).
    repeat split; try done. by apply mtrace_all. }
  assert (∀ o, Final env client req Rc Ro s o →
            clientConns s = Rc ∧ conns s = Ro ∧ task s = TNotStarted ∧
            mtrace (trace s) = trace s) as HF.
  { intros o [? ? ?|? ? ? ?|e ? ? ? ?|c ? Hc|c peer e ran [_ [Hc _]]
             |c peer out ran [[_ [Hc _]] _]]; eauto; by destruct (Hh c). }
  destruct (pc s); eauto.
  - destruct HI. by eapply Hn.
  - destruct HI as (_ & Hc & _). by destruct (Hh clientConn).
  - destruct HI as (peer & (_ & Hc & _) & _). by destruct (Hh clientConn).
  - destruct HI as (peer & (_ & Hc & _) & _). by destruct (Hh clientConn).
  - destruct HI as (peer & ((_ & Hc & _) & _) & _). by destruct (Hh clientConn).
  - destruct HI as (peer & ((_ & Hc & _) & _) & _). by destruct (Hh clientConn).
  - destruct HI as (peer & ((_ & Hc & _) & _) & _). by destruct (Hh clientConn).
  - destruct HI as (peer & ((_ & Hc & _) & _) & _). by destruct (Hh clientConn).
  - destruct HI as (peer & ((_ & Hc & _) & _) & _). by destruct (Hh clientConn).
  - destruct HI as [HI _]. eauto.
Qed.

End HijackFailure.

(** C5, as the code has it.  When [Hijack()] returns an error the
    attempt returns normally after writing the 502 response, and then
    the text "Unable to hijack connection: <error>", on the response
    writer.  When the response writer has no [Hijack] method the type
    assertion panics and nothing is written.  In both cases the two
    registries stay as they were, in every state of the attempt. *)
Theorem hijack_failure env client req Rc Ro s :
  Method req = httpConnectMethod →
  reachable env client req Rc Ro s →
  (∀ e, hijacker env = Some (inr e) →
     clientConns s = Rc ∧ conns s = Ro ∧
     (terminal s →
        pc s = PcFinished Returned ∧
        trace s = respondBadGateway env W_resp (hijackMsg e)))
  ∧ (hijacker env = None →
     clientConns s = Rc ∧ conns s = Ro ∧ trace s = [] ∧
     (terminal s →
        pc s = PcFinished (Panicked "interface conversion: not a http.Hijacker")))
  ∧ (∃ s', rtc (step env client req) s s' ∧ terminal s').
Proof.
  intros Hm Hr. pose proof (Inv_reachable _ _ _ _ _ _ Hr) as HI.
  split; [|split].
  - intros e He.
    destruct (no_hijack_nothing_acquired env client req Rc Ro s HI)
      as (Hcc & Hco & Ht & Hmt); [by rewrite He|].
    repeat split; try done.
    all: destruct (Inv_terminal _ _ _ _ _ _ HI H) as (o & Hp & HF & _).
    all: destruct HF as [? ? ?|? ? ? ?|e' ? ? -> Hn|c ? Hc|c peer e' ran [_ [Hc _]]
                        |c peer out ran [[_ [Hc _]] _]]; try congruence.
    + destruct Hn as (_ & _ & _ & _ & _ & _ & _ & Hn).
      rewrite <- Hmt, Hn. congruence.
  - intros He.
    destruct (no_hijack_nothing_acquired env client req Rc Ro s HI)
      as (Hcc & Hco & Ht & Hmt); [by rewrite He|].
    assert (mtrace (trace s) = []) as Hnil.
    { unfold Inv in HI. destruct (pc s); unf; try (by fin; congruence).
      - destruct HI as [? ? Hn|? ? ? Hn|e ? ? ? Hn|c ? ? ? ? Hn
                       |c peer e ran [_ [Hc _]]|c peer out ran [[_ [Hc _]] _]];
          unf; try (by fin; congruence).
      - destruct HI as [HI _].
        destruct HI as [? ? Hn|? ? ? Hn|e ? ? ? Hn|c ? ? ? ? Hn
                       |c peer e ran [_ [Hc _]]|c peer out ran [[_ [Hc _]] _]];
          unf; try (by fin; congruence). }
    repeat split; try done; [congruence|]. intros Hterm.
    destruct (Inv_terminal _ _ _ _ _ _ HI Hterm) as (o & Hp & HF & _).
    destruct HF as [? ? ?|? ? -> ?|e' ? ? ? Hn|c ? Hc|c peer e' ran [_ [Hc _]]
                   |c peer out ran [[_ [Hc _]] _]]; congruence.
  - by apply (reachable_terminates env client req Rc Ro).
Qed.

Lemma hijack_failure_witness :
  let s := exec hijackErrEnv someClient someReq (mainOnly 4) (initial ∅ ∅) in
  clientConns s = ∅ ∧ conns s = ∅ ∧ pc s = PcFinished Returned ∧
  trace s =
    [EvWrite W_resp (StatusResponse StatusBadGateway) true;
     EvWrite W_resp (Bytes "Unable to hijack connection: already hijacked") true].
Proof.
  intros s.
  destruct (hijack_failure hijackErrEnv someClient someReq ∅ ∅ s eq_refl
              (exec_reachable _ _ _ _ _ _)) as (H & _).
  destruct (H "already hijacked" eq_refl) as (Hcc & Hco & Ht).
  destruct Ht as [Hp Htr]; [split; [by eexists|by left]|].
  repeat split; done.
Defined.

(** C5, the case the claim misses: a response writer without [Hijack]
    ends the attempt by a panic, with nothing written on it. *)
Lemma hijack_unsupported_panics :
  let s := exec noHijackerEnv someClient someReq (mainOnly 4) (initial ∅ ∅) in
  Method someReq = httpConnectMethod ∧ hijacker noHijackerEnv = None ∧
  terminal s ∧
  pc s = PcFinished (Panicked "interface conversion: not a http.Hijacker") ∧
  received W_resp (trace s) = [].
Proof.
  intros s. repeat split; try done.
  - by eexists.
  - by left.
Qed.

(** ** The remote address of an acquired socket *)

Section RemoteAddress.

Context (env : Env) (client : Client) (req : Request).
Context (Rc Ro : gmap positive connMeta).

Lemma addr_panic_states s c :
  Inv env client req Rc Ro s → Method req = httpConnectMethod →
  hijacker env = Some (inl c) → RemoteAddr env c = None →
  ∃ lock tr, nothing_acquired Rc Ro s lock tr ∧
    (tr = [] ∨ tr = [EvHijack c]) ∧
    (∀ o, pc s = PcFinished o →
       o = Panicked "RemoteAddr" ∧ lock = true ∧ tr = [EvHijack c]).
Proof.
  intros HI Hm0 Hh Hra. unfold Inv in HI.
  assert (∀ c' peer, hijacked env req c' peer → False) as Hno.
  { intros c' peer (_ & Hh' & Hra'). congruence. }
  assert (∀ o, Final env client req Rc Ro s o →
            o = Panicked "RemoteAddr" ∧
            nothing_acquired Rc Ro s true [EvHijack c]) as HF.
  { intros o [Hm ? ?|? ? ? ?|e ? ? ? ?|c' ? Hc ? ? ?|c' peer e ran Hj
             |c' peer out ran [Hj _]]; try congruence.
    - by assert (c' = c) as -> by congruence.
    - by destruct (Hno _ _ Hj).
    - by destruct (Hno _ _ Hj). }
  destruct (pc s) eqn:Hp.
  - exists false, []. split; [done|]. split; [tauto|done].
  - exists false, []. destruct HI. split; [done|]. split; [tauto|done].
  - destruct HI as (_ & Hc & HI). assert (clientConn = c) as -> by congruence.
    exists false, [EvHijack c]. split; [done|]. split; [tauto|done].
  - destruct HI as (peer & Hj & _). by destruct (Hno _ _ Hj).
  - destruct HI as (peer & Hj & _). by destruct (Hno _ _ Hj).
  - destruct HI as (peer & [Hj _] & _). by destruct (Hno _ _ Hj).
  - destruct HI as (peer & [Hj _] & _). by destruct (Hno _ _ Hj).
  - destruct HI as (peer & [Hj _] & _). by destruct (Hno _ _ Hj).
  - destruct HI as (peer & [Hj _] & _). by destruct (Hno _ _ Hj).
  - destruct HI as (peer & [Hj _] & _). by destruct (Hno _ _ Hj).
  - destruct (HF _ HI) as [-> Hn]. exists true, [EvHijack c].
    split; [done|]. split; [tauto|done].
  - destruct HI as [HI _]. destruct (HF _ HI) as [-> Hn].
    exists true, [EvHijack c]. split; [done|]. split; [tauto|].
    intros o' Ho'. by simplify_eq.
Qed.

End RemoteAddress.

(** C4, where the code breaks it.  When the remote-address query of the
    hijacked client socket panics, the attempt ends by that panic: the
    socket is neither registered nor closed, and the lock of the
    registries, taken before the query, is never released. *)
Theorem client_remote_addr_panic env client req Rc Ro s c :
  Method req = httpConnectMethod →
  hijacker env = Some (inl c) → RemoteAddr env c = None →
  reachable env client req Rc Ro s →
  clientConns s = Rc ∧ conns s = Ro ∧ ¬ closed c (trace s)
  ∧ (terminal s →
       pc s = PcFinished (Panicked "RemoteAddr") ∧ muConns s = true ∧
       trace s = [EvHijack c])
  ∧ (∃ s', rtc (step env client req) s s' ∧ terminal s').
Proof.
  intros Hm Hh Hra Hr. pose proof (Inv_reachable _ _ _ _ _ _ Hr) as HI.
  destruct (addr_panic_states env client req Rc Ro s c HI Hm Hh Hra)
    as (lock & tr & (Ht & Hw & Htt & Hmu & Hd & Hcc & Hco & Hmt) & Htr & Hfin).
  apply mtrace_all in Htt as Hall. rewrite Hall in Hmt.
  repeat split; try done.
  - intros [t Hin]. rewrite Hmt in Hin.
    destruct Htr as [-> | ->]; [by apply elem_of_nil in Hin|].
    apply elem_of_cons in Hin as [?|Hin]; [done|by apply elem_of_nil in Hin].
  - destruct H as [[o Ho] _]. destruct (Hfin o Ho) as (-> & _). done.
  - destruct H as [[o Ho] _]. destruct (Hfin o Ho) as (_ & -> & _). done.
  - destruct H as [[o Ho] _]. destruct (Hfin o Ho) as (_ & _ & ->). done.
  - by apply (reachable_terminates env client req Rc Ro).
Qed.

Lemma client_remote_addr_panic_witness :
  let s := exec clientAddrPanicEnv someClient someReq (mainOnly 5) (initial ∅ ∅) in
  pc s = PcFinished (Panicked "RemoteAddr") ∧ muConns s = true ∧
  clientConns s = ∅ ∧ ¬ closed clientSock (trace s).
Proof.
  intros s.
  destruct (client_remote_addr_panic clientAddrPanicEnv someClient someReq ∅ ∅ s
              clientSock eq_refl eq_refl eq_refl (exec_reachable _ _ _ _ _ _))
    as (Hcc & _ & Hcl & Ht & _).
  destruct Ht as (Hp & Hmu & _); [split; [by eexists|by left]|].
  done.
Defined.

(** ** The dial *)





Section Dial.

Context (env : Env) (client : Client) (req : Request).
Context (Rc Ro : gmap positive connMeta).



End Dial.

(** ** How far the deferred calls have run *)

Lemma DC_progress c ran rest :
  DC c = ran ++ rest →
  (ran = [] ∧ rest = DC c) ∨
  (ran = [DoClose c] ∧ rest = [DoDeleteClient c]) ∨
  (ran = DC c ∧ rest = []).
Proof.
  unfold DC. intros H.
  destruct ran as [|a1 [|a2 [|a3 ran]]]; simpl in H; simplify_eq; auto.
Qed.

Lemma DO_DC_progress c out ran rest :
  DO out ++ DC c = ran ++ rest →
  (ran = [] ∧ rest = DO out ++ DC c) ∨
  (ran = [DoClose out] ∧ rest = DoDeleteOut out :: DC c) ∨
  (ran = DO out ∧ rest = DC c) ∨
  (ran = DO out ++ [DoClose c] ∧ rest = [DoDeleteClient c]) ∨
  (ran = DO out ++ DC c ∧ rest = []).
Proof.
  unfold DO, DC. intros H.
  destruct ran as [|a1 [|a2 [|a3 [|a4 [|a5 ran]]]]]; simpl in H; simplify_eq;
    auto 10.
Qed.

(** ** Failure of the dial *)

Section DialFailure.

Context (env : Env) (client : Client) (req : Request).
Context (Rc Ro : gmap positive connMeta).

Lemma dial_failed_states s c peer e :
  Inv env client req Rc Ro s → hijacked env req c peer →
  dial_result env client req = inr e →
  pre_pipe s ∧ conns s = Ro ∧
  trace s `prefix_of` dial_failed_full env client req c e ∧
  (∀ o, pc s = PcFinished o →
     o = Returned ∧ clientConns s = delete c Rc ∧ trace s = dial_failed_full env client req c e).
Proof.
  intros HI (Hm & Hh & Hra) Hde. unfold Inv in HI.
  assert (∀ c' peer', hijacked env req c' peer' → c' = c ∧ peer' = peer) as Hpin.
  { intros c' peer' (_ & Hh' & Hra'). split; congruence. }
  assert (∀ c' peer' out, dialed env client req c' peer' out → False) as Hno.
  { intros c' peer' out [_ Hd]. congruence. }
  assert (∀ P : Prop, pre_pipe s → conns s = Ro →
            mtrace (trace s) `prefix_of` dial_failed_full env client req c e →
            (ttrace (trace s) = [] →
             ∀ o, pc s = PcFinished o →
               o = Returned ∧ clientConns s = delete c Rc ∧
               mtrace (trace s) = dial_failed_full env client req c e) →
            pre_pipe s ∧ conns s = Ro ∧
            trace s `prefix_of` dial_failed_full env client req c e ∧
            (∀ o, pc s = PcFinished o →
               o = Returned ∧ clientConns s = delete c Rc ∧
               trace s = dial_failed_full env client req c e)) as Hpack.
  { intros _ Hpre Hco Hpf Hfin. pose proof Hpre as (_ & _ & Htt & _).
    rewrite (mtrace_all _ Htt) in *. auto. }
  assert (∀ o, Final env client req Rc Ro s o →
            pre_pipe s ∧ conns s = Ro ∧
            mtrace (trace s) `prefix_of` dial_failed_full env client req c e ∧
            (defers s = [] →
               o = Returned ∧ clientConns s = delete c Rc ∧
               mtrace (trace s) = dial_failed_full env client req c e)) as HF.
  { intros o [? ? ?|? ? ? ?|e' ? ? ? ?|c' ? Hc ? ? ?
             |c' peer' e' ran Hj Hde' Ho Hpre Hran Hcc Hco Hmt
             |c' peer' out ran Hd]; try congruence.
    - destruct (Hpin _ _ Hj) as [-> ->].
      assert (e' = e) as -> by congruence.
      split; [done|]. split; [done|]. split.
      + rewrite Hmt. unfold dial_failed_full.
        destruct (DC_progress _ _ _ Hran) as [[-> _]|[[-> _]|[-> _]]]; simpl.
        * rewrite app_nil_r. by eexists.
        * done.
        * done.
      + intros Hd. rewrite Hd, app_nil_r in Hran. subst ran.
        split; [done|]. split; [|by rewrite Hmt].
        rewrite Hcc. simpl. apply delete_insert_eq.
    - by destruct (Hno _ _ _ Hd). }
  unfold dial_failed_full, dial_failed_main in *.
  destruct (pc s) eqn:Hp.
  - destruct HI as (Ht & Hw & Htt & Hmu & Hd & Hcc & Hco & Hmt).
    apply (Hpack True); try done. rewrite Hmt. apply prefix_nil.
  - destruct HI as (_ & Ht & Hw & Htt & Hmu & Hd & Hcc & Hco & Hmt).
    apply (Hpack True); try done. rewrite Hmt. apply prefix_nil.
  - destruct HI as (_ & Hc & Ht & Hw & Htt & Hmu & Hd & Hcc & Hco & Hmt).
    assert (clientConn = c) as -> by congruence.
    apply (Hpack True); try done. rewrite Hmt. by eexists.
  - destruct HI as (peer' & Hj & Hpre & (_ & _ & Hco) & Hmt).
    destruct (Hpin _ _ Hj) as [-> ->].
    apply (Hpack True); try done. rewrite Hmt. by eexists.
  - destruct HI as (peer' & Hj & _ & Hpre & (_ & _ & Hco) & Hmt).
    destruct (Hpin _ _ Hj) as [-> ->].
    apply (Hpack True); try done. rewrite Hmt.
    eexists. by rewrite <- !app_assoc.
  - destruct HI as (peer' & Hd & _). by destruct (Hno _ _ _ Hd).
  - destruct HI as (peer' & Hd & _). by destruct (Hno _ _ _ Hd).
  - destruct HI as (peer' & Hd & _). by destruct (Hno _ _ _ Hd).
  - destruct HI as (peer' & Hd & _). by destruct (Hno _ _ _ Hd).
  - destruct HI as (peer' & Hd & _). by destruct (Hno _ _ _ Hd).
  - destruct (HF _ HI) as (Hpre & Hco & Hpf & _). by apply (Hpack True).
  - destruct HI as [HI Hd]. destruct (HF _ HI) as (Hpre & Hco & Hpf & Hfin).
    apply (Hpack True); try done. intros _ o' Ho'.
    destruct (Hfin Hd) as (-> & ? & ?). by simplify_eq.
Qed.

End DialFailure.

Lemma received_dial_events env client req w :
  received w (dial_events env client req) = [].
Proof. unfold dial_events, dial. by destruct (forceDirect env client). Qed.

Lemma received_dial_failed_full env client req c e :
  received (W_conn c) (dial_failed_full env client req c e) =
  received (W_conn c) (respondBadGateway env (W_conn c) (dialMsg e)).
Proof.
  unfold dial_failed_full, dial_failed_main.
  rewrite !received_app, received_dial_events. simpl. by rewrite app_nil_r.
Qed.

Lemma no_copy_dial_failed_full env client req c e t a b :
  EvCopyEnd t a b ∉ dial_failed_full env client req c e.
Proof.
  unfold dial_failed_full, dial_failed_main, dial_events, dial, respondBadGateway.
  destruct (forceDirect env client), (write_err env _ _); simpl;
    rewrite ?elem_of_cons, elem_of_nil; intros H;
    repeat (destruct H as [H|H]; try done).
Qed.

(** C3, as the code has it.  When the hijack succeeds and the dial
    fails with error [e], the attempt writes the 502 response on the
    client socket and, only when that write succeeds, the text
    "Unable to handle CONNECT request: e"; no goroutine is started and
    nothing is copied; the deferred cleanup closes the client socket
    and removes it from the client registry; the outbound registry is
    the same in every state. *)
Theorem dial_failure env client req Rc Ro s c peer e :
  hijacked env req c peer →
  dial_result env client req = inr e →
  reachable env client req Rc Ro s →
  conns s = Ro ∧ task s = TNotStarted
  ∧ (∀ t a b, EvCopyEnd t a b ∉ trace s)
  ∧ (terminal s →
       pc s = PcFinished Returned ∧
       received (W_conn c) (trace s) =
         match write_err env (W_conn c) (StatusResponse StatusBadGateway) with
         | Some _ => []
         | None =>
             StatusResponse StatusBadGateway ::
             match write_err env (W_conn c) (Bytes (dialMsg e)) with
             | Some _ => []
             | None => [Bytes (dialMsg e)]
             end
         end ∧
       closed_by MainT c (trace s) ∧ clientConns s = delete c Rc)
  ∧ (∃ s', rtc (step env client req) s s' ∧ terminal s').
Proof.
  intros Hj Hde Hr. pose proof (Inv_reachable _ _ _ _ _ _ Hr) as HI.
  destruct (dial_failed_states env client req Rc Ro s c peer e HI Hj Hde)
    as ((Ht & _) & Hco & Hpf & Hfin).
  split; [done|]. split; [done|]. split; [|split].
  - intros t a b Hin. destruct Hpf as [k Hk].
    apply (no_copy_dial_failed_full env client req c e t a b).
    rewrite Hk. apply elem_of_app. by left.
  - intros [[o Ho] _]. destruct (Hfin o Ho) as (-> & Hcc & Htr).
    repeat split; try done.
    + by rewrite Htr, received_dial_failed_full, received_respondBadGateway.
    + unfold closed_by. rewrite Htr. unfold dial_failed_full. in_list.
  - by apply (reachable_terminates env client req Rc Ro).
Qed.

Lemma dial_failure_witness :
  let s := exec dialFailEnv someClient someReq (mainOnly 8) (initial ∅ ∅) in
  pc s = PcFinished Returned ∧
  received (W_conn clientSock) (trace s) =
    [StatusResponse StatusBadGateway;
     Bytes "Unable to handle CONNECT request: no route to host"] ∧
  closed_by MainT clientSock (trace s) ∧ clientConns s = ∅ ∧ conns s = ∅.
Proof.
  intros s.
  destruct (dial_failure dialFailEnv someClient someReq ∅ ∅ s clientSock
              "10.0.0.7:51000" "no route to host")
    as (Hco & _ & _ & Ht & _).
  - by repeat split.
  - reflexivity.
  - apply exec_reachable.
  - destruct Ht as (Hp & Hrc & Hcl & Hcc); [split; [by eexists|by left]|].
    repeat split; try done.
Defined.

(** C3, the case the claim misses: the client socket is broken, the
    write of the 502 response fails, and the error text is never
    written. *)
Lemma dial_failure_broken_socket :
  let s := exec dialFailBrokenEnv someClient someReq (mainOnly 8) (initial ∅ ∅) in
  hijacked dialFailBrokenEnv someReq clientSock "10.0.0.7:51000" ∧
  dial_result dialFailBrokenEnv someClient someReq = inr "no route to host" ∧
  terminal s ∧
  received (W_conn clientSock) (trace s) = [] ∧
  (∀ b ok, EvWrite (W_conn clientSock) (Bytes b) ok ∉ trace s).
Proof.
  intros s. repeat split; try done.
  - by eexists.
  - by left.
  - intros b ok Hin. vm_compute in Hin.
    repeat (apply elem_of_cons in Hin as [Hin|Hin]; [discriminate|]).
    by apply elem_of_nil in Hin.
Qed.

Section DialOnce.

Context (env : Env) (client : Client) (req : Request).
Context (Rc Ro : gmap positive connMeta).



End DialOnce.



(** ** An established tunnel *)

Ltac pfx :=
  simpl; repeat first [apply prefix_cons | apply prefix_app];
  try apply prefix_nil; try done; try (by eexists).

Section Tunnelled.

Context (env : Env) (client : Client) (req : Request).
Context (Rc Ro : gmap positive connMeta).

Lemma tunnel_view s c peer out :
  Inv env client req Rc Ro s → dialed env client req c peer out →
  TunnelView env client req Rc Ro c peer out s.
Proof.
  intros HI [(Hm & Hh & Hra) Hd]. unfold Inv in HI.
  assert (∀ c' peer', hijacked env req c' peer' → c' = c ∧ peer' = peer) as Hpin.
  { intros c' peer' (_ & Hh' & Hra'). split; congruence. }
  assert (∀ c' peer' out', dialed env client req c' peer' out' →
            c' = c ∧ peer' = peer ∧ out' = out) as Hpin'.
  { intros c' peer' out' [Hj Hd']. destruct (Hpin _ _ Hj) as [-> ->].
    repeat split. congruence. }
  assert (∀ o, Final env client req Rc Ro s o →
            pc s = PcUnwind o ∨ (pc s = PcFinished o ∧ defers s = []) →
            TunnelView env client req Rc Ro c peer out s) as HF.
  { intros o [? ? ?|? ? ? ?|e' ? ? ? ?|c' ? Hc ? ? ?
             |c' peer' e' ran Hj Hde' Ho Hpre Hran Hcc Hco Hmt
             |c' peer' out' ran Hd' Ho Hmu Hw Ht Hran Hcc Hco Hmt] Hp;
      try congruence.
    destruct (Hpin' _ _ _ Hd') as (-> & -> & ->).
    by eapply (TVUnwind _ _ _ _ _ _ _ _ _ ran o). }
  destruct (pc s) eqn:Hp.
  - destruct HI as (Ht & Hw & Htt & Hmu & Hdf & Hcc & Hco & Hmt).
    apply TVBefore; rewrite ?Hp; try done.
  - destruct HI as (_ & Ht & Hw & Htt & Hmu & Hdf & Hcc & Hco & Hmt).
    apply TVBefore; rewrite ?Hp; try done.
  - destruct HI as (_ & _ & Ht & Hw & Htt & Hmu & Hdf & Hcc & Hco & Hmt).
    apply TVBefore; rewrite ?Hp; try done.
  - destruct HI as (peer' & Hj & Hpre & Hacq & Hmt).
    destruct (Hpin _ _ Hj) as [-> ->].
    apply TVClient; rewrite ?Hp; try done.
  - destruct HI as (peer' & Hj & Hde & _). congruence.
  - destruct HI as (peer' & Hd' & Hpre & Hacq & Hmt).
    destruct (Hpin' _ _ _ Hd') as (-> & -> & ->).
    apply TVClient; rewrite ?Hp; try done.
  - destruct HI as (peer' & Hd' & Hpre & Hacq & Hmt).
    destruct (Hpin' _ _ _ Hd') as (-> & -> & ->).
    apply TVPiping; rewrite ?Hp; try done.
  - destruct HI as (peer' & Hd' & Hacq & _).
    destruct (Hpin' _ _ _ Hd') as (-> & -> & ->).
    apply TVPiping; rewrite ?Hp; try done.
  - destruct HI as (peer' & Hd' & Hacq & _).
    destruct (Hpin' _ _ _ Hd') as (-> & -> & ->).
    apply TVPiping; rewrite ?Hp; try done.
  - destruct HI as (peer' & Hd' & Hacq & _).
    destruct (Hpin' _ _ _ Hd') as (-> & -> & ->).
    apply TVPiping; rewrite ?Hp; try done.
  - apply (HF o HI). by left.
  - destruct HI as [HI Hdf]. apply (HF o HI). by right.
Qed.

(** The calling context logs a prefix of the trace of the whole path. *)
Lemma tunnel_trace_prefix s c peer out :
  Inv env client req Rc Ro s → dialed env client req c peer out →
  mtrace (trace s) `prefix_of` tunnel_full env client req c out.
Proof.
  intros HI [(Hm & Hh & Hra) Hd]. unfold Inv in HI.
  assert (∀ c' peer', hijacked env req c' peer' → c' = c ∧ peer' = peer) as Hpin.
  { intros c' peer' (_ & Hh' & Hra'). split; congruence. }
  assert (∀ c' peer' out', dialed env client req c' peer' out' →
            c' = c ∧ peer' = peer ∧ out' = out) as Hpin'.
  { intros c' peer' out' [Hj Hd']. destruct (Hpin _ _ Hj) as [-> ->].
    repeat split. congruence. }
  assert (∀ o, Final env client req Rc Ro s o →
            mtrace (trace s) `prefix_of` tunnel_full env client req c out) as HF.
  { intros o [? ? ?|? ? ? ?|e' ? ? ? ?|c' ? Hc ? ? ?
             |c' peer' e' ran Hj Hde' Ho Hpre Hran Hcc Hco Hmt
             |c' peer' out' ran Hd' Ho Hmu Hw Ht Hran Hcc Hco Hmt];
      try congruence.
    destruct (Hpin' _ _ _ Hd') as (-> & -> & ->). rewrite Hmt.
    unfold tunnel_full. apply prefix_app.
    destruct (DO_DC_progress _ _ _ _ Hran)
      as [[-> _]|[[-> _]|[[-> _]|[[-> _]|[-> _]]]]]; simpl;
      try apply prefix_nil; try done; by eexists. }
  unfold tunnel_full, tunnel_main.
  destruct (pc s) eqn:Hp; eauto.
  - destruct HI as (Ht & Hw & Htt & Hmu & Hdf & Hcc & Hco & Hmt).
    rewrite Hmt. apply prefix_nil.
  - destruct HI as (_ & Ht & Hw & Htt & Hmu & Hdf & Hcc & Hco & Hmt).
    rewrite Hmt. apply prefix_nil.
  - destruct HI as (_ & Hc & Ht & Hw & Htt & Hmu & Hdf & Hcc & Hco & Hmt).
    assert (clientConn = c) as -> by congruence.
    rewrite Hmt, <- !app_assoc. pfx.
  - destruct HI as (peer' & Hj & Hpre & Hacq & Hmt).
    destruct (Hpin _ _ Hj) as [-> ->]. rewrite Hmt, <- !app_assoc. pfx.
  - destruct HI as (peer' & Hj & Hde & _). congruence.
  - destruct HI as (peer' & Hd' & Hpre & Hacq & Hmt).
    destruct (Hpin' _ _ _ Hd') as (-> & -> & ->).
    rewrite Hmt, <- !app_assoc. pfx.
  - destruct HI as (peer' & Hd' & Hpre & Hacq & Hmt).
    destruct (Hpin' _ _ _ Hd') as (-> & -> & ->).
    rewrite Hmt, <- !app_assoc. pfx.
  - destruct HI as (peer' & Hd' & _ & _ & _ & Hmt).
    destruct (Hpin' _ _ _ Hd') as (-> & -> & ->).
    rewrite Hmt, <- !app_assoc. pfx.
  - destruct HI as (peer' & Hd' & _ & _ & _ & _ & Hmt).
    destruct (Hpin' _ _ _ Hd') as (-> & -> & ->).
    rewrite Hmt, <- !app_assoc. pfx.
  - destruct HI as (peer' & Hd' & _ & _ & _ & _ & Hmt).
    destruct (Hpin' _ _ _ Hd') as (-> & -> & ->).
    rewrite Hmt, <- !app_assoc. pfx.
  - destruct HI. eauto.
Qed.

End Tunnelled.

Lemma past_register_phases p :
  (past_register p = false → out_registered p = false ∧ piping p = false) ∧
  (out_registered p = false → piping p = false) ∧
  (piping p = true → out_registered p = true ∧ past_register p = true).
Proof. by destruct p. Qed.

(** The sibling of the client-side query: a panic of the remote-address
    query of the outbound socket is recovered, the socket is registered
    with an empty peer address and the attempt goes on. *)
Lemma outbound_remote_addr_tolerated env client req Rc Ro s c peer out :
  dialed env client req c peer out → RemoteAddr env out = None →
  reachable env client req Rc Ro s → piping (pc s) = true →
  conns s !! out =
    Some {| hostAddr := addr req; peerAddr := ""; establishedAt := now_out env |}.
Proof.
  intros Hd Hra Hr Hpi. pose proof (Inv_reachable _ _ _ _ _ _ Hr) as HI.
  destruct (tunnel_view env client req Rc Ro s c peer out HI Hd)
    as [Hpr Hpre Hdf Hcc Hco
       |Hpr Hor Hpre (Hdf & Hcc & Hco)
       |_ (Hdf & Hcc & Hco & Hmu)
       |ran o Hp Ho Ht Hran Hcc Hco Hmt].
  - destruct (past_register_phases (pc s)) as (P1 & _). destruct (P1 Hpr). congruence.
  - destruct (past_register_phases (pc s)) as (_ & P2 & _). rewrite (P2 Hor) in Hpi.
    done.
  - rewrite Hco, lookup_insert_eq. unfold metaO. by rewrite Hra.
  - by destruct Hp as [Hp|[Hp _]]; rewrite Hp in Hpi.
Qed.

Example outbound_remote_addr_tolerated_run :
  let s := exec outAddrPanicEnv someClient someReq (mainOnly 6) (initial ∅ ∅) in
  pc s = PcRespondOK clientSock outSock ∧
  peerAddr <$> conns s !! outSock = Some "".
Proof. by split. Qed.

Lemma task_done_closed c out s :
  task_rel c out true s → task s = TNotStarted ∨ task s = TDone →
  closed_by CopyT c (trace s).
Proof.
  unfold task_rel, closed_by. intros Ht [E|E]; rewrite E in Ht; [done|].
  destruct Ht as [_ Ht].
  assert (EvClose CopyT c ∈ ttrace (trace s)) as Hin by (rewrite Ht; in_list).
  by apply elem_of_ttrace in Hin as [? _].
Qed.

(** The registries in an attempt whose hijack and dial succeed. *)
Lemma tunnel_registry_facts env client req Rc Ro s c peer out :
  dialed env client req c peer out →
  reachable env client req Rc Ro s →
  (piping (pc s) = true →
     clientConns s !! c = Some (metaC env req peer) ∧
     conns s !! out = Some (metaO env req out))
  ∧ (∀ k, k ≠ c → clientConns s !! k = Rc !! k)
  ∧ (∀ k, k ≠ out → conns s !! k = Ro !! k)
  ∧ (past_register (pc s) = true → clientConns s !! c = None →
       closed_by MainT c (trace s))
  ∧ (out_registered (pc s) = true → conns s !! out = None →
       closed_by MainT out (trace s))
  ∧ (terminal s →
       pc s = PcFinished Returned ∧
       clientConns s = delete c Rc ∧ conns s = delete out Ro ∧
       closed_by MainT c (trace s) ∧ closed_by MainT out (trace s) ∧
       closed_by CopyT c (trace s))
  ∧ (∃ s', rtc (step env client req) s s' ∧ terminal s').
Proof.
  intros Hd Hr. pose proof (Inv_reachable _ _ _ _ _ _ Hr) as HI.
  split; [|split; [|split; [|split; [|split; [|split]]]]];
    [..|by apply (reachable_terminates env client req Rc Ro)].
  all: destruct (tunnel_view env client req Rc Ro s c peer out HI Hd)
    as [Hpr Hpre Hdf Hcc Hco
       |Hpr Hor Hpre (Hdf & Hcc & Hco)
       |Hpi (Hdf & Hcc & Hco & Hmu)
       |ran o Hp Ho Ht Hran Hcc Hco Hmt].
  all: try (destruct (past_register_phases (pc s)) as (P1 & P2 & P3)).
  (* both registered while piping *)
  - intros Hpi. destruct (P1 Hpr). congruence.
  - intros Hpi. rewrite (P2 Hor) in Hpi. done.
  - intros _. rewrite Hcc, Hco. by rewrite !lookup_insert_eq.
  - intros Hpi. by destruct Hp as [Hp|[Hp _]]; rewrite Hp in Hpi.
  (* the other entries of the client registry *)
  - intros k Hk. by rewrite Hcc.
  - intros k Hk. rewrite Hcc. by apply lookup_insert_ne.
  - intros k Hk. rewrite Hcc. by apply lookup_insert_ne.
  - intros k Hk. rewrite Hcc.
    destruct (DO_DC_progress _ _ _ _ Hran)
      as [[-> _]|[[-> _]|[[-> _]|[[-> _]|[-> _]]]]]; simpl;
      rewrite ?lookup_delete_ne by done; by apply lookup_insert_ne.
  (* the other entries of the outbound registry *)
  - intros k Hk. by rewrite Hco.
  - intros k Hk. by rewrite Hco.
  - intros k Hk. rewrite Hco. by apply lookup_insert_ne.
  - intros k Hk. rewrite Hco.
    destruct (DO_DC_progress _ _ _ _ Hran)
      as [[-> _]|[[-> _]|[[-> _]|[[-> _]|[-> _]]]]]; simpl;
      rewrite ?lookup_delete_ne by done; by apply lookup_insert_ne.
  (* a client socket that left the registry is closed *)
  - congruence.
  - intros _. by rewrite Hcc, lookup_insert_eq.
  - intros _. by rewrite Hcc, lookup_insert_eq.
  - intros _. rewrite Hcc. unfold closed_by.
    destruct (DO_DC_progress _ _ _ _ Hran)
      as [[-> _]|[[-> _]|[[-> _]|[[-> _]|[-> _]]]]]; simpl;
      rewrite ?lookup_insert_eq; try done.
    intros _. apply mtrace_subseteq. rewrite Hmt. simpl. in_list.
  (* an outbound socket that left the registry is closed *)
  - destruct (P1 Hpr). congruence.
  - congruence.
  - intros _. by rewrite Hco, lookup_insert_eq.
  - intros _. rewrite Hco. unfold closed_by.
    destruct (DO_DC_progress _ _ _ _ Hran)
      as [[-> _]|[[-> _]|[[-> _]|[[-> _]|[-> _]]]]]; simpl;
      rewrite ?lookup_insert_eq; try done.
    all: intros _; apply mtrace_subseteq; rewrite Hmt; simpl; in_list.
  (* the end of the attempt *)
  - intros [[o Ho] _]. by rewrite Ho in Hpr.
  - intros [[o Ho] _]. by rewrite Ho in Hor.
  - intros [[o Ho] _]. by rewrite Ho in Hpi.
  - intros [[o' Ho'] Htask].
    destruct Hp as [Hp|[Hp Hdf]]; [congruence|].
    rewrite Hdf, app_nil_r in Hran. subst ran o.
    rewrite Hcc, Hco, Hp. simpl. rewrite !delete_insert_eq.
    repeat split; try done.
    + apply mtrace_subseteq. rewrite Hmt. simpl. in_list.
    + apply mtrace_subseteq. rewrite Hmt. simpl. in_list.
    + by eapply task_done_closed.
Qed.

(** The client registry in an attempt whose dial fails. *)
Lemma dial_failed_registry env client req Rc Ro s c peer e :
  Inv env client req Rc Ro s → hijacked env req c peer →
  dial_result env client req = inr e →
  (∀ k, k ≠ c → clientConns s !! k = Rc !! k) ∧
  (past_register (pc s) = true → clientConns s !! c = None →
   closed_by MainT c (trace s)).
Proof.
  intros HI (Hm & Hh & Hra) Hde. unfold Inv in HI.
  assert (∀ c' peer', hijacked env req c' peer' → c' = c ∧ peer' = peer) as Hpin.
  { intros c' peer' (_ & Hh' & Hra'). split; congruence. }
  assert (∀ c' peer' out, dialed env client req c' peer' out → False) as Hno.
  { intros c' peer' out [_ Hd]. congruence. }
  assert (∀ o, Final env client req Rc Ro s o →
    (∀ k, k ≠ c → clientConns s !! k = Rc !! k) ∧
    (clientConns s !! c = None → closed_by MainT c (trace s))) as HF.
  { intros o [? ? ?|? ? ? ?|e' ? ? ? ?|c' ? Hc ? ? ?
             |c' peer' e' ran Hj Hde' Ho Hpre Hran Hcc Hco Hmt
             |c' peer' out ran Hd]; try congruence.
    - destruct (Hpin _ _ Hj) as [-> ->]. rewrite Hcc. unfold closed_by.
      destruct (DC_progress _ _ _ Hran) as [[-> _]|[[-> _]|[-> _]]]; simpl.
      + split; [intros; by apply lookup_insert_ne|by rewrite lookup_insert_eq].
      + split; [intros; by apply lookup_insert_ne|by rewrite lookup_insert_eq].
      + split.
        * intros k Hk. rewrite lookup_delete_ne by done. by apply lookup_insert_ne.
        * intros _. apply mtrace_subseteq. rewrite Hmt. simpl. in_list.
    - by destruct (Hno _ _ _ Hd). }
  destruct (pc s) eqn:Hp; simpl; eauto.
  - destruct HI as (_ & _ & _ & _ & _ & -> & _). done.
  - destruct HI as (_ & _ & _ & _ & _ & _ & -> & _). done.
  - destruct HI as (_ & _ & _ & _ & _ & _ & _ & -> & _). done.
  - destruct HI as (peer' & Hj & _ & (_ & -> & _) & _).
    destruct (Hpin _ _ Hj) as [-> ->].
    split; [intros; by apply lookup_insert_ne|by rewrite lookup_insert_eq].
  - destruct HI as (peer' & Hj & _ & _ & (_ & -> & _) & _).
    destruct (Hpin _ _ Hj) as [-> ->].
    split; [intros; by apply lookup_insert_ne|by rewrite lookup_insert_eq].
  - destruct HI as (peer' & Hd & _). by destruct (Hno _ _ _ Hd).
  - destruct HI as (peer' & Hd & _). by destruct (Hno _ _ _ Hd).
  - destruct HI as (peer' & Hd & _). by destruct (Hno _ _ _ Hd).
  - destruct HI as (peer' & Hd & _). by destruct (Hno _ _ _ Hd).
  - destruct HI as (peer' & Hd & _). by destruct (Hno _ _ _ Hd).
  - destruct (HF _ HI). auto.
  - destruct HI as [HI _]. destruct (HF _ HI). auto.
Qed.

(** C1, as the code has it.  In an attempt whose hijack succeeds, each
    socket is in its registry from its registration to the delete of
    its deferred cleanup, which comes after the Close of that cleanup:
    a socket that has left its registry has been closed by the cleanup,
    both sockets of a tunnel are registered while [pipeData] runs, they
    are absent and closed when the attempt has ended, and no other
    entry of a registry is touched.  (A socket can be closed and still
    registered: see [registered_after_close].) *)
Theorem tunnel_registries env client req Rc Ro s c peer :
  hijacked env req c peer →
  reachable env client req Rc Ro s →
  (∀ k, k ≠ c → clientConns s !! k = Rc !! k)
  ∧ (past_register (pc s) = true → clientConns s !! c = None →
       closed_by MainT c (trace s))
  ∧ (terminal s →
       pc s = PcFinished Returned ∧ clientConns s = delete c Rc ∧
       closed_by MainT c (trace s))
  ∧ (∀ e, dial_result env client req = inr e → conns s = Ro)
  ∧ (∀ out, dial_result env client req = inl out →
       (piping (pc s) = true →
          clientConns s !! c = Some (metaC env req peer) ∧
          conns s !! out = Some (metaO env req out))
       ∧ (∀ k, k ≠ out → conns s !! k = Ro !! k)
       ∧ (out_registered (pc s) = true → conns s !! out = None →
            closed_by MainT out (trace s))
       ∧ (terminal s →
            conns s = delete out Ro ∧
            closed_by MainT out (trace s) ∧ closed_by CopyT c (trace s)))
  ∧ (∃ s', rtc (step env client req) s s' ∧ terminal s').
Proof.
  intros Hj Hr. pose proof (Inv_reachable _ _ _ _ _ _ Hr) as HI.
  destruct (dial_result env client req) as [out|e] eqn:Hde.
  - assert (dialed env client req c peer out) as Hd by done.
    destruct (tunnel_registry_facts env client req Rc Ro s c peer out Hd Hr)
      as (H1 & H2 & H3 & H4 & H5 & H6 & H7).
    split; [exact H2|]. split; [exact H4|]. split.
    { intros Ht. by destruct (H6 Ht) as (? & ? & ? & ? & ? & ?). }
    split; [by intros e He|]. split; [|exact H7].
    intros out' Hout. assert (out' = out) as -> by congruence.
    split; [exact H1|]. split; [exact H3|]. split; [exact H5|].
    intros Ht. by destruct (H6 Ht) as (? & ? & ? & ? & ? & ?).
  - destruct (dial_failed_states env client req Rc Ro s c peer e HI Hj Hde)
      as (Hpre & Hco & Hpf & Hfin).
    destruct (dial_failed_registry env client req Rc Ro s c peer e HI Hj Hde)
      as (Hfr & Hcl).
    split; [done|]. split; [done|]. split; [|split; [done|split]].
    + intros [[o Ho] _]. destruct (Hfin o Ho) as (-> & Hcc & Htr).
      repeat split; try done.
      unfold closed_by. rewrite Htr. unfold dial_failed_full. in_list.
    + intros out Hout. congruence.
    + by apply (reachable_terminates env client req Rc Ro).
Qed.

Lemma tunnel_registries_witness :
  let s := exec tunnelEnv someClient someReq closeDuringPipe (initial ∅ ∅) in
  let s' := exec tunnelEnv someClient someReq taskEarly (initial ∅ ∅) in
  (is_Some (clientConns s !! clientSock) ∧ is_Some (conns s !! outSock)) ∧
  (clientConns s' = ∅ ∧ conns s' = ∅ ∧ closed_by MainT clientSock (trace s') ∧
   closed_by MainT outSock (trace s')).
Proof.
  intros s s'.
  assert (hijacked tunnelEnv someReq clientSock "10.0.0.7:51000")
    as Hj by (by repeat split).
  destruct (tunnel_registries tunnelEnv someClient someReq ∅ ∅ s clientSock
              "10.0.0.7:51000" Hj (exec_reachable _ _ _ _ _ _))
    as (_ & _ & _ & _ & H1 & _).
  destruct (tunnel_registries tunnelEnv someClient someReq ∅ ∅ s' clientSock
              "10.0.0.7:51000" Hj (exec_reachable _ _ _ _ _ _))
    as (_ & _ & H2 & _ & H3 & _).
  destruct (H1 outSock eq_refl) as (H1' & _).
  destruct (H1' eq_refl) as [Ha Hb].
  assert (terminal s') as Ht by (split; [by eexists|by right]).
  destruct (H2 Ht) as (_ & Hc & Hd).
  destruct (H3 outSock eq_refl) as (_ & _ & _ & H3').
  destruct (H3' Ht) as (He & Hf & _).
  repeat split; try done; by eexists.
Defined.

(** C1, the case the claim misses: the goroutine has closed the client
    socket, its Close has returned, and the socket is still in the
    client registry, where it stays until the copy from the outbound
    socket ends and the deferred cleanup runs. *)
Lemma registered_after_close :
  let s := exec tunnelEnv someClient someReq closeDuringPipe (initial ∅ ∅) in
  reachable tunnelEnv someClient someReq ∅ ∅ s ∧
  pc s = PcCopyBack clientSock outSock ∧ task s = TDone ∧
  closed_by CopyT clientSock (trace s) ∧
  is_Some (clientConns s !! clientSock).
Proof.
  intros s. split; [apply exec_reachable|]. repeat split; try done.
  - unfold closed_by.
    let t := eval vm_compute in (trace s) in change (trace s) with t.
    in_list.
Qed.

(** ** The response and the wait group *)

Ltac nin :=
  repeat first [rewrite not_elem_of_app | rewrite not_elem_of_cons];
  repeat split; try discriminate; try apply not_elem_of_nil; auto.

Lemma count_not_dial_events env client req e :
  is_dial_event e = false → count e (dial_events env client req) = 0%nat.
Proof.
  intros He. unfold dial_events, dial.
  destruct (forceDirect env client); simpl;
    rewrite !count_cons, !bool_decide_false; try done; by intros <-.
Qed.

Lemma not_in_dial_events env client req e :
  is_dial_event e = false → e ∉ dial_events env client req.
Proof.
  intros He Hin. unfold dial_events, dial in Hin.
  destruct (forceDirect env client); simpl in Hin;
    repeat (apply elem_of_cons in Hin as [->|Hin]; [done|]);
    by apply elem_of_nil in Hin.
Qed.

Lemma count_WgDone_respondBadGateway env w m :
  count EvWgDone (respondBadGateway env w m) = 0%nat.
Proof. unfold respondBadGateway. by destruct (write_err env w _). Qed.

Lemma okWrite_not_in_respondBadGateway env w m c ok :
  EvWrite (W_conn c) (StatusResponse StatusOK) ok ∉ respondBadGateway env w m.
Proof.
  unfold respondBadGateway. intros Hin.
  destruct (write_err env w _);
    repeat (apply elem_of_cons in Hin as [Hin|Hin]; [discriminate|]);
    by apply elem_of_nil in Hin.
Qed.

Lemma count_WgDone_pipe_end env c out : count EvWgDone (pipe_end env c out) = 0%nat.
Proof. unfold pipe_end. by destruct (write_err env _ _). Qed.

Lemma okWrite_not_in_pend_closes ds c ok :
  EvWrite (W_conn c) (StatusResponse StatusOK) ok ∉ pend_closes ds.
Proof.
  induction ds as [|[]]; simpl; try done.
  - apply not_elem_of_nil.
  - by apply not_elem_of_cons.
Qed.

Section Signal.

Context (env : Env) (client : Client) (req : Request).
Context (Rc Ro : gmap positive connMeta).

(** The calling context has released the signal once, or not yet; in
    the latter case it is about to, or it has not attempted the
    response. *)
Lemma released_once s :
  Inv env client req Rc Ro s →
  count EvWgDone (trace s) = 1%nat ∨
  (count EvWgDone (trace s) = 0%nat ∧
   ((∃ c out err, pc s = PcWgDone c out err) ∨
    ∀ c ok, EvWrite (W_conn c) (StatusResponse StatusOK) ok ∉ trace s)).
Proof.
  intros HI. rewrite count_split, (count_ttrace EvWgDone) by done.
  rewrite Nat.add_0_r.
  assert (∀ P : Prop,
    (∀ c ok, EvWrite (W_conn c) (StatusResponse StatusOK) ok ∉ mtrace (trace s)) →
    (∀ c ok, EvWrite (W_conn c) (StatusResponse StatusOK) ok ∉ trace s)) as Hm.
  { intros _ H c ok Hin. apply (H c ok). by apply elem_of_mtrace. }
  pose proof (count_not_dial_events env client req EvWgDone eq_refl) as Hcd.
  assert (∀ c ok,
    EvWrite (W_conn c) (StatusResponse StatusOK) ok ∉ dial_events env client req)
    as Hnd by (intros; by apply not_in_dial_events).
  assert (∀ tr, nothing_acquired Rc Ro s false tr ∨ nothing_acquired Rc Ro s true tr →
    count EvWgDone tr = 0%nat →
    (∀ c ok, EvWrite (W_conn c) (StatusResponse StatusOK) ok ∉ tr) →
    count EvWgDone (mtrace (trace s)) = 1%nat ∨
    (count EvWgDone (mtrace (trace s)) = 0%nat ∧
     ((∃ c out err, pc s = PcWgDone c out err) ∨
      ∀ c ok, EvWrite (W_conn c) (StatusResponse StatusOK) ok ∉ trace s))) as Hn.
  { intros tr Hna Hc Hni.
    assert (mtrace (trace s) = tr) as Hmt
      by (destruct Hna as [Hna|Hna]; by destruct Hna as (_&_&_&_&_&_&_&?)).
    right. rewrite Hmt. split; [done|]. right. apply (Hm True). by rewrite Hmt. }
  assert (∀ o, Final env client req Rc Ro s o →
    count EvWgDone (mtrace (trace s)) = 1%nat ∨
    (count EvWgDone (mtrace (trace s)) = 0%nat ∧
     ((∃ c out err, pc s = PcWgDone c out err) ∨
      ∀ c ok, EvWrite (W_conn c) (StatusResponse StatusOK) ok ∉ trace s))) as HF.
  { intros o [? ? Hna|? ? ? Hna|e' ? ? ? Hna|c' ? Hc ? ? Hna
             |c' peer' e' ran Hj Hde' Ho Hpre Hran Hcc Hco Hmt
             |c' peer' out' ran Hd' Ho Hmu Hw Ht Hran Hcc Hco Hmt].
    - eapply Hn; eauto. intros; apply not_elem_of_nil.
    - eapply Hn; eauto. intros; apply not_elem_of_nil.
    - eapply Hn; eauto; [apply count_WgDone_respondBadGateway|].
      intros. apply okWrite_not_in_respondBadGateway.
    - eapply Hn; eauto. intros c ok. nin.
    - right. rewrite Hmt. unfold dial_failed_main.
      rewrite !count_app, Hcd, count_WgDone_respondBadGateway,
        count_pend_closes by done.
      split; [done|]. right. apply (Hm True). intros c ok. rewrite Hmt.
      unfold dial_failed_main. rewrite !not_elem_of_app. repeat split.
      + nin.
      + apply Hnd.
      + apply okWrite_not_in_respondBadGateway.
      + apply okWrite_not_in_pend_closes.
    - left. rewrite Hmt. unfold tunnel_main.
      rewrite !count_app, Hcd, count_WgDone_pipe_end, count_pend_closes by done.
      done. }
  unfold Inv in HI. destruct (pc s) eqn:Hp; eauto.
  - eapply Hn; eauto. intros; apply not_elem_of_nil.
  - destruct HI. eapply Hn; eauto. intros; apply not_elem_of_nil.
  - destruct HI as (_ & _ & HI). eapply Hn; eauto.
    intros c ok. nin.
  - destruct HI as (peer & _ & _ & _ & Hmt). right. rewrite Hmt.
    split; [done|]. right. apply (Hm True). intros c ok. rewrite Hmt.
    nin.
  - destruct HI as (peer & _ & _ & _ & _ & Hmt). right. rewrite Hmt.
    rewrite !count_app, Hcd. split; [done|]. right. apply (Hm True).
    intros c ok. rewrite Hmt, !not_elem_of_app. split; [|apply Hnd].
    nin.
  - destruct HI as (peer & _ & _ & _ & Hmt). right. rewrite Hmt.
    rewrite !count_app, Hcd. split; [done|]. right. apply (Hm True).
    intros c ok. rewrite Hmt, !not_elem_of_app. split; [|apply Hnd].
    nin.
  - destruct HI as (peer & _ & _ & _ & Hmt). right. rewrite Hmt.
    rewrite !count_app, Hcd. split; [done|]. right. apply (Hm True).
    intros c ok. rewrite Hmt, !not_elem_of_app. split; [|apply Hnd].
    nin.
  - destruct HI as (peer & _ & _ & _ & _ & Hmt). right. rewrite Hmt.
    rewrite !count_app, Hcd. split; [done|]. right. apply (Hm True).
    intros c ok. rewrite Hmt, !not_elem_of_app. repeat split; [|apply Hnd|].
    + nin.
    + nin.
  - destruct HI as (peer & _ & _ & _ & _ & _ & Hmt). right. rewrite Hmt.
    rewrite !count_app, Hcd. split; [done|]. left. eauto.
  - destruct HI as (peer & _ & _ & _ & _ & _ & Hmt). left. rewrite Hmt.
    by rewrite !count_app, Hcd.
  - destruct HI. eauto.
Qed.

End Signal.

Section Counters.

Context (env : Env) (client : Client) (req : Request).
Context (Rc Ro : gmap positive connMeta).

Lemma Final_counters s o :
  Final env client req Rc Ro s o →
  wg s = 0 ∧
  (muConns s = true →
   o = Panicked "RemoteAddr" ∧
   ∃ c, hijacker env = Some (inl c) ∧ RemoteAddr env c = None).
Proof.
  intros [? ? Hna|? ? ? Hna|e ? ? ? Hna|c ? Hh Hra ? Hna
         |c peer e ran Hj Hde Ho Hpre Hran Hcc Hco Hmt
         |c peer out ran Hd Ho Hmu Hw Ht Hran Hcc Hco Hmt].
  1-4: destruct Hna as (_ & Hw & _ & Hmu & _).
  1-3: by split; [|rewrite Hmu].
  - split; [done|]. intros _. split; [done|]. by exists c.
  - destruct Hpre as (_ & Hw & _ & Hmu). by split; [|rewrite Hmu].
  - by split; [|rewrite Hmu].
Qed.

Lemma Inv_counters s :
  Inv env client req Rc Ro s →
  (wg s = if wg_held (pc s) then 1 else 0) ∧
  (muConns s = true →
   (pc s = PcUnwind (Panicked "RemoteAddr") ∨
    pc s = PcFinished (Panicked "RemoteAddr")) ∧
   ∃ c, hijacker env = Some (inl c) ∧ RemoteAddr env c = None).
Proof.
  intros HI. unfold Inv in HI.
  destruct (pc s) eqn:Hp.
  all: simpl.
  - destruct HI as (_ & Hw & _ & Hmu & _). by split; [|rewrite Hmu].
  - destruct HI as (_ & _ & Hw & _ & Hmu & _). by split; [|rewrite Hmu].
  - destruct HI as (_ & _ & _ & Hw & _ & Hmu & _). by split; [|rewrite Hmu].
  - destruct HI as (peer & _ & (_ & Hw & _ & Hmu) & _). by split; [|rewrite Hmu].
  - destruct HI as (peer & _ & _ & (_ & Hw & _ & Hmu) & _).
    by split; [|rewrite Hmu].
  - destruct HI as (peer & _ & (_ & Hw & _ & Hmu) & _). by split; [|rewrite Hmu].
  - destruct HI as (peer & _ & (_ & Hw & _ & Hmu) & _). by split; [|rewrite Hmu].
  - destruct HI as (peer & _ & (_ & _ & _ & Hmu) & Hw & _).
    by split; [|rewrite Hmu].
  - destruct HI as (peer & _ & (_ & _ & _ & Hmu) & Hw & _).
    by split; [|rewrite Hmu].
  - destruct HI as (peer & _ & (_ & _ & _ & Hmu) & Hw & _).
    by split; [|rewrite Hmu].
  - destruct (Final_counters s o HI) as [Hw Hmu]. split; [done|].
    intros Hl. destruct (Hmu Hl) as [-> ?]. split; [by left|done].
  - destruct HI as [HI _].
    destruct (Final_counters s o HI) as [Hw Hmu]. split; [done|].
    intros Hl. destruct (Hmu Hl) as [-> ?]. split; [by right|done].
Qed.

End Counters.

Section Released.

Context (env : Env) (client : Client) (req : Request).
Context (Rc Ro : gmap positive connMeta).

(** The goroutine gets past [wg.Wait()] only from the wait, with the
    counter at zero. *)
Lemma step_task_wait s s' :
  step_task s = Some s' →
  ∃ e, trace s' = trace s ++ [e] ∧ is_task_event e = true ∧
       (e = EvWgWait → ∃ c, task s = TWait c ∧ wg s = 0 ∧ task s' = TClose c).
Proof.
  destruct s as [p t w ds mu cc co tr]. unfold step_task. st. intros Hs.
  destruct t; repeat case_match; simplify_eq; st.
  all: eexists; (split; [done|]); (split; [done|]); intros; simplify_eq; eauto.
Qed.

(** When the goroutine waits and the counter is at zero, the calling
    context has released the signal. *)
Lemma Inv_waited s c :
  Inv env client req Rc Ro s → task s = TWait c → wg s = 0 →
  EvWgDone ∈ trace s.
Proof.
  intros HI Ht Hw.
  destruct (Inv_counters env client req Rc Ro s HI) as [Hwg _].
  assert (∀ o, Final env client req Rc Ro s o → EvWgDone ∈ trace s) as HF.
  { intros o [? ? Hna|? ? ? Hna|e ? ? ? Hna|c0 ? ? ? ? Hna
             |c0 peer e ran Hj Hde Ho Hpre Hran Hcc Hco Hmt
             |c0 peer out ran Hd Ho Hmu Hw' Hrel Hran Hcc Hco Hmt].
    1-4: destruct Hna as (Ht' & _); congruence.
    - destruct Hpre as (Ht' & _). congruence.
    - apply mtrace_subseteq. rewrite Hmt. apply elem_of_app. left.
      apply tunnel_main_okWrite. }
  unfold Inv in HI. destruct (pc s) eqn:Hp; simpl in Hwg; try lia.
  - destruct HI as (Ht' & _). congruence.
  - destruct HI as (_ & Ht' & _). congruence.
  - destruct HI as (_ & _ & Ht' & _). congruence.
  - destruct HI as (peer & _ & (Ht' & _) & _). congruence.
  - destruct HI as (peer & _ & _ & (Ht' & _) & _). congruence.
  - destruct HI as (peer & _ & (Ht' & _) & _). congruence.
  - destruct HI as (peer & _ & (Ht' & _) & _). congruence.
  - destruct HI as (peer & _ & _ & _ & _ & _ & Hmt).
    apply mtrace_subseteq. rewrite Hmt. in_list.
  - by eapply HF.
  - destruct HI as [HI _]. by eapply HF.
Qed.

Lemma Waited_step s s' :
  Inv env client req Rc Ro s →
  before (λ e, e = EvWgDone) (λ e, e = EvWgWait) (trace s) →
  step env client req s s' →
  before (λ e, e = EvWgDone) (λ e, e = EvWgWait) (trace s').
Proof.
  intros HI Hb [[] Hs]; simpl in Hs.
  - destruct (step_main_trace _ _ _ _ _ Hs) as (es & -> & Hes & _).
    apply before_extend; [done|]. intros e He ->.
    assert (EvWgWait ∈ ttrace es) as Hin by (by apply elem_of_ttrace).
    rewrite Hes in Hin. by apply elem_of_nil in Hin.
  - destruct (step_task_wait _ _ Hs) as (e & -> & _ & Hwait).
    apply before_snoc; [done|]. intros He.
    destruct (Hwait He) as (c & Ht & Hw & _).
    exists EvWgDone. split; [by eapply Inv_waited|done].
Qed.

Lemma Waited_reachable s :
  reachable env client req Rc Ro s →
  before (λ e, e = EvWgDone) (λ e, e = EvWgWait) (trace s).
Proof.
  unfold reachable. intros Hr.
  eapply (rtc_ind_r (λ z, reachable env client req Rc Ro z ∧
            before (λ e, e = EvWgDone) (λ e, e = EvWgWait) (trace z)));
    [| |exact Hr].
  - split; [apply rtc_refl|apply before_nil].
  - intros y z _ Hyz [Hy Hb]. split; [by eapply rtc_r|].
    eapply Waited_step; eauto. by apply Inv_reachable.
Qed.

(** The end of an attempt that entered [pipeData]. *)
Lemma pipe_terminal s c peer out :
  Inv env client req Rc Ro s → dialed env client req c peer out →
  terminal s →
  task s = TDone ∧ EvWgWait ∈ trace s ∧ closed_by CopyT c (trace s) ∧
  okWrite env c ∈ trace s.
Proof.
  intros HI Hd [[o' Ho'] Htask].
  destruct (tunnel_view env client req Rc Ro s c peer out HI Hd)
    as [Hpr Hpre Hdf Hcc Hco
       |Hpr Hor Hpre (Hdf & Hcc & Hco)
       |Hpi (Hdf & Hcc & Hco & Hmu)
       |ran o Hp Ho Ht Hran Hcc Hco Hmt].
  - by rewrite Ho' in Hpr.
  - by rewrite Ho' in Hor.
  - by rewrite Ho' in Hpi.
  - pose proof (task_done_closed c out s Ht Htask) as Hcl.
    assert (okWrite env c ∈ trace s) as Hok.
    { apply mtrace_subseteq. rewrite Hmt. apply elem_of_app. left.
      apply tunnel_main_okWrite. }
    unfold task_rel in Ht. destruct Htask as [E|E]; rewrite E in Ht; [done|].
    destruct Ht as [_ Htt]. split; [done|]. split; [|done].
    assert (EvWgWait ∈ ttrace (trace s)) as Hin by (rewrite Htt; in_list).
    by apply elem_of_ttrace in Hin as [? _].
Qed.

End Released.

(** C2.  In every trace of an attempt, the goroutine's Close of the
    client socket comes after the write of the 200 response on that
    socket has been attempted, with or without success, and after the
    release of the signal; the calling context releases the signal
    after the attempt, at most once, and exactly once as soon as it is
    past the statement that follows the write, whatever the write
    returned.  The release is the one of the wait group: its counter is
    1 from [wg.Add(1)] to [wg.Done()] and 0 from then on, the goroutine
    gets past [wg.Wait()] only after [wg.Done()], and once the calling
    context is past [wg.Done()] a goroutine that waits goes on to its
    Close; every run can be completed, and at the end of one that
    entered [pipeData] the goroutine has passed the wait and closed
    the client socket, the signal having been released once. *)
Theorem response_before_close env client req Rc Ro s :
  reachable env client req Rc Ro s →
  (∀ c, before (is_okWrite c) (λ e, e = EvClose CopyT c) (trace s))
  ∧ before (λ e, ∃ c, is_okWrite c e) (λ e, e = EvWgDone) (trace s)
  ∧ before (λ e, e = EvWgDone) is_task_close (trace s)
  ∧ (count EvWgDone (trace s) ≤ 1)%nat
  ∧ (∀ c ok, EvWrite (W_conn c) (StatusResponse StatusOK) ok ∈ trace s →
       (∀ c' out err, pc s ≠ PcWgDone c' out err) →
       count EvWgDone (trace s) = 1%nat)
  ∧ wg s = (if wg_held (pc s) then 1 else 0)
  ∧ before (λ e, e = EvWgDone) (λ e, e = EvWgWait) (trace s)
  ∧ (∀ c, task s = TWait c →
       if wg_held (pc s) then step_task s = None
       else ∃ s', step_task s = Some s' ∧ task s' = TClose c ∧
                  trace s' = trace s ++ [EvWgWait])
  ∧ (∀ c peer out, dialed env client req c peer out → terminal s →
       count EvWgDone (trace s) = 1%nat ∧ wg s = 0 ∧
       EvWgWait ∈ trace s ∧ closed_by CopyT c (trace s))
  ∧ (∃ s', rtc (step env client req) s s' ∧ terminal s').
Proof.
  intros Hr. pose proof (Inv_reachable _ _ _ _ _ _ Hr) as HI.
  destruct (Ord_reachable _ _ _ _ _ _ Hr) as (O1 & O2 & O3 & _).
  destruct (Inv_counters env client req Rc Ro s HI) as [Hwg _].
  assert (∀ c ok, EvWrite (W_conn c) (StatusResponse StatusOK) ok ∈ trace s →
            (∀ c' out err, pc s ≠ PcWgDone c' out err) →
            count EvWgDone (trace s) = 1%nat) as Hone.
  { intros c ok Hin Hpc.
    destruct (released_once env client req Rc Ro s HI)
      as [->|[_ [(c' & out & err & Hp)|Hno]]]; [done| |].
    + by destruct (Hpc c' out err).
    + by destruct (Hno c ok). }
  split; [done|split; [done|split; [done|split; [|split; [done|]]]]].
  - destruct (released_once env client req Rc Ro s HI) as [->|[-> _]]; lia.
  - split; [done|]. split; [by apply (Waited_reachable env client req Rc Ro)|].
    split; [|split; [|by apply (reach_terminal env client req Rc Ro)]].
    + intros c Ht. unfold step_task. rewrite Ht, Hwg.
      destruct (wg_held (pc s)); [by rewrite decide_False|].
      rewrite decide_True by done. by eexists.
    + intros c peer out Hd Hterm.
      destruct (pipe_terminal env client req Rc Ro s c peer out HI Hd Hterm)
        as (_ & Hwait & Hcl & Hok).
      destruct Hterm as [[o Ho] _].
      split; [|split; [by rewrite Hwg, Ho|done]].
      apply (Hone c _ Hok). intros c' out' err. by rewrite Ho.
Qed.

Lemma response_before_close_witness :
  let s := exec respondFailEnv someClient someReq taskEarly (initial ∅ ∅) in
  let s' := exec tunnelEnv someClient someReq taskLate (initial ∅ ∅) in
  let w := exec tunnelEnv someClient someReq
             (repeat MainT 7 ++ [CopyT; CopyT]) (initial ∅ ∅) in
  (EvWrite (W_conn clientSock) (StatusResponse StatusOK) false ∈ trace s ∧
   count EvWgDone (trace s) = 1%nat ∧ wg s = 0 ∧ EvWgWait ∈ trace s ∧
   closed_by CopyT clientSock (trace s)) ∧
  (EvWrite (W_conn clientSock) (StatusResponse StatusOK) true ∈ trace s' ∧
   count EvWgDone (trace s') = 1%nat ∧
   before (is_okWrite clientSock) (λ e, e = EvClose CopyT clientSock) (trace s')) ∧
  (task w = TWait clientSock ∧ wg w = 1 ∧ step_task w = None).
Proof.
  intros s s' w.
  destruct (response_before_close respondFailEnv someClient someReq ∅ ∅ s
              (exec_reachable _ _ _ _ _ _))
    as (_ & _ & _ & _ & H1 & _ & _ & _ & H4 & _).
  destruct (response_before_close tunnelEnv someClient someReq ∅ ∅ s'
              (exec_reachable _ _ _ _ _ _)) as (H2 & _ & _ & _ & H3 & _).
  destruct (response_before_close tunnelEnv someClient someReq ∅ ∅ w
              (exec_reachable _ _ _ _ _ _))
    as (_ & _ & _ & _ & _ & H5 & _ & H6 & _).
  assert (EvWrite (W_conn clientSock) (StatusResponse StatusOK) false ∈ trace s)
    as Hin.
  { let t := eval vm_compute in (trace s) in change (trace s) with t. in_list. }
  assert (EvWrite (W_conn clientSock) (StatusResponse StatusOK) true ∈ trace s')
    as Hin'.
  { let t := eval vm_compute in (trace s') in change (trace s') with t. in_list. }
  destruct (H4 clientSock "10.0.0.7:51000" outSock) as (Ha & Hb & Hc & Hd).
  { by repeat split. }
  { split; [by eexists|by right]. }
  split; [by repeat split|].
  split; [split; [done|]; split; [by apply (H3 _ _ Hin')|apply H2]|].
  split; [done|]. split; [exact H5|]. exact (H6 clientSock eq_refl).
Defined.

(** ** Failure of the response write *)

Section RespondFailure.

Context (env : Env) (client : Client) (req : Request).
Context (Rc Ro : gmap positive connMeta).

Lemma tunnel_terminal s c peer out :
  Inv env client req Rc Ro s → dialed env client req c peer out →
  terminal s →
  pc s = PcFinished Returned ∧
  clientConns s = delete c Rc ∧ conns s = delete out Ro ∧
  mtrace (trace s) = tunnel_full env client req c out ∧
  closed_by CopyT c (trace s).
Proof.
  intros HI Hd [[o' Ho'] Htask].
  destruct (tunnel_view env client req Rc Ro s c peer out HI Hd)
    as [Hpr Hpre Hdf Hcc Hco
       |Hpr Hor Hpre (Hdf & Hcc & Hco)
       |Hpi (Hdf & Hcc & Hco & Hmu)
       |ran o Hp Ho Ht Hran Hcc Hco Hmt].
  - by rewrite Ho' in Hpr.
  - by rewrite Ho' in Hor.
  - by rewrite Ho' in Hpi.
  - destruct Hp as [Hp|[Hp Hdf]]; [congruence|].
    rewrite Hdf, app_nil_r in Hran. subst ran o.
    rewrite Hcc, Hco, Hp, Hmt. simpl. rewrite !delete_insert_eq.
    repeat split; try done. by eapply task_done_closed.
Qed.

Lemma tunnel_full_respond_failed c out e :
  write_err env (W_conn c) (StatusResponse StatusOK) = Some e →
  tunnel_full env client req c out =
    [EvHijack c] ++ dial_events env client req ++
    [EvWgAdd; EvWrite (W_conn c) (StatusResponse StatusOK) false; EvWgDone;
     EvLogError ("Unable to respond OK: " +:+ e);
     EvClose MainT out; EvClose MainT c].
Proof.
  intros Hw. unfold tunnel_full, tunnel_main, pipe_end, okWrite. rewrite Hw.
  by rewrite <- !app_assoc.
Qed.

End RespondFailure.

(** C6.  When the write of the 200 response fails, the calling context
    releases the signal, logs the error and leaves [pipeData]: it never
    reaches the copy from the outbound to the client socket.  Every run
    is finite, and at its end the goroutine has closed the client
    socket, after the release of the signal and after the end of its
    own copy, and the deferred cleanups
    have closed both sockets and emptied the registries of them. *)
Theorem respond_failure env client req Rc Ro s c peer out e :
  dialed env client req c peer out →
  write_err env (W_conn c) (StatusResponse StatusOK) = Some e →
  reachable env client req Rc Ro s →
  (∀ c' out', pc s ≠ PcCopyBack c' out')
  ∧ (∀ a b, EvCopyEnd MainT a b ∉ trace s)
  ∧ ((∃ o, pc s = PcUnwind o ∨ pc s = PcFinished o) →
       EvLogError ("Unable to respond OK: " +:+ e) ∈ trace s)
  ∧ before (λ x, x = EvWgDone) is_task_close (trace s)
  ∧ (∀ c', before (is_copied c') (λ x, x = EvClose CopyT c') (trace s))
  ∧ (terminal s →
       pc s = PcFinished Returned ∧
       closed_by CopyT c (trace s) ∧
       closed_by MainT c (trace s) ∧ closed_by MainT out (trace s) ∧
       clientConns s = delete c Rc ∧ conns s = delete out Ro)
  ∧ (∃ s', rtc (step env client req) s s' ∧ terminal s')
  ∧ (∀ n s', nsteps (step env client req) n s s' → (n ≤ measure s)%nat).
Proof.
  intros Hd Hw Hr. pose proof (Inv_reachable _ _ _ _ _ _ Hr) as HI.
  pose proof (tunnel_full_respond_failed env client req c out e Hw) as Hfull.
  split; [|split; [|split; [|split; [|split; [|split]]]]].
  - intros c' out' Hp. unfold Inv in HI. rewrite Hp in HI.
    destruct HI as (peer' & [(_ & Hh' & _) _] & _ & _ & _ & Hw' & _).
    destruct Hd as [(_ & Hh & _) _].
    assert (c' = c) as -> by congruence. congruence.
  - intros a b Hin.
    assert (EvCopyEnd MainT a b ∈ mtrace (trace s)) as Hin'
      by (by apply elem_of_mtrace).
    destruct (tunnel_trace_prefix env client req Rc Ro s c peer out HI Hd) as [k Hk].
    assert (EvCopyEnd MainT a b ∈ tunnel_full env client req c out) as Hf
      by (rewrite Hk; apply elem_of_app; by left).
    cut (EvCopyEnd MainT a b ∉ tunnel_full env client req c out); [by intros Hn|].
    rewrite Hfull. nin. by apply not_in_dial_events.
  - intros (o & Hp).
    destruct (tunnel_view env client req Rc Ro s c peer out HI Hd)
      as [Hpr Hpre Hdf Hcc Hco
         |Hpr Hor Hpre (Hdf & Hcc & Hco)
         |Hpi (Hdf & Hcc & Hco & Hmu)
         |ran o' Hp' Ho Ht Hran Hcc Hco Hmt].
    + by destruct Hp as [Hp|Hp]; rewrite Hp in Hpr.
    + by destruct Hp as [Hp|Hp]; rewrite Hp in Hor.
    + by destruct Hp as [Hp|Hp]; rewrite Hp in Hpi.
    + apply mtrace_subseteq. rewrite Hmt. unfold tunnel_main, pipe_end.
      rewrite Hw. in_list.
  - by destruct (Ord_reachable _ _ _ _ _ _ Hr) as (_ & _ & O3 & _).
  - by destruct (Ord_reachable _ _ _ _ _ _ Hr) as (_ & _ & _ & O4).
  - intros Hterm.
    destruct (tunnel_terminal env client req Rc Ro s c peer out HI Hd Hterm)
      as (Hp & Hcc & Hco & Hmt & Hcl).
    repeat split; try done.
    + apply mtrace_subseteq. rewrite Hmt, Hfull. in_list.
    + apply mtrace_subseteq. rewrite Hmt, Hfull. in_list.
  - by apply (reachable_terminates env client req Rc Ro).
Qed.

Lemma respond_failure_witness :
  let s := exec respondFailEnv someClient someReq taskEarly (initial ∅ ∅) in
  pc s = PcFinished Returned ∧
  closed_by CopyT clientSock (trace s) ∧
  closed_by MainT clientSock (trace s) ∧ closed_by MainT outSock (trace s) ∧
  clientConns s = ∅ ∧ conns s = ∅ ∧
  (∀ a b, EvCopyEnd MainT a b ∉ trace s).
Proof.
  intros s.
  destruct (respond_failure respondFailEnv someClient someReq ∅ ∅ s clientSock
              "10.0.0.7:51000" outSock "broken pipe")
    as (_ & Hnc & _ & _ & _ & Ht & _).
  - by repeat split.
  - reflexivity.
  - apply exec_reachable.
  - destruct Ht as (? & ? & ? & ? & ? & ?); [split; [by eexists|by right]|].
    repeat split; done.
Defined.

(** * The rest of the handler *)

(** ** Requests that are no CONNECT *)

Section NonConnect.

Context (env : Env) (client : Client) (req : Request).
Context (Rc Ro : gmap positive connMeta).

Lemma Final_outcome s o :
  Final env client req Rc Ro s o →
  (o = nonConnectPanic ↔ Method req ≠ httpConnectMethod).
Proof.
  unfold nonConnectPanic.
  intros [Hm -> _|Hm _ -> _|e Hm _ -> _|c Hm _ _ -> _
         |c peer e ran (Hm & _) _ -> |c peer out ran [(Hm & _) _] ->]; split;
    try done; try (by intros ?; simplify_eq).
Qed.

Lemma non_connect_states s :
  Inv env client req Rc Ro s → Method req ≠ httpConnectMethod →
  nothing_acquired Rc Ro s false [] ∧
  (pc s = PcEntry ∨ pc s = PcUnwind nonConnectPanic ∨
   pc s = PcFinished nonConnectPanic).
Proof.
  intros HI Hm. unfold Inv in HI.
  assert (∀ o, Final env client req Rc Ro s o →
            nothing_acquired Rc Ro s false [] ∧ o = nonConnectPanic) as HF.
  { intros o HF. pose proof (Final_outcome s o HF) as [_ Ho].
    split; [|by apply Ho].
    destruct HF as [? ? Hna|Hm'|e Hm'|c Hm'|c peer e ran (Hm' & _)
                   |c peer out ran [(Hm' & _) _]]; done. }
  destruct (pc s) eqn:Hp.
  - split; [done|by left].
  - by destruct HI.
  - by destruct HI.
  - by destruct HI as (peer & (? & _) & _).
  - by destruct HI as (peer & (? & _) & _).
  - by destruct HI as (peer & [(? & _) _] & _).
  - by destruct HI as (peer & [(? & _) _] & _).
  - by destruct HI as (peer & [(? & _) _] & _).
  - by destruct HI as (peer & [(? & _) _] & _).
  - by destruct HI as (peer & [(? & _) _] & _).
  - destruct (HF o HI) as [? ->]. split; [done|]. right. by left.
  - destruct HI as [HI _]. destruct (HF o HI) as [? ->]. split; [done|].
    right. by right.
Qed.

End NonConnect.

(** X1.  [intercept] called on a request that is no CONNECT panics at
    once: in every state of such an attempt nothing has been hijacked,
    written, dialled, registered or deferred, no goroutine runs and the
    lock is free; the attempt ends, and ends with the panic of line 82. *)
Theorem intercept_non_connect env client req Rc Ro s :
  Method req ≠ httpConnectMethod →
  reachable env client req Rc Ro s →
  trace s = [] ∧ clientConns s = Rc ∧ conns s = Ro ∧ defers s = [] ∧
  task s = TNotStarted ∧ muConns s = false
  ∧ (terminal s → pc s = PcFinished nonConnectPanic)
  ∧ (∃ s', rtc (step env client req) s s' ∧ terminal s').
Proof.
  intros Hm Hr. pose proof (Inv_reachable _ _ _ _ _ _ Hr) as HI.
  destruct (non_connect_states env client req Rc Ro s HI Hm)
    as [(Ht & Hw & Htt & Hmu & Hdf & Hcc & Hco & Hmt) Hpc].
  rewrite (mtrace_all _ Htt) in Hmt.
  repeat split; try done.
  - intros [[o Ho] _]. destruct Hpc as [Hp|[Hp|Hp]]; congruence.
  - by apply (reachable_terminates env client req Rc Ro).
Qed.

Lemma intercept_non_connect_witness :
  let s := exec tunnelEnv someClient getReq (mainOnly 3) (initial ∅ ∅) in
  pc s = PcFinished nonConnectPanic ∧ trace s = [] ∧ clientConns s = ∅.
Proof.
  intros s.
  destruct (intercept_non_connect tunnelEnv someClient getReq ∅ ∅ s)
    as (Htr & Hcc & _ & _ & _ & _ & Ht & _).
  - done.
  - apply exec_reachable.
  - split; [|done]. apply Ht. split; [by eexists|by left].
Defined.

Lemma serve_step_intercepting env client req x y :
  serve_step env client req x y →
  ∃ s s', x = Intercepting s ∧ y = Intercepting s' ∧ step env client req s s'.
Proof. destruct x, y; simpl; try done. eauto. Qed.

Lemma serve_exec env client req Rc Ro sched :
  Method req = httpConnectMethod →
  rtc (serve_step env client req) (ServeHTTP req Rc Ro)
    (Intercepting (exec env client req sched (initial Rc Ro))).
Proof.
  intros Hm. unfold ServeHTTP. rewrite decide_True by done.
  generalize (initial Rc Ro). induction sched as [|t l IH]; intros s0; simpl;
    [apply rtc_refl|].
  destruct (step_of env client req t s0) eqn:Hs; [|apply IH].
  eapply rtc_l; [|apply IH]. simpl. by exists t.
Qed.

(** X2.  [ServeHTTP] hands a request to [intercept] exactly when its
    method is CONNECT, and to the reverse proxy otherwise; hence the
    panic with which [intercept] refuses another method never happens
    in a request served through [ServeHTTP], and a request that is no
    CONNECT never enters [intercept]. *)
Theorem ServeHTTP_dispatch env client req Rc Ro x :
  rtc (serve_step env client req) (ServeHTTP req Rc Ro) x →
  match x with
  | Intercepting s =>
      Method req = httpConnectMethod ∧ reachable env client req Rc Ro s ∧
      ∀ o, pc s = PcUnwind o ∨ pc s = PcFinished o → o ≠ nonConnectPanic
  | ReverseProxying =>
      Method req ≠ httpConnectMethod ∧ ServeHTTP req Rc Ro = ReverseProxying
  end.
Proof.
  intros Hr.
  assert (match x with
          | Intercepting s =>
              Method req = httpConnectMethod ∧ reachable env client req Rc Ro s
          | ReverseProxying =>
              Method req ≠ httpConnectMethod ∧ ServeHTTP req Rc Ro = ReverseProxying
          end) as Hx.
  { eapply (rtc_ind_r (λ x, match x with
          | Intercepting s =>
              Method req = httpConnectMethod ∧ reachable env client req Rc Ro s
          | ReverseProxying =>
              Method req ≠ httpConnectMethod ∧ ServeHTTP req Rc Ro = ReverseProxying
          end)); [| |exact Hr].
    - unfold ServeHTTP. destruct (decide (Method req = httpConnectMethod)).
      + split; [done|apply rtc_refl].
      + by split.
    - intros y z _ Hs IH.
      apply serve_step_intercepting in Hs as (s & s' & -> & -> & Hs).
      destruct IH as [Hm IH]. split; [done|]. by eapply rtc_r. }
  destruct x as [s|]; [|done]. destruct Hx as [Hm Hs].
  split; [done|]. split; [done|]. intros o Hp.
  pose proof (Inv_reachable _ _ _ _ _ _ Hs) as HI. unfold Inv in HI.
  assert (Final env client req Rc Ro s o) as HF.
  { destruct Hp as [Hp|Hp]; rewrite Hp in HI; [done|by destruct HI]. }
  intros Ho. apply (Final_outcome env client req Rc Ro s o HF) in Ho. done.
Qed.

Lemma ServeHTTP_dispatch_witness :
  let s := exec noHijackerEnv someClient someReq (mainOnly 4) (initial ∅ ∅) in
  Method someReq = httpConnectMethod ∧
  ∀ o, pc s = PcFinished o → o ≠ nonConnectPanic.
Proof.
  intros s.
  destruct (ServeHTTP_dispatch noHijackerEnv someClient someReq ∅ ∅ (Intercepting s))
    as (Hm & _ & Hp).
  - by apply serve_exec.
  - split; [done|]. intros o Ho. apply Hp. by right.
Defined.

(** ** The wait group and the lock *)

(** X3.  The counter of the wait group of [pipeData] is 1 from
    [wg.Add(1)] to [wg.Done()] and 0 at every other point of an
    attempt: it is never negative, so [wg.Done()] never panics, and
    once the goroutine is past [wg.Wait()] the counter stays at 0. *)
Theorem waitgroup_counter env client req Rc Ro s :
  reachable env client req Rc Ro s →
  (wg s = 0 ∨ wg s = 1)
  ∧ (wg s = 1 ↔ wg_held (pc s) = true)
  ∧ (task s = TDone ∨ (∃ c, task s = TClose c) → wg s = 0).
Proof.
  intros Hr. pose proof (Inv_reachable _ _ _ _ _ _ Hr) as HI.
  destruct (Inv_counters env client req Rc Ro s HI) as [Hw _].
  split; [|split].
  - rewrite Hw. destruct (wg_held (pc s)); auto.
  - rewrite Hw. destruct (wg_held (pc s)); split; try done.
  - intros Ht. rewrite Hw. destruct (wg_held (pc s)) eqn:Hb; [|done]. exfalso.
    unfold Inv in HI. destruct (pc s) eqn:Hp; try done.
    + destruct HI as (peer & _ & _ & _ & Hrel & _). unfold task_rel in Hrel.
      destruct Ht as [Ht|[c' Ht]]; rewrite Ht in Hrel;
        [by destruct Hrel|by destruct Hrel as (_ & ? & _)].
    + destruct HI as (peer & _ & _ & _ & Hrel & _). unfold task_rel in Hrel.
      destruct Ht as [Ht|[c' Ht]]; rewrite Ht in Hrel;
        [by destruct Hrel|by destruct Hrel as (_ & ? & _)].
Qed.

Lemma waitgroup_counter_witness :
  wg (exec tunnelEnv someClient someReq (mainOnly 7) (initial ∅ ∅)) = 1 ∧
  wg (exec tunnelEnv someClient someReq taskLate (initial ∅ ∅)) = 0.
Proof.
  destruct (waitgroup_counter tunnelEnv someClient someReq ∅ ∅
              (exec tunnelEnv someClient someReq (mainOnly 7) (initial ∅ ∅))
              (exec_reachable _ _ _ _ _ _)) as (_ & H1 & _).
  destruct (waitgroup_counter tunnelEnv someClient someReq ∅ ∅
              (exec tunnelEnv someClient someReq taskLate (initial ∅ ∅))
              (exec_reachable _ _ _ _ _ _)) as (_ & _ & H2).
  split; [by apply H1|apply H2; by left].
Defined.

Section Blocking.

Context (env : Env) (client : Client) (req : Request).
Context (Rc Ro : gmap positive connMeta).

(** The calling context never finds the lock taken: this attempt has
    released it after each critical section, and after the one it
    leaves by a panic nothing is deferred that would ask for it. *)
Lemma main_never_blocked s :
  Inv env client req Rc Ro s → step_main env client req s = None →
  ∃ o, pc s = PcFinished o.
Proof.
  intros HI Hs.
  destruct (Inv_counters env client req Rc Ro s HI) as [_ Hmu].
  assert (muConns s = true → defers s = []) as Hdf.
  { intros Hl. destruct (Hmu Hl) as (Hp & c & Hh & Hra).
    unfold Inv in HI.
    assert (∀ o, Final env client req Rc Ro s o → defers s = []) as HF.
    { intros o [? ? Hna|? ? ? Hna|e ? ? ? Hna|c0 ? ? ? ? Hna
               |c0 peer e ran Hj Hde Ho (_ & _ & _ & Hf) _ _ _ _
               |c0 peer out ran Hd Ho Hf _ _ _ _ _ _]; try congruence.
      all: by destruct Hna as (_ & _ & _ & _ & ? & _). }
    destruct Hp as [Hp|Hp]; rewrite Hp in HI; [by eapply HF|].
    destruct HI. by eapply HF. }
  unfold step_main in Hs. destruct (pc s) eqn:Hp; [..|by exists o]; exfalso.
  all: repeat case_match; try done.
  all: first [by destruct (Hmu eq_refl) as [[?|?] _]
             |by specialize (Hdf eq_refl)].
Qed.

(** The goroutine is held up at [wg.Wait()] only, and only while the
    calling context is between [wg.Add(1)] and [wg.Done()]. *)
Lemma task_blocked s :
  Inv env client req Rc Ro s → step_task s = None →
  task s = TNotStarted ∨ task s = TDone ∨
  ∃ c, task s = TWait c ∧ wg_held (pc s) = true.
Proof.
  intros HI Hs.
  destruct (Inv_counters env client req Rc Ro s HI) as [Hwg _].
  unfold step_task in Hs. destruct (task s) eqn:Ht; try done; auto.
  case_decide as Hw; [done|]. do 2 right. exists clientConn. split; [done|].
  destruct (wg_held (pc s)); [done|]. by rewrite Hwg in Hw.
Qed.

End Blocking.

(** X4.  The synchronisation of the handler itself never holds up an
    attempt.  Here every call to a collaborator (the dial, a write,
    [io.Copy], a Close) is a step that returns, and [muConns] is free
    when the attempt starts: what these calls do in time, and what
    other attempts do with the lock, is not the handler's.  Under
    these assumptions the calling context never waits for [muConns],
    which this attempt has released whenever it asks for it again; the
    goroutine waits at [wg.Wait()] only, and only while the calling
    context is between [wg.Add(1)] and [wg.Done()], where the calling
    context can go on; hence a state that is not final has a next
    step, however the two threads are scheduled, a run has 20 steps of
    the handler at most and can always be completed, and no step is
    possible once both threads are finished. *)
Theorem handler_sync_never_blocks env client req Rc Ro s :
  reachable env client req Rc Ro s →
  (step_main env client req s = None → ∃ o, pc s = PcFinished o)
  ∧ (step_task s = None →
       task s = TNotStarted ∨ task s = TDone ∨
       ∃ c, task s = TWait c ∧ wg_held (pc s) = true ∧
            is_Some (step_main env client req s))
  ∧ (terminal s ∨ ∃ s', step env client req s s')
  ∧ (terminal s → ∀ s', ¬ step env client req s s')
  ∧ (∃ s', rtc (step env client req) s s' ∧ terminal s')
  ∧ (∀ n, nsteps (step env client req) n (initial Rc Ro) s → (n ≤ 20)%nat).
Proof.
  intros Hr. pose proof (Inv_reachable _ _ _ _ _ _ Hr) as HI.
  split; [by apply (main_never_blocked env client req Rc Ro)|].
  split; [|split; [by apply (Inv_progress env client req Rc Ro)|split; [|split]]].
  - intros Hs.
    destruct (task_blocked env client req Rc Ro s HI Hs)
      as [?|[?|(c & Ht & Hh)]]; auto.
    do 2 right. exists c. split; [done|]. split; [done|].
    destruct (step_main env client req s) eqn:Hm; [done|].
    destruct (main_never_blocked env client req Rc Ro s HI Hm) as [o Ho].
    by rewrite Ho in Hh.
  - intros [[o Ho] Ht] s' [[] Hs]; simpl in Hs.
    + unfold step_main in Hs. by rewrite Ho in Hs.
    + unfold step_task in Hs. by destruct Ht as [Ht|Ht]; rewrite Ht in Hs.
  - by apply (reach_terminal env client req Rc Ro).
  - intros n Hn. apply nsteps_measure in Hn.
    change (measure (initial Rc Ro)) with 20%nat in Hn. lia.
Qed.

Lemma handler_sync_never_blocks_witness :
  let s := exec tunnelEnv someClient someReq taskEarly (initial ∅ ∅) in
  let w := exec tunnelEnv someClient someReq
             (repeat MainT 7 ++ [CopyT; CopyT]) (initial ∅ ∅) in
  (terminal s ∧ ∀ s', ¬ step tunnelEnv someClient someReq s s') ∧
  (task w = TWait clientSock ∧ wg_held (pc w) = true ∧
   is_Some (step_main tunnelEnv someClient someReq w)).
Proof.
  intros s w.
  destruct (handler_sync_never_blocks tunnelEnv someClient someReq ∅ ∅ s
              (exec_reachable _ _ _ _ _ _)) as (_ & _ & _ & H & _).
  destruct (handler_sync_never_blocks tunnelEnv someClient someReq ∅ ∅ w
              (exec_reachable _ _ _ _ _ _)) as (_ & H2 & _).
  assert (terminal s) as Ht by (split; [by eexists|by right]).
  split; [split; [done|by apply H]|].
  destruct (H2 eq_refl) as [Hn|[Hn|(c & Hc & Hh & Hm)]]; [done..|].
  injection Hc as <-. done.
Defined.

(** ** The end of a tunnel *)

Lemma received_mtrace w tr : received w (mtrace tr) = received w tr.
Proof.
  induction tr as [|e tr IH]; [done|].
  change (e :: tr) with ([e] ++ tr).
  rewrite mtrace_app, !received_app, IH. f_equal.
  by destruct e as [| | | | | | | |[]|[]|].
Qed.

Lemma count_nil e : count e [] = 0%nat.
Proof. done. Qed.

Ltac cnt :=
  repeat first [rewrite count_app | rewrite count_cons | rewrite count_nil];
  rewrite ?count_not_dial_events by done;
  repeat first [rewrite bool_decide_true by done
               | rewrite bool_decide_false by congruence];
  try done.

Section TunnelEnd.

Context (env : Env) (client : Client) (req : Request).
Context (Rc Ro : gmap positive connMeta).

Lemma tunnel_terminal_traces s c peer out :
  Inv env client req Rc Ro s → dialed env client req c peer out →
  terminal s →
  mtrace (trace s) = tunnel_full env client req c out ∧
  ttrace (trace s) = [EvCopyEnd CopyT out c; EvWgWait; EvClose CopyT c] ∧
  task s = TDone.
Proof.
  intros HI Hd [[o' Ho'] Htask].
  destruct (tunnel_view env client req Rc Ro s c peer out HI Hd)
    as [Hpr Hpre Hdf Hcc Hco
       |Hpr Hor Hpre (Hdf & Hcc & Hco)
       |Hpi (Hdf & Hcc & Hco & Hmu)
       |ran o Hp Ho Ht Hran Hcc Hco Hmt].
  - by rewrite Ho' in Hpr.
  - by rewrite Ho' in Hor.
  - by rewrite Ho' in Hpi.
  - destruct Hp as [Hp|[Hp Hdf]]; [congruence|].
    rewrite Hdf, app_nil_r in Hran. subst ran o.
    split; [by rewrite Hmt|].
    unfold task_rel in Ht. destruct Htask as [E|E]; rewrite E in Ht; [done|].
    by destruct Ht.
Qed.

Lemma in_tunnel_full s c peer out e :
  Inv env client req Rc Ro s → dialed env client req c peer out →
  e ∈ trace s → is_task_event e = false →
  e ∈ tunnel_full env client req c out.
Proof.
  intros HI Hd Hin He.
  destruct (tunnel_trace_prefix env client req Rc Ro s c peer out HI Hd) as [k ->].
  apply elem_of_app. left. by apply elem_of_mtrace.
Qed.

Lemma task_rel_prefix c out r s :
  task_rel c out r s →
  ttrace (trace s) `prefix_of` [EvCopyEnd CopyT out c; EvWgWait; EvClose CopyT c].
Proof.
  unfold task_rel. destruct (task s); try done.
  - intros (_ & _ & ->). apply prefix_nil.
  - intros (_ & ->). by eexists.
  - intros (_ & _ & ->). by eexists.
  - intros (_ & ->). by eexists.
Qed.

Lemma task_trace_prefix s c peer out :
  Inv env client req Rc Ro s → dialed env client req c peer out →
  ttrace (trace s) `prefix_of` [EvCopyEnd CopyT out c; EvWgWait; EvClose CopyT c].
Proof.
  intros HI Hd.
  assert (∀ c' peer' out', dialed env client req c' peer' out' →
            c' = c ∧ out' = out) as Hpin.
  { destruct Hd as [(_ & Hh & _) Hdr].
    intros c' peer' out' [(_ & Hh' & _) Hdr']. split; congruence. }
  destruct (tunnel_view env client req Rc Ro s c peer out HI Hd)
    as [Hpr (_ & _ & Htt & _) Hdf Hcc Hco
       |Hpr Hor (_ & _ & Htt & _) _
       |Hpi _
       |ran o Hp Ho Ht Hran Hcc Hco Hmt].
  - rewrite Htt. apply prefix_nil.
  - rewrite Htt. apply prefix_nil.
  - unfold Inv in HI. destruct (pc s) eqn:Hp; try done.
    + destruct HI as (peer' & _ & (_ & _ & Htt & _) & _).
      rewrite Htt. apply prefix_nil.
    + destruct HI as (peer' & Hd' & _ & _ & Hrel & _).
      destruct (Hpin _ _ _ Hd') as [-> ->]. by eapply task_rel_prefix.
    + destruct HI as (peer' & Hd' & _ & _ & Hrel & _).
      destruct (Hpin _ _ _ Hd') as [-> ->]. by eapply task_rel_prefix.
    + destruct HI as (peer' & Hd' & _ & _ & Hrel & _).
      destruct (Hpin _ _ _ Hd') as [-> ->]. by eapply task_rel_prefix.
  - by eapply task_rel_prefix.
Qed.

End TunnelEnd.

(** X5.  At the end of an attempt whose hijack and dial succeed the
    client socket has been closed twice, once by the goroutine of
    [pipeData] and once by the deferred cleanup of [intercept], and the
    outbound socket once, by its deferred cleanup and never by the
    goroutine; the deferred cleanups run last and in the reverse order
    of their registration, the outbound socket first. *)
Theorem tunnel_closes env client req Rc Ro s c peer out :
  dialed env client req c peer out → c ≠ out →
  reachable env client req Rc Ro s → terminal s →
  count (EvClose MainT c) (trace s) = 1%nat
  ∧ count (EvClose CopyT c) (trace s) = 1%nat
  ∧ count (EvClose MainT out) (trace s) = 1%nat
  ∧ count (EvClose CopyT out) (trace s) = 0%nat
  ∧ (∀ t k, k ≠ c → k ≠ out → count (EvClose t k) (trace s) = 0%nat)
  ∧ ∃ tr, mtrace (trace s) = tr ++ [EvClose MainT out; EvClose MainT c].
Proof.
  intros Hd Hne Hr Ht. pose proof (Inv_reachable _ _ _ _ _ _ Hr) as HI.
  destruct (tunnel_terminal_traces env client req Rc Ro s c peer out HI Hd Ht)
    as (Hm & Htt & _).
  rewrite !(count_split _ (trace s)).
  split; [|split; [|split; [|split; [|split]]]].
  6: { rewrite Hm. by eexists. }
  1-4: rewrite Hm, Htt; unfold tunnel_full, tunnel_main, pipe_end, okWrite;
    destruct (write_err env (W_conn c) (StatusResponse StatusOK)); cnt.
  intros t k Hc Ho. rewrite (count_split _ (trace s)), Hm, Htt.
  unfold tunnel_full, tunnel_main, pipe_end, okWrite.
  destruct (write_err env (W_conn c) (StatusResponse StatusOK)); cnt.
Qed.

Lemma tunnel_closes_witness :
  let s := exec tunnelEnv someClient someReq taskEarly (initial ∅ ∅) in
  count (EvClose MainT clientSock) (trace s) = 1%nat ∧
  count (EvClose CopyT clientSock) (trace s) = 1%nat ∧
  count (EvClose MainT outSock) (trace s) = 1%nat.
Proof.
  intros s.
  destruct (tunnel_closes tunnelEnv someClient someReq ∅ ∅ s clientSock
              "10.0.0.7:51000" outSock) as (H1 & H2 & H3 & _).
  - by repeat split.
  - done.
  - apply exec_reachable.
  - split; [by eexists|by right].
  - done.
Defined.

(** X6.  In an attempt whose hijack and dial succeed and in which the
    200 response is written without error, nothing else is ever
    written, on the client socket or on the response writer, and no
    error is logged; at the end the client has received the 200
    response and nothing more from the handler, and each of the two
    copies has run exactly once, the goroutine's from the client to the
    outbound socket and the calling context's the other way. *)
Theorem tunnel_success env client req Rc Ro s c peer out :
  dialed env client req c peer out →
  write_err env (W_conn c) (StatusResponse StatusOK) = None →
  reachable env client req Rc Ro s →
  (∀ m, EvLogError m ∉ trace s)
  ∧ (∀ w x ok, EvWrite w x ok ∈ trace s →
       w = W_conn c ∧ x = StatusResponse StatusOK ∧ ok = true)
  ∧ (∀ t a b, EvCopyEnd t a b ∈ trace s →
       (t = MainT ∧ a = c ∧ b = out) ∨ (t = CopyT ∧ a = out ∧ b = c))
  ∧ (terminal s →
       pc s = PcFinished Returned ∧
       received (W_conn c) (trace s) = [StatusResponse StatusOK] ∧
       received W_resp (trace s) = [] ∧
       count (EvCopyEnd MainT c out) (trace s) = 1%nat ∧
       count (EvCopyEnd CopyT out c) (trace s) = 1%nat).
Proof.
  intros Hd Hw Hr. pose proof (Inv_reachable _ _ _ _ _ _ Hr) as HI.
  assert (tunnel_full env client req c out =
            [EvHijack c] ++ dial_events env client req ++
            [EvWgAdd; EvWrite (W_conn c) (StatusResponse StatusOK) true; EvWgDone;
             EvCopyEnd MainT c out; EvClose MainT out; EvClose MainT c]) as Hfull.
  { unfold tunnel_full, tunnel_main, pipe_end, okWrite. rewrite Hw.
    by rewrite <- !app_assoc. }
  split; [|split; [|split]].
  - intros m Hin.
    apply (in_tunnel_full env client req Rc Ro s c peer out) in Hin; [|done..].
    revert Hin. rewrite Hfull. cut (EvLogError m ∉
      [EvHijack c] ++ dial_events env client req ++
      [EvWgAdd; EvWrite (W_conn c) (StatusResponse StatusOK) true; EvWgDone;
       EvCopyEnd MainT c out; EvClose MainT out; EvClose MainT c]); [by intros Hn|].
    nin. by apply not_in_dial_events.
  - intros w x ok Hin.
    apply (in_tunnel_full env client req Rc Ro s c peer out) in Hin; [|done..].
    rewrite Hfull in Hin.
    apply elem_of_app in Hin as [Hin|Hin];
      [apply elem_of_cons in Hin as [?|Hin]; [done|by apply elem_of_nil in Hin]|].
    apply elem_of_app in Hin as [Hin|Hin];
      [by apply not_in_dial_events in Hin|].
    repeat (apply elem_of_cons in Hin as [?|Hin]; simplify_eq; try done).
    by apply elem_of_nil in Hin.
  - intros t a b Hin. destruct t.
    + apply (in_tunnel_full env client req Rc Ro s c peer out) in Hin; [|done..].
      rewrite Hfull in Hin.
      apply elem_of_app in Hin as [Hin|Hin];
        [apply elem_of_cons in Hin as [?|Hin]; [done|by apply elem_of_nil in Hin]|].
      apply elem_of_app in Hin as [Hin|Hin];
        [by apply not_in_dial_events in Hin|].
      repeat (apply elem_of_cons in Hin as [?|Hin]; simplify_eq; try done);
        [by left|by apply elem_of_nil in Hin].
    + right. split; [done|].
      assert (EvCopyEnd CopyT a b ∈ ttrace (trace s)) as Hin'
        by (by apply elem_of_ttrace).
      destruct (task_trace_prefix env client req Rc Ro s c peer out HI Hd) as [k Hk].
      assert (EvCopyEnd CopyT a b ∈
                [EvCopyEnd CopyT out c; EvWgWait; EvClose CopyT c]) as Hin2
        by (rewrite Hk; apply elem_of_app; by left).
      repeat (apply elem_of_cons in Hin2 as [?|Hin2]; simplify_eq; try done).
      by apply elem_of_nil in Hin2.
  - intros Ht.
    destruct (tunnel_terminal_traces env client req Rc Ro s c peer out HI Hd Ht)
      as (Hm & Htt & _).
    destruct (tunnel_terminal env client req Rc Ro s c peer out HI Hd Ht)
      as (Hp & _).
    split; [done|].
    rewrite <- !(received_mtrace _ (trace s)), !(count_split _ (trace s)), Hm, Htt.
    rewrite Hfull, !received_app, !received_dial_events.
    split; [|split; [|split]].
    + simpl. by rewrite decide_True.
    + done.
    + cnt.
    + cnt.
Qed.

Lemma tunnel_success_witness :
  let s := exec tunnelEnv someClient someReq taskLate (initial ∅ ∅) in
  received (W_conn clientSock) (trace s) = [StatusResponse StatusOK] ∧
  count (EvCopyEnd MainT clientSock outSock) (trace s) = 1%nat ∧
  count (EvCopyEnd CopyT outSock clientSock) (trace s) = 1%nat ∧
  ∀ m, EvLogError m ∉ trace s.
Proof.
  intros s.
  destruct (tunnel_success tunnelEnv someClient someReq ∅ ∅ s clientSock
              "10.0.0.7:51000" outSock) as (H1 & _ & _ & H2).
  - by repeat split.
  - done.
  - apply exec_reachable.
  - destruct H2 as (_ & ? & _ & ? & ?); [split; [by eexists|by right]|].
    done.
Defined.


(** ** The reporter *)

Lemma level_of_Sub t u :
  level_of (time.Sub t u) = LvDebug ↔ t - u > 600000000000.
Proof.
  unfold level_of, time.Sub.
  destruct (Z.ltb_spec (t - u) time.minDuration) as [H1|H1];
    [|destruct (Z.gtb_spec (t - u) time.maxDuration) as [H2|H2]].
  all: match goal with |- context [?a >? ?b] => destruct (Z.gtb_spec a b) as [H3|H3] end.
  all: unfold time.minDuration, time.maxDuration, time.Minute, time.Second in *.
  all: change (2 ^ 63) with 9223372036854775808 in *.
  all: split; intros; try done; lia.
Qed.

Lemma level_of_decide t u :
  level_of (time.Sub t u) =
    if decide (t - u > 600000000000) then LvDebug else LvTrace.
Proof.
  pose proof (level_of_Sub t u) as H. case_decide as Hd.
  - by apply H.
  - destruct (level_of (time.Sub t u)); [|done]. destruct Hd. by apply H.
Qed.

Lemma tick_Reports now s logs : tick now s = Some logs → Reports now s logs.
Proof.
  unfold tick, Reports. destruct (muConns s); [done|]. intros [= <-].
  split; [done|]. by eexists _, _.
Qed.

Lemma Reports_unlocked now s :
  muConns s = false → ∃ logs, tick now s = Some logs ∧ Reports now s logs.
Proof.
  intros Hmu. unfold tick. rewrite Hmu. eexists. split; [done|].
  apply tick_Reports. unfold tick. by rewrite Hmu.
Qed.

Lemma Reports_conn now s logs k m :
  Reports now s logs → conns s !! k = Some m → report_conn now m ∈ logs.
Proof.
  intros (_ & co & cl & Hco & _ & ->) Hk. unfold report.
  apply elem_of_app. left. apply list_elem_of_fmap. exists (k, m).
  split; [done|]. rewrite Hco. by apply elem_of_map_to_list.
Qed.

Lemma Reports_client now s logs k m :
  Reports now s logs → clientConns s !! k = Some m → report_client now m ∈ logs.
Proof.
  intros (_ & co & cl & _ & Hcl & ->) Hk. unfold report.
  apply elem_of_app. right. apply elem_of_cons. right.
  apply elem_of_app. left. apply list_elem_of_fmap. exists (k, m).
  split; [done|]. rewrite Hcl. by apply elem_of_map_to_list.
Qed.

Lemma Reports_inv now s logs l :
  Reports now s logs → l ∈ logs →
  (∃ k m, conns s !! k = Some m ∧ l = report_conn now m) ∨
  l = (LvDebug, ConnectionsTotal (Z.of_nat (size (conns s)))) ∨
  (∃ k m, clientConns s !! k = Some m ∧ l = report_client now m) ∨
  l = (LvDebug, ClientConnectionsTotal (Z.of_nat (size (clientConns s)))).
Proof.
  intros (_ & co & cl & Hco & Hcl & ->) Hin. unfold report in Hin.
  apply elem_of_app in Hin as [Hin|Hin].
  { left. apply list_elem_of_fmap in Hin as ([k m] & -> & Hin).
    rewrite Hco in Hin. apply elem_of_map_to_list in Hin. by exists k, m. }
  apply elem_of_cons in Hin as [->|Hin]; [right; by left|].
  apply elem_of_app in Hin as [Hin|Hin].
  { right. right. left. apply list_elem_of_fmap in Hin as ([k m] & -> & Hin).
    rewrite Hcl in Hin. apply elem_of_map_to_list in Hin. by exists k, m. }
  apply elem_of_cons in Hin as [->|Hin]; [by repeat right|].
  by apply elem_of_nil in Hin.
Qed.

(** X7.  What one tick of the reporter of [init] logs, in whatever
    order [range] visits the registries: one line for each entry of
    each registry, with the host and peer address of the entry and the
    time since it was established, at the debug level exactly when that
    time is more than ten minutes (ten minutes sharp is traced), and
    after the lines of each registry the number of its entries, at the
    debug level; nothing else. *)
Theorem report_lines now s logs :
  Reports now s logs →
  length logs = (size (conns s) + size (clientConns s) + 2)%nat
  ∧ (∀ k m, conns s !! k = Some m →
       (if decide (now - establishedAt m > 600000000000) then LvDebug else LvTrace,
        Connection (hostAddr m) (peerAddr m) (time.Sub now (establishedAt m)))
       ∈ logs)
  ∧ (∀ k m, clientConns s !! k = Some m →
       (if decide (now - establishedAt m > 600000000000) then LvDebug else LvTrace,
        ClientConnection (hostAddr m) (peerAddr m) (time.Sub now (establishedAt m)))
       ∈ logs)
  ∧ (∀ lvl h p d, (lvl, Connection h p d) ∈ logs →
       ∃ k m, conns s !! k = Some m ∧ h = hostAddr m ∧ p = peerAddr m ∧
              d = time.Sub now (establishedAt m) ∧
              (lvl = LvDebug ↔ now - establishedAt m > 600000000000))
  ∧ (∀ lvl h p d, (lvl, ClientConnection h p d) ∈ logs →
       ∃ k m, clientConns s !! k = Some m ∧ h = hostAddr m ∧ p = peerAddr m ∧
              d = time.Sub now (establishedAt m) ∧
              (lvl = LvDebug ↔ now - establishedAt m > 600000000000))
  ∧ (∀ lvl n, (lvl, ConnectionsTotal n) ∈ logs →
       lvl = LvDebug ∧ n = Z.of_nat (size (conns s)))
  ∧ (∀ lvl n, (lvl, ClientConnectionsTotal n) ∈ logs →
       lvl = LvDebug ∧ n = Z.of_nat (size (clientConns s)))
  ∧ (LvDebug, ConnectionsTotal (Z.of_nat (size (conns s)))) ∈ logs
  ∧ last logs =
      Some (LvDebug, ClientConnectionsTotal (Z.of_nat (size (clientConns s)))).
Proof.
  intros HR.
  split; [|split; [|split; [|split; [|split; [|split; [|split; [|split]]]]]]].
  - destruct HR as (_ & co & cl & Hco & Hcl & ->). unfold report.
    rewrite !length_app, !length_fmap, Hco, Hcl, !length_map_to_list. simpl. lia.
  - intros k m Hk. rewrite <- level_of_decide.
    by apply (Reports_conn now s logs k m).
  - intros k m Hk. rewrite <- level_of_decide.
    by apply (Reports_client now s logs k m).
  - intros lvl h p d Hin.
    destruct (Reports_inv now s logs _ HR Hin)
      as [(k & m & Hk & E)|[E|[(k & m & Hk & E)|E]]]; try done.
    unfold report_conn in E. injection E as -> -> -> ->.
    exists k, m. repeat split; try done; by apply level_of_Sub.
  - intros lvl h p d Hin.
    destruct (Reports_inv now s logs _ HR Hin)
      as [(k & m & Hk & E)|[E|[(k & m & Hk & E)|E]]]; try done.
    unfold report_client in E. injection E as -> -> -> ->.
    exists k, m. repeat split; try done; by apply level_of_Sub.
  - intros lvl n Hin.
    destruct (Reports_inv now s logs _ HR Hin)
      as [(k & m & Hk & E)|[E|[(k & m & Hk & E)|E]]]; try done.
    by injection E as -> ->.
  - intros lvl n Hin.
    destruct (Reports_inv now s logs _ HR Hin)
      as [(k & m & Hk & E)|[E|[(k & m & Hk & E)|E]]]; try done.
    by injection E as -> ->.
  - destruct HR as (_ & co & cl & Hco & Hcl & ->). unfold report.
    apply elem_of_app. right. apply elem_of_cons. by left.
  - destruct HR as (_ & co & cl & Hco & Hcl & ->). unfold report.
    rewrite !app_assoc. apply last_snoc.
Qed.

Lemma report_lines_witness :
  let s := exec tunnelEnv someClient someReq (mainOnly 7) (initial ∅ {[7%positive := longLived]}) in
  ∃ logs, tick 600000001001 s = Some logs ∧ length logs = 5%nat ∧
    (LvDebug, Connection "example.com:443" "93.184.216.34:443" 600000001001) ∈ logs ∧
    (LvTrace, Connection "example.com:443" "93.184.216.34:443" 600000000000) ∈ logs ∧
    (LvDebug, ClientConnection "example.com" "10.0.0.7:51000" 600000000001) ∈ logs.
Proof.
  intros s.
  destruct (Reports_unlocked 600000001001 s eq_refl) as (logs & Ht & HR).
  exists logs. split; [done|].
  destruct (report_lines 600000001001 s logs HR) as (H1 & H2 & H3 & _).
  split; [exact H1|]. split; [|split].
  - apply (H2 7%positive longLived). reflexivity.
  - apply (H2 outSock (metaO tunnelEnv someReq outSock)). reflexivity.
  - apply (H3 clientSock (metaC tunnelEnv someReq "10.0.0.7:51000")). reflexivity.
Defined.

Section ReporterAndAttempt.

Context (env : Env) (client : Client) (req : Request).
Context (Rc Ro : gmap positive connMeta).

Lemma addr_panic_locked s c :
  Inv env client req Rc Ro s → Method req = httpConnectMethod →
  hijacker env = Some (inl c) → RemoteAddr env c = None →
  unwinding (pc s) = true → muConns s = true.
Proof.
  intros HI Hm Hh Hra Hu. unfold Inv in HI.
  assert (∀ o, Final env client req Rc Ro s o → muConns s = true) as HF.
  { intros o [? ? ?|? ? ? ?|e' ? ? ? ?|c' ? Hc ? ? Hna
             |c' peer' e' ran (_ & Hh' & Hra') |c' peer' out ran [(_ & Hh' & Hra') _]];
      try congruence.
    by destruct Hna as (_ & _ & _ & ? & _). }
  destruct (pc s); try done; [by eapply HF|]. destruct HI. by eapply HF.
Qed.

Lemma unwinding_step s s' :
  step env client req s s' → unwinding (pc s) = true → unwinding (pc s') = true.
Proof.
  intros [[] Hs] Hu; simpl in Hs.
  - unfold step_main in Hs. destruct (pc s) eqn:Hp; try done.
    destruct (defers s) as [|[] ?]; try case_match; simplify_eq; simpl;
      by rewrite ?Hp.
  - by destruct (step_task_main_fields s s' Hs) as (-> & _).
Qed.

Lemma unwinding_rtc s s' :
  rtc (step env client req) s s' → unwinding (pc s) = true →
  unwinding (pc s') = true.
Proof. induction 1; eauto using unwinding_step. Qed.

End ReporterAndAttempt.

(** X8.  An attempt never keeps the reporter of [init] waiting, unless
    the remote-address query of the hijacked socket panics: in every
    state between two steps of the attempt the lock of the registries
    is free, every critical section of [intercept] having released it,
    and a tick of the reporter goes through. *)
Theorem reporter_not_starved env client req Rc Ro s now :
  (∀ c, hijacker env = Some (inl c) → RemoteAddr env c ≠ None) →
  reachable env client req Rc Ro s →
  muConns s = false ∧ ∃ logs, tick now s = Some logs ∧ Reports now s logs.
Proof.
  intros Hra Hr. pose proof (Inv_reachable _ _ _ _ _ _ Hr) as HI.
  destruct (Inv_counters env client req Rc Ro s HI) as [_ Hmu].
  assert (muConns s = false) as Hf.
  { destruct (muConns s); [|done].
    destruct (Hmu eq_refl) as (_ & c & Hh & Hn). by destruct (Hra c Hh). }
  split; [done|]. by apply Reports_unlocked.
Qed.

Lemma reporter_not_starved_witness :
  let s := exec tunnelEnv someClient someReq closeDuringPipe (initial ∅ ∅) in
  ∃ logs, tick 5000 s = Some logs ∧ length logs = 4%nat.
Proof.
  intros s.
  destruct (reporter_not_starved tunnelEnv someClient someReq ∅ ∅ s 5000)
    as (_ & logs & Ht & HR).
  - intros c [= <-]. done.
  - apply exec_reachable.
  - exists logs. split; [done|]. by injection Ht as <-.
Defined.

(** X9.  When the remote-address query of the hijacked client socket
    panics, the panic leaves [intercept] between [muConns.Lock()] and
    [muConns.Unlock()]: from then on the lock is held in every state,
    no tick of the reporter of [init] ever gets the read lock again,
    and nothing is left in the attempt that could release it. *)
Theorem reporter_starved_after_panic env client req Rc Ro s c :
  Method req = httpConnectMethod →
  hijacker env = Some (inl c) → RemoteAddr env c = None →
  reachable env client req Rc Ro s →
  unwinding (pc s) = true →
  ∀ s', rtc (step env client req) s s' →
    muConns s' = true ∧ defers s' = [] ∧
    ∀ now, tick now s' = None ∧ ∀ logs, ¬ Reports now s' logs.
Proof.
  intros Hm Hh Hra Hr Hu s' Hs.
  assert (reachable env client req Rc Ro s') as Hr'
    by (unfold reachable in *; by etrans).
  pose proof (Inv_reachable _ _ _ _ _ _ Hr') as HI.
  pose proof (unwinding_rtc env client req s s' Hs Hu) as Hu'.
  pose proof (addr_panic_locked env client req Rc Ro s' c HI Hm Hh Hra Hu') as Hl.
  destruct (addr_panic_states env client req Rc Ro s' c HI Hm Hh Hra)
    as (lock & tr & (_ & _ & _ & _ & Hdf & _) & _).
  split; [done|]. split; [done|]. intros now. split.
  - unfold tick. by rewrite Hl.
  - intros logs [Hf _]. congruence.
Qed.

Lemma reporter_starved_after_panic_witness :
  let s := exec clientAddrPanicEnv someClient someReq (mainOnly 5) (initial ∅ ∅) in
  pc s = PcFinished (Panicked "RemoteAddr") ∧ tick 5000 s = None.
Proof.
  intros s. split; [done|].
  destruct (reporter_starved_after_panic clientAddrPanicEnv someClient someReq ∅ ∅
              (exec clientAddrPanicEnv someClient someReq (mainOnly 3) (initial ∅ ∅))
              clientSock eq_refl eq_refl eq_refl (exec_reachable _ _ _ _ _ _) eq_refl
              s) as (_ & _ & H).
  - apply (exec_steps _ _ _ (mainOnly 2)).
  - apply H.
Defined.

(** X10.  A tick of the reporter that falls while [pipeData] runs
    reports the tunnel: it gets the lock, and whatever the order of
    visit it logs the outbound connection with the address that was
    dialled and the remote address of the outbound socket, empty when
    the query panicked, and the client connection with the host of the
    request as it came and the remote address of the client socket. *)
Theorem tunnel_reported env client req Rc Ro s c peer out now :
  dialed env client req c peer out →
  reachable env client req Rc Ro s → piping (pc s) = true →
  (∃ logs, tick now s = Some logs) ∧
  ∀ logs, Reports now s logs →
    (if decide (now - now_out env > 600000000000) then LvDebug else LvTrace,
     Connection (hostIncludingPort req 443) (default "" (RemoteAddr env out))
       (time.Sub now (now_out env))) ∈ logs ∧
    (if decide (now - now_client env > 600000000000) then LvDebug else LvTrace,
     ClientConnection (Host req) peer (time.Sub now (now_client env))) ∈ logs.
Proof.
  intros Hd Hr Hpi. pose proof (Inv_reachable _ _ _ _ _ _ Hr) as HI.
  destruct (tunnel_view env client req Rc Ro s c peer out HI Hd)
    as [Hpr Hpre Hdf Hcc Hco
       |Hpr Hor Hpre (Hdf & Hcc & Hco)
       |_ (Hdf & Hcc & Hco & Hmu)
       |ran o Hp Ho Ht Hran Hcc Hco Hmt].
  - destruct (past_register_phases (pc s)) as (P1 & _). destruct (P1 Hpr). congruence.
  - destruct (past_register_phases (pc s)) as (_ & P2 & _). rewrite (P2 Hor) in Hpi.
    done.
  - split.
    { destruct (Reports_unlocked now s Hmu) as (logs & ? & _). by exists logs. }
    intros logs HR. rewrite <- !level_of_decide. split.
    + apply (Reports_conn now s logs out (metaO env req out) HR).
      by rewrite Hco, lookup_insert_eq.
    + apply (Reports_client now s logs c (metaC env req peer) HR).
      by rewrite Hcc, lookup_insert_eq.
  - by destruct Hp as [Hp|[Hp _]]; rewrite Hp in Hpi.
Qed.

Lemma tunnel_reported_witness :
  let s := exec outAddrPanicEnv someClient someReq (mainOnly 7) (initial ∅ ∅) in
  ∃ logs, tick 5000 s = Some logs ∧
    (LvTrace, Connection "example.com:443" "" 3999) ∈ logs ∧
    (LvTrace, ClientConnection "example.com" "10.0.0.7:51000" 4000) ∈ logs.
Proof.
  intros s.
  destruct (tunnel_reported outAddrPanicEnv someClient someReq ∅ ∅ s clientSock
              "10.0.0.7:51000" outSock 5000) as ((logs & Ht) & H).
  - by repeat split.
  - apply exec_reachable.
  - done.
  - exists logs. split; [done|]. apply H. by apply tick_Reports.
Defined.

(** ** The address that is dialled *)

Section AddressFacts.

Import GoString.

Lemma last_neg_has s c : last s c < 0 → net.has s c = false.
Proof.
  induction s as [|a s IH]; [done|]. simpl. rewrite has_cons.
  destruct (Z.leb_spec 0 (last s c)); [lia|].
  destruct (Ascii.eqb a c); [lia|]. intros _. by apply IH.
Qed.

Lemma last_range s c : -1 ≤ last s c.
Proof.
  induction s as [|a s IH]; simpl; [lia|].
  destruct (Z.leb_spec 0 (last s c)); [lia|]. destruct (Ascii.eqb a c); lia.
Qed.

(** The text splits at the last [c]. *)
Lemma last_decompose s c :
  0 ≤ last s c →
  ∃ a b, s = a +:+ String c b ∧ last s c = len a ∧ net.has b c = false.
Proof.
  induction s as [|x s IH]; simpl; [lia|].
  destruct (Z.leb_spec 0 (last s c)) as [Hr|Hr].
  - intros _. destruct (IH Hr) as (a & b & -> & Hl & Hb).
    exists (String x a), b. rewrite sapp_cons. split; [done|]. split; [|done].
    rewrite Hl. unfold len. cbn [String.length]. lia.
  - destruct (Ascii.eqb_spec x c) as [->|]; [|lia]. intros _.
    exists "", s. split; [done|]. split; [done|]. by apply last_neg_has.
Qed.

Lemma slice_from_last a b c :
  slice_from (a +:+ String c b) (len a + 1) = b.
Proof.
  change (String c b) with (String c "" +:+ b).
  rewrite sapp_assoc.
  assert (len a + 1 = len (a +:+ String c "")) as -> by (by rewrite len_app).
  apply slice_from_app.
Qed.

(** What a split that succeeds returns as the port: the text after the
    last colon. *)
Lemma SplitHostPort_port hp h p :
  net.SplitHostPort hp = inl (h, p) →
  ∃ a, hp = a +:+ ":" +:+ p ∧ net.has p ":" = false.
Proof.
  intros Hs.
  assert (0 ≤ last hp ":" ∧ p = slice_from hp (last hp ":" + 1)) as [Hl ->].
  { unfold net.SplitHostPort in Hs.
    destruct (Z.ltb_spec (last hp ":") 0); [done|]. split; [done|].
    repeat case_match; by simplify_eq. }
  destruct (last_decompose hp ":" Hl) as (a & b & E & Hla & Hb).
  exists a. rewrite Hla. subst hp. by rewrite slice_from_last.
Qed.

Lemma uint_plain d c :
  strconv.digit_of c = None → net.has (NilEmpty.string_of_uint d) c = false.
Proof.
  intros Hc. induction d; simpl; [done|..]; rewrite has_cons, IHd, orb_false_r;
    match goal with
    | |- Ascii.eqb ?x c = false =>
        destruct (Ascii.eqb_spec x c) as [E|]; [subst c; by vm_compute in Hc|done]
    end.
Qed.

Lemma Itoa_plain n c :
  strconv.digit_of c = None → c ≠ "-"%char →
  strconv.Itoa n ≠ "" ∧ net.has (strconv.Itoa n) c = false.
Proof.
  intros Hc Hm. unfold strconv.Itoa.
  assert (∀ d, NilZero.string_of_uint d ≠ "" ∧
               net.has (NilZero.string_of_uint d) c = false) as Hu.
  { intros d. split; [by destruct d|].
    destruct d; try apply (uint_plain _ c Hc).
    simpl. rewrite has_cons.
    destruct (Ascii.eqb_spec "0" c) as [E|]; [subst c; by vm_compute in Hc|done]. }
  destruct (Z.to_int n) as [d|d]; simpl; [apply Hu|].
  split; [done|]. rewrite has_cons. destruct (Hu d) as [_ ->].
  by destruct (Ascii.eqb_spec "-" c) as [<-|].
Qed.

Lemma sapp_longer (s t : string) : t ≠ "" → s +:+ t ≠ s.
Proof.
  intros Ht E. apply (f_equal String.length) in E. rewrite length_sapp in E.
  destruct t; [done|]. simpl in E. lia.
Qed.

End AddressFacts.

(** X11.  The address that [hostIncludingPort] returns always ends with
    a colon followed by a port text that is not empty and has no colon,
    whatever the host of the request and the default port: either the
    host is returned as it is, exactly when [net.SplitHostPort] splits
    it into a host and a port that is not empty, or the default port is
    appended to it. *)
Theorem hostIncludingPort_has_port (req : Request) (dp : Z) :
  (∃ h p, hostIncludingPort req dp = h +:+ ":" +:+ p ∧ p ≠ "" ∧
          net.has p ":" = false)
  ∧ (hostIncludingPort req dp = Host req ↔
     ∃ h p, net.SplitHostPort (Host req) = inl (h, p) ∧ p ≠ "")
  ∧ (hostIncludingPort req dp ≠ Host req →
     hostIncludingPort req dp = Host req +:+ ":" +:+ strconv.Itoa dp).
Proof.
  destruct (Itoa_plain dp ":") as [Hne Hpl]; [done..|].
  assert (Host req +:+ ":" +:+ strconv.Itoa dp ≠ Host req) as Hlong.
  { apply sapp_longer. by destruct (strconv.Itoa dp). }
  unfold hostIncludingPort.
  destruct (net.SplitHostPort (Host req)) as [[h p]|e] eqn:Hs.
  - destruct (decide (p = "")) as [->|Hp].
    + split; [by exists (Host req), (strconv.Itoa dp)|]. split; [|done].
      split; [done|]. intros (h' & p' & [= _ <-] & Hp'). done.
    + split; [|split; [|done]].
      * destruct (SplitHostPort_port _ _ _ Hs) as (a & E & Hc).
        exists a, p. by rewrite <- E.
      * split; [|done]. intros _. by exists h, p.
  - split; [by exists (Host req), (strconv.Itoa dp)|]. split; [|done].
    split; [done|]. by intros (h' & p' & [=] & _).
Qed.

(** ** The texts that the QoS resolver takes for a number *)

Section AtoiFacts.

Import strconv.

Lemma digit_of_range ch d : digit_of ch = Some d → 0 ≤ d ≤ 9.
Proof.
  unfold digit_of. case_match eqn:E; [|done]. intros [= <-].
  apply andb_true_iff in E as [?%Z.leb_le ?%Z.leb_le]. lia.
Qed.

Lemma parse_digits_inl s n m :
  0 ≤ n → parse_digits s n = inl m → n ≤ m ∧ all_digits s = true.
Proof.
  revert n. induction s as [|ch s IH]; intros n Hn; simpl.
  - intros [= <-]. split; [lia|done].
  - destruct (digit_of ch) as [d|] eqn:Hd; [|done].
    apply digit_of_range in Hd as Hr.
    repeat case_match; try done. intros Hp.
    apply IH in Hp as [? ->]; [|lia].
    split; [lia|]. rewrite andb_true_r. apply bool_decide_eq_true. by eexists.
Qed.

Lemma parse_digits_all_digits s n :
  all_digits s = true → parse_digits s n ≠ inr ErrSyntax.
Proof.
  revert n. induction s as [|ch s IH]; intros n; simpl; [done|].
  intros [Hd Hs]%andb_true_iff. apply bool_decide_eq_true in Hd as [d ->].
  repeat case_match; try done. by apply IH.
Qed.

Lemma ParseUint_inl s m :
  ParseUint s = inl m → 0 ≤ m ∧ s ≠ "" ∧ all_digits s = true.
Proof.
  unfold ParseUint. destruct s as [|ch s]; [done|]. intros Hp.
  apply parse_digits_inl in Hp as [? ?]; done.
Qed.

Lemma Atoi_inl s n :
  Atoi s = inl n → signed_decimal s = true ∧ - 2 ^ 63 ≤ n < 2 ^ 63.
Proof.
  unfold Atoi, ParseInt, signed_decimal. destruct s as [|c rest]; [done|].
  change (intSize - 1) with 63. cbv zeta.
  destruct (ParseUint (if Ascii.eqb c "+" || Ascii.eqb c "-" then rest
                       else String c rest)) as [un|e] eqn:Hp; [|done].
  apply ParseUint_inl in Hp as (Hun & Hne & ->).
  rewrite andb_true_r, bool_decide_eq_true.
  destruct (Ascii.eqb c "-"); simpl;
    destruct (Z.geb_spec un (2 ^ 63)), (Z.gtb_spec un (2 ^ 63)); simpl;
    try done; intros [= <-]; split; try done; lia.
Qed.

Lemma Atoi_signed_decimal s :
  signed_decimal s = true → Atoi s ≠ inr ErrSyntax.
Proof.
  unfold Atoi, ParseInt, signed_decimal. destruct s as [|c rest]; [done|].
  cbv zeta. intros [Hne Hd]%andb_true_iff. apply bool_decide_eq_true in Hne.
  unfold ParseUint.
  destruct (if Ascii.eqb c "+" || Ascii.eqb c "-" then rest else String c rest)
    as [|ch body] eqn:Hb; [done|].
  pose proof (parse_digits_all_digits (String ch body) 0 Hd) as Hp.
  destruct (parse_digits (String ch body) 0) as [un|[]]; try done;
    repeat case_match; done.
Qed.

End AtoiFacts.

(** X12.  The QoS resolver takes the header for a number only when it
    is an optional sign followed by decimal digits and nothing else (no
    space, no other base): on any other text it returns the default,
    and on such a text it returns the number, unless the number does
    not fit in an [int], when it returns the default too. *)
Theorem targetQOS_decimal_only (client : Client) (req : Request) :
  let v := Header_Get (Header req) httpXFlashlightQOS in
  (signed_decimal v = false → targetQOS client req = MinQOS client)
  ∧ (signed_decimal v = true →
     strconv.Atoi v = inl (targetQOS client req) ∨
     (strconv.Atoi v = inr strconv.ErrRange ∧ targetQOS client req = MinQOS client))
  ∧ (targetQOS client req ≠ MinQOS client →
     signed_decimal v = true ∧ strconv.Atoi v = inl (targetQOS client req)).
Proof.
  intros v. unfold targetQOS. fold v.
  assert (v = "" → strconv.Atoi v = inr strconv.ErrSyntax) as Hemp by (by intros ->).
  split; [|split].
  - intros Hsd. case_decide; [|done].
    destruct (strconv.Atoi v) as [n|e] eqn:Ha; [|done].
    apply Atoi_inl in Ha as [? _]. congruence.
  - intros Hsd. pose proof (Atoi_signed_decimal v Hsd) as Hns.
    case_decide as Hv.
    + destruct (strconv.Atoi v) as [n|[]]; [by left|done|by right].
    + destruct Hns. apply Hemp. by destruct (decide (v = "")).
  - case_decide; [|done].
    destruct (strconv.Atoi v) as [n|e] eqn:Ha; [|done].
    intros _. by apply Atoi_inl in Ha as [? _].
Qed.

Lemma targetQOS_decimal_only_witness :
  targetQOS someClient (qosReq "example.com" [" 7"]) = 3 ∧
  targetQOS someClient (qosReq "example.com" ["0x10"]) = 3 ∧
  strconv.Atoi "+8" = inl (targetQOS someClient (qosReq "example.com" ["+8"])) ∧
  targetQOS someClient (qosReq "example.com" ["9223372036854775808"]) = 3.
Proof.
  destruct (targetQOS_decimal_only someClient (qosReq "example.com" [" 7"]))
    as (H1 & _).
  destruct (targetQOS_decimal_only someClient (qosReq "example.com" ["0x10"]))
    as (H2 & _).
  destruct (targetQOS_decimal_only someClient (qosReq "example.com" ["+8"]))
    as (_ & H3 & _).
  destruct (targetQOS_decimal_only someClient
              (qosReq "example.com" ["9223372036854775808"])) as (_ & H4 & _).
  split; [by apply H1|]. split; [by apply H2|].
  destruct (H3 eq_refl) as [H|[H _]]; [|done].
  destruct (H4 eq_refl) as [H'|[_ H']]; [done|].
  split; [exact H|exact H'].
Defined.

(** X13.  The QoS class that the resolver returns is a 64-bit [int]
    whenever the default of the client is one: the header cannot make
    it return a number out of that range. *)
Theorem targetQOS_int_range (client : Client) (req : Request) :
  - 2 ^ 63 ≤ MinQOS client < 2 ^ 63 →
  - 2 ^ 63 ≤ targetQOS client req < 2 ^ 63.
Proof.
  intros Hm. unfold targetQOS. case_decide; [|done].
  destruct (strconv.Atoi _) as [n|e] eqn:Ha; [|done].
  by apply Atoi_inl in Ha as [_ ?].
Qed.

Lemma targetQOS_int_range_witness :
  - 2 ^ 63 ≤ targetQOS someClient (qosReq "example.com" ["-9223372036854775808"])
    < 2 ^ 63.
Proof. apply targetQOS_int_range. by vm_compute. Defined.

(** ** The outbound socket and the goroutine *)

Section Goroutine.

Context (env : Env) (client : Client) (req : Request).
Context (Rc Ro : gmap positive connMeta).

Lemma task_started s :
  Inv env client req Rc Ro s → task s ≠ TNotStarted →
  ∃ c peer out, dialed env client req c peer out ∧
                out_registered (pc s) = true ∧ pc s ≠ PcPipe c out.
Proof.
  intros HI Hn. unfold Inv in HI.
  assert (∀ o, Final env client req Rc Ro s o →
            ∃ c peer out, dialed env client req c peer out) as HF.
  { intros o [? ? Hna|? ? ? Hna|e ? ? ? Hna|c ? Hh Hra ? Hna
             |c peer e ran Hj Hde Ho Hpre Hran Hcc Hco Hmt
             |c peer out ran Hd Ho Hmu Hw Ht Hran Hcc Hco Hmt].
    1-4: by destruct Hna as (? & _).
    - by destruct Hpre as (? & _).
    - by exists c, peer, out. }
  destruct (pc s) eqn:Hp.
  - by destruct HI as (? & _).
  - by destruct HI as (_ & ? & _).
  - by destruct HI as (_ & _ & ? & _).
  - by destruct HI as (peer & _ & (? & _) & _).
  - by destruct HI as (peer & _ & _ & (? & _) & _).
  - by destruct HI as (peer & _ & (? & _) & _).
  - by destruct HI as (peer & _ & (? & _) & _).
  - destruct HI as (peer & Hd & _). by exists clientConn, peer, connOut.
  - destruct HI as (peer & Hd & _). by exists clientConn, peer, connOut.
  - destruct HI as (peer & Hd & _). by exists clientConn, peer, connOut.
  - destruct (HF o HI) as (c & peer & out & Hd). by exists c, peer, out.
  - destruct HI as [HI _].
    destruct (HF o HI) as (c & peer & out & Hd). by exists c, peer, out.
Qed.

Lemma task_trace_started s :
  Inv env client req Rc Ro s → ttrace (trace s) ≠ [] → task s ≠ TNotStarted.
Proof.
  intros HI Hn Ht. apply Hn. unfold Inv in HI.
  assert (∀ o, Final env client req Rc Ro s o → ttrace (trace s) = []) as HF.
  { intros o [? ? Hna|? ? ? Hna|e ? ? ? Hna|c ? Hh Hra ? Hna
             |c peer e ran Hj Hde Ho Hpre Hran Hcc Hco Hmt
             |c peer out ran Hd Ho Hmu Hw Hrel Hran Hcc Hco Hmt].
    1-4: by destruct Hna as (_ & _ & ? & _).
    - by destruct Hpre as (_ & _ & ? & _).
    - unfold task_rel in Hrel. by rewrite Ht in Hrel. }
  destruct (pc s) eqn:Hp.
  - by destruct HI as (_ & _ & ? & _).
  - by destruct HI as (_ & _ & _ & ? & _).
  - by destruct HI as (_ & _ & _ & _ & ? & _).
  - by destruct HI as (peer & _ & (_ & _ & ? & _) & _).
  - by destruct HI as (peer & _ & _ & (_ & _ & ? & _) & _).
  - by destruct HI as (peer & _ & (_ & _ & ? & _) & _).
  - by destruct HI as (peer & _ & (_ & _ & ? & _) & _).
  - destruct HI as (peer & _ & _ & _ & Hrel & _).
    unfold task_rel in Hrel. by rewrite Ht in Hrel.
  - destruct HI as (peer & _ & _ & _ & Hrel & _).
    unfold task_rel in Hrel. by rewrite Ht in Hrel.
  - destruct HI as (peer & _ & _ & _ & Hrel & _).
    unfold task_rel in Hrel. by rewrite Ht in Hrel.
  - by eapply HF.
  - destruct HI. by eapply HF.
Qed.

End Goroutine.

(** X14.  The goroutine of [pipeData] is started only in an attempt
    whose hijack and dial succeeded, and only after both sockets are
    registered and their cleanups deferred: an attempt that fails
    before [pipeData] starts no goroutine, and all that a goroutine
    ever does is one copy from the client to the outbound socket, one
    wait and one Close of the client socket, in this order. *)
Theorem goroutine_only_in_tunnel env client req Rc Ro s :
  reachable env client req Rc Ro s →
  task s ≠ TNotStarted ∨ ttrace (trace s) ≠ [] →
  ∃ c peer out, dialed env client req c peer out ∧
    out_registered (pc s) = true ∧ task s ≠ TNotStarted ∧
    EvWgAdd ∈ trace s ∧
    ttrace (trace s) `prefix_of`
      [EvCopyEnd CopyT out c; EvWgWait; EvClose CopyT c].
Proof.
  intros Hr Hn. pose proof (Inv_reachable _ _ _ _ _ _ Hr) as HI.
  assert (task s ≠ TNotStarted) as Ht.
  { destruct Hn as [?|Hn]; [done|].
    by apply (task_trace_started env client req Rc Ro). }
  destruct (task_started env client req Rc Ro s HI Ht)
    as (c & peer & out & Hd & Hor & Hpp).
  exists c, peer, out. split; [done|]. split; [done|]. split; [done|]. split.
  - apply mtrace_subseteq.
    destruct (tunnel_view env client req Rc Ro s c peer out HI Hd)
      as [Hpr (Ht' & _) _ _ _
         |Hpr Hor' _ _
         |Hpi _
         |ran o Hp Ho Hrel Hran Hcc Hco Hmt].
    + done.
    + congruence.
    + unfold Inv in HI. destruct (pc s) eqn:Hp; try done.
      * destruct HI as (peer' & [(_ & Hh' & _) Hdr'] & _).
        destruct Hd as [(_ & Hh & _) Hdr]. destruct Hpp.
        f_equal; congruence.
      * destruct HI as (peer' & _ & _ & _ & _ & ->). in_list.
      * destruct HI as (peer' & _ & _ & _ & _ & _ & ->). in_list.
      * destruct HI as (peer' & _ & _ & _ & _ & _ & ->). in_list.
    + rewrite Hmt. unfold tunnel_main. in_list.
  - by apply (task_trace_prefix env client req Rc Ro s c peer out).
Qed.

Lemma goroutine_only_in_tunnel_witness :
  let s := exec tunnelEnv someClient someReq closeDuringPipe (initial ∅ ∅) in
  ttrace (trace s) =
    [EvCopyEnd CopyT outSock clientSock; EvWgWait; EvClose CopyT clientSock] ∧
  ∃ c peer out, dialed tunnelEnv someClient someReq c peer out ∧
                out_registered (pc s) = true.
Proof.
  intros s. split; [done|].
  destruct (goroutine_only_in_tunnel tunnelEnv someClient someReq ∅ ∅ s
              (exec_reachable _ _ _ _ _ _)) as (c & peer & out & Hd & Ho & _).
  - by left.
  - by exists c, peer, out.
Defined.

(** X15.  A panic of the remote-address query of the outbound socket
    never ends the attempt: the panic is recovered, the socket is
    registered with an empty peer address while [pipeData] runs, the
    lock is free in every state, [intercept] returns, and at the end
    both sockets have been closed and taken out of the registries. *)
Theorem outbound_addr_panic_recovered env client req Rc Ro s c peer out :
  dialed env client req c peer out → RemoteAddr env out = None →
  reachable env client req Rc Ro s →
  muConns s = false
  ∧ (∀ o, pc s = PcUnwind o ∨ pc s = PcFinished o → o = Returned)
  ∧ (piping (pc s) = true →
       conns s !! out =
         Some {| hostAddr := hostIncludingPort req 443; peerAddr := "";
                 establishedAt := now_out env |})
  ∧ (terminal s →
       closed_by MainT c (trace s) ∧ closed_by MainT out (trace s) ∧
       clientConns s = delete c Rc ∧ conns s = delete out Ro)
  ∧ (∃ s', rtc (step env client req) s s' ∧ terminal s').
Proof.
  intros Hd Hra Hr. pose proof (Inv_reachable _ _ _ _ _ _ Hr) as HI.
  split; [|split; [|split; [|split]]].
  - destruct (Inv_counters env client req Rc Ro s HI) as [_ Hmu].
    destruct (muConns s); [|done].
    destruct (Hmu eq_refl) as (_ & c' & Hh' & Hn).
    destruct Hd as [(_ & Hh & Hp) _]. congruence.
  - intros o Hp.
    destruct (tunnel_view env client req Rc Ro s c peer out HI Hd)
      as [Hpr _ _ _ _|Hpr Hor _ _|Hpi _|ran o' Hp' Ho _ _ _ _ _].
    + by destruct Hp as [Hp|Hp]; rewrite Hp in Hpr.
    + by destruct Hp as [Hp|Hp]; rewrite Hp in Hor.
    + by destruct Hp as [Hp|Hp]; rewrite Hp in Hpi.
    + destruct Hp as [Hp|Hp], Hp' as [Hp'|[Hp' _]]; congruence.
  - intros Hpi.
    destruct (tunnel_view env client req Rc Ro s c peer out HI Hd)
      as [Hpr _ _ _ _|Hpr Hor _ _|_ (_ & _ & Hco & _)|ran o' Hp' Ho _ _ _ _ _].
    + destruct (past_register_phases (pc s)) as (P1 & _).
      destruct (P1 Hpr). congruence.
    + destruct (past_register_phases (pc s)) as (_ & P2 & _).
      rewrite (P2 Hor) in Hpi. done.
    + rewrite Hco, lookup_insert_eq. unfold metaO. by rewrite Hra.
    + by destruct Hp' as [Hp|[Hp _]]; rewrite Hp in Hpi.
  - intros Ht.
    destruct (tunnel_terminal env client req Rc Ro s c peer out HI Hd Ht)
      as (_ & Hcc & Hco & Hmt & _).
    repeat split; try done; apply mtrace_subseteq; rewrite Hmt;
      unfold tunnel_full; in_list.
  - by apply (reach_terminal env client req Rc Ro).
Qed.

Lemma outbound_addr_panic_recovered_witness :
  let s := exec outAddrPanicEnv someClient someReq (mainOnly 7) (initial ∅ ∅) in
  let s' := exec outAddrPanicEnv someClient someReq taskEarly (initial ∅ ∅) in
  peerAddr <$> conns s !! outSock = Some "" ∧
  (∀ o, pc s' = PcFinished o → o = Returned) ∧ conns s' = ∅ ∧ clientConns s' = ∅.
Proof.
  intros s s'.
  destruct (outbound_addr_panic_recovered outAddrPanicEnv someClient someReq ∅ ∅ s
              clientSock "10.0.0.7:51000" outSock) as (_ & _ & H1 & _).
  { by repeat split. } { done. } { apply exec_reachable. }
  destruct (outbound_addr_panic_recovered outAddrPanicEnv someClient someReq ∅ ∅ s'
              clientSock "10.0.0.7:51000" outSock) as (_ & H2 & _ & H3 & _).
  { by repeat split. } { done. } { apply exec_reachable. }
  split; [by rewrite (H1 eq_refl)|].
  split; [intros o Ho; apply H2; by right|].
  destruct H3 as (_ & _ & ? & ?); [split; [by eexists|by right]|]. done.
Defined.

(** X16.  An attempt that has ended without a panic leaves nothing in
    the registries: when the sockets it acquired were not registered
    before, a tick of the reporter after the end of the attempt logs
    what it would have logged had the attempt not taken place, whether
    the dial failed or the tunnel was established and torn down. *)
Theorem attempt_leaves_no_report env client req Rc Ro s c peer :
  hijacked env req c peer → Rc !! c = None →
  (∀ out, dial_result env client req = inl out → Ro !! out = None) →
  reachable env client req Rc Ro s → terminal s →
  clientConns s = Rc ∧ conns s = Ro ∧
  ∀ now logs, Reports now s logs ↔ Reports now (initial Rc Ro) logs.
Proof.
  intros Hj Hc Ho Hr Ht. pose proof (Inv_reachable _ _ _ _ _ _ Hr) as HI.
  assert (clientConns s = Rc ∧ conns s = Ro ∧ muConns s = false)
    as (Hcc & Hco & Hmu).
  { destruct (dial_result env client req) as [out|e] eqn:Hde.
    - assert (dialed env client req c peer out) as Hd by done.
      destruct (tunnel_terminal env client req Rc Ro s c peer out HI Hd Ht)
        as (_ & -> & -> & _).
      rewrite !delete_id by auto. split; [done|]. split; [done|].
      destruct (Inv_counters env client req Rc Ro s HI) as [_ Hmu].
      destruct (muConns s); [|done].
      destruct (Hmu eq_refl) as (_ & c' & Hh' & Hn).
      destruct Hj as (_ & Hh & Hp). congruence.
    - destruct (dial_failed_states env client req Rc Ro s c peer e HI Hj Hde)
        as ((_ & _ & _ & Hmu) & Hco & _ & Hfin).
      destruct Ht as [[o Hp] _]. destruct (Hfin o Hp) as (_ & -> & _).
      by rewrite delete_id. }
  split; [done|]. split; [done|]. intros now logs.
  unfold Reports. simpl. by rewrite Hcc, Hco, Hmu.
Qed.

Lemma attempt_leaves_no_report_witness :
  let Ro : gmap positive connMeta := {[7%positive := longLived]} in
  let s := exec tunnelEnv someClient someReq taskEarly (initial ∅ Ro) in
  conns s = Ro ∧ clientConns s = ∅ ∧
  tick 600000001001 s = tick 600000001001 (initial ∅ Ro).
Proof.
  intros Ro s.
  destruct (attempt_leaves_no_report tunnelEnv someClient someReq ∅ Ro s clientSock
              "10.0.0.7:51000") as (H1 & H2 & _).
  - by repeat split.
  - done.
  - intros out [= <-]. done.
  - apply exec_reachable.
  - split; [by eexists|by right].
  - split; [done|]. split; [done|]. unfold tick. by rewrite H1, H2.
Defined.

(** ** What an attempt writes on and closes *)

Section Paths.

Context (env : Env) (client : Client) (req : Request).
Context (Rc Ro : gmap positive connMeta).

(** The trace of the calling context is the beginning of the trace of
    one of the five ways an attempt can go. *)
Lemma attempt_paths s :
  Inv env client req Rc Ro s →
  ∃ L, mtrace (trace s) `prefix_of` L ∧
    (L = [] ∨
     (∃ e, hijacker env = Some (inr e) ∧
           L = respondBadGateway env W_resp (hijackMsg e)) ∨
     (∃ c, hijacker env = Some (inl c) ∧ RemoteAddr env c = None ∧
           L = [EvHijack c]) ∨
     (∃ c peer e, hijacked env req c peer ∧ dial_result env client req = inr e ∧
                  L = dial_failed_full env client req c e) ∨
     (∃ c peer out, dialed env client req c peer out ∧
                    L = tunnel_full env client req c out)).
Proof.
  intros HI.
  destruct (decide (Method req = httpConnectMethod)) as [Hm|Hm]; cycle 1.
  { destruct (non_connect_states env client req Rc Ro s HI Hm)
      as [(_ & _ & _ & _ & _ & _ & _ & ->) _].
    exists []. split; [done|by left]. }
  destruct (hijacker env) as [[c|e]|] eqn:Hh.
  - destruct (RemoteAddr env c) as [peer|] eqn:Hra.
    + assert (hijacked env req c peer) as Hj by done.
      destruct (dial_result env client req) as [out|e] eqn:Hde.
      * exists (tunnel_full env client req c out). split.
        -- by apply (tunnel_trace_prefix env client req Rc Ro s c peer out).
        -- repeat right. by exists c, peer, out.
      * exists (dial_failed_full env client req c e). split.
        -- destruct (dial_failed_states env client req Rc Ro s c peer e HI Hj Hde)
             as ((_ & _ & Htt & _) & _ & Hpf & _).
           by rewrite (mtrace_all _ Htt).
        -- do 3 right. left. by exists c, peer, e.
    + exists [EvHijack c]. split.
      * destruct (addr_panic_states env client req Rc Ro s c HI Hm Hh Hra)
          as (lock & tr & (_ & _ & _ & _ & _ & _ & _ & ->) & [-> | ->] & _);
          [apply prefix_nil|done].
      * do 2 right. left. by exists c.
  - exists (respondBadGateway env W_resp (hijackMsg e)). split.
    + unfold Inv in HI.
      assert (∀ o, Final env client req Rc Ro s o →
                mtrace (trace s) = respondBadGateway env W_resp (hijackMsg e)) as HF.
      { intros o [? ? Hna|? ? ? Hna|e' ? He ? Hna|c' ? Hc ? ? Hna
                 |c' peer' e' ran (_ & Hh' & _) |c' peer' out ran [(_ & Hh' & _) _]];
          try congruence.
        destruct Hna as (_ & _ & _ & _ & _ & _ & _ & ->). congruence. }
      destruct (pc s) eqn:Hp.
      * destruct HI as (_ & _ & _ & _ & _ & _ & _ & ->). apply prefix_nil.
      * destruct HI as (_ & _ & _ & _ & _ & _ & _ & _ & ->). apply prefix_nil.
      * destruct HI as (_ & ? & _). congruence.
      * destruct HI as (peer & (_ & ? & _) & _). congruence.
      * destruct HI as (peer & (_ & ? & _) & _). congruence.
      * destruct HI as (peer & [(_ & ? & _) _] & _). congruence.
      * destruct HI as (peer & [(_ & ? & _) _] & _). congruence.
      * destruct HI as (peer & [(_ & ? & _) _] & _). congruence.
      * destruct HI as (peer & [(_ & ? & _) _] & _). congruence.
      * destruct HI as (peer & [(_ & ? & _) _] & _). congruence.
      * by rewrite (HF o HI).
      * destruct HI as [HI _]. by rewrite (HF o HI).
    + right. left. by exists e.
  - exists []. split; [|by left].
    unfold Inv in HI.
    assert (∀ o, Final env client req Rc Ro s o → mtrace (trace s) = []) as HF.
    { intros o [? ? Hna|? ? ? Hna|e' ? He ? Hna|c' ? Hc ? ? Hna
               |c' peer' e' ran (_ & Hh' & _) |c' peer' out ran [(_ & Hh' & _) _]];
        try congruence.
      by destruct Hna as (_ & _ & _ & _ & _ & _ & _ & ->). }
    destruct (pc s) eqn:Hp.
    * destruct HI as (_ & _ & _ & _ & _ & _ & _ & ->). apply prefix_nil.
    * destruct HI as (_ & _ & _ & _ & _ & _ & _ & _ & ->). apply prefix_nil.
    * destruct HI as (_ & ? & _). congruence.
    * destruct HI as (peer & (_ & ? & _) & _). congruence.
    * destruct HI as (peer & (_ & ? & _) & _). congruence.
    * destruct HI as (peer & [(_ & ? & _) _] & _). congruence.
    * destruct HI as (peer & [(_ & ? & _) _] & _). congruence.
    * destruct HI as (peer & [(_ & ? & _) _] & _). congruence.
    * destruct HI as (peer & [(_ & ? & _) _] & _). congruence.
    * destruct HI as (peer & [(_ & ? & _) _] & _). congruence.
    * by rewrite (HF o HI).
    * destruct HI as [HI _]. by rewrite (HF o HI).
Qed.

Lemma in_respondBadGateway w m e :
  e ∈ respondBadGateway env w m → ∃ x ok, e = EvWrite w x ok.
Proof.
  unfold respondBadGateway. destruct (write_err env w _); intros Hin;
    repeat (apply elem_of_cons in Hin as [->|Hin]; [by eexists _, _|]);
    by apply elem_of_nil in Hin.
Qed.

End Paths.

(** X17.  The handler writes on the response writer only when
    [Hijack()] returned an error, and on a connection only when it is
    the client socket that [Hijack()] returned: after a hijack the
    response writer is never written on, and the handler itself never
    writes on the outbound socket.  It closes no socket but the
    hijacked one and, in the calling context only, the one the dial
    returned. *)
Theorem writes_and_closes env client req Rc Ro s :
  reachable env client req Rc Ro s →
  (∀ x ok, EvWrite W_resp x ok ∈ trace s → ∃ e, hijacker env = Some (inr e))
  ∧ (∀ c x ok, EvWrite (W_conn c) x ok ∈ trace s → hijacker env = Some (inl c))
  ∧ (∀ k, EvClose CopyT k ∈ trace s → hijacker env = Some (inl k))
  ∧ (∀ k, EvClose MainT k ∈ trace s →
       hijacker env = Some (inl k) ∨ dial_result env client req = inl k).
Proof.
  intros Hr. pose proof (Inv_reachable _ _ _ _ _ _ Hr) as HI.
  assert (∀ e, e ∈ trace s → is_task_event e = false →
            (∀ n a q, e ≠ EvDialQOS n a q) → e ≠ EvDetourDialer →
            (∀ n a, e ≠ EvDetourDial n a) →
            (∃ er x ok, hijacker env = Some (inr er) ∧ e = EvWrite W_resp x ok) ∨
            (∃ c, hijacker env = Some (inl c) ∧
               (e = EvHijack c ∨ (∃ x ok, e = EvWrite (W_conn c) x ok) ∨
                e = EvClose MainT c ∨ e = EvWgAdd ∨ e = EvWgDone ∨
                (∃ m, e = EvLogError m) ∨
                ∃ out, dial_result env client req = inl out ∧
                       (e = EvCopyEnd MainT c out ∨ e = EvClose MainT out))))
    as Hmain.
  { intros e Hin Hte Hd1 Hd2 Hd3.
    assert (e ∉ dial_events env client req) as Hnd.
    { unfold dial_events, dial. destruct (forceDirect env client); simpl;
        repeat (rewrite not_elem_of_cons); repeat split; auto using not_elem_of_nil. }
    assert (e ∈ mtrace (trace s)) as Hin' by (by apply elem_of_mtrace).
    destruct (attempt_paths env client req Rc Ro s HI) as (L & [k ->] & HL).
    assert (e ∈ mtrace (trace s) ++ k) as HinL by (apply elem_of_app; by left).
    destruct HL as [HL|[(er & Hh & HL)|[(c & Hh & _ & HL)
                  |[(c & peer & er & (_ & Hh & _) & Hde & HL)
                   |(c & peer & out & [(_ & Hh & _) Hde] & HL)]]]];
      rewrite HL in HinL.
    - by apply elem_of_nil in HinL.
    - left. apply in_respondBadGateway in HinL as (x & ok & ->). by exists er, x, ok.
    - right. exists c. split; [done|]. left.
      apply elem_of_cons in HinL as [->|HinL]; [done|by apply elem_of_nil in HinL].
    - right. exists c. split; [done|].
      unfold dial_failed_full, dial_failed_main in HinL.
      rewrite !elem_of_app in HinL.
      destruct HinL as [[HinL|[HinL|HinL]]|HinL]; try done.
      + left. apply elem_of_cons in HinL as [->|HinL];
          [done|by apply elem_of_nil in HinL].
      + right. left. by apply in_respondBadGateway in HinL.
      + right. right. left.
        apply elem_of_cons in HinL as [->|HinL]; [done|by apply elem_of_nil in HinL].
    - right. exists c. split; [done|].
      unfold tunnel_full, tunnel_main, pipe_end, okWrite in HinL.
      rewrite !elem_of_app in HinL.
      destruct HinL as [[HinL|[HinL|[HinL|HinL]]]|HinL]; try done.
      + left. apply elem_of_cons in HinL as [->|HinL];
          [done|by apply elem_of_nil in HinL].
      + repeat (apply elem_of_cons in HinL as [->|HinL]; [eauto 10|]).
        by apply elem_of_nil in HinL.
      + destruct (write_err env (W_conn c) (StatusResponse StatusOK));
          (apply elem_of_cons in HinL as [->|HinL];
           [eauto 12|by apply elem_of_nil in HinL]).
      + repeat (apply elem_of_cons in HinL as [->|HinL]; [eauto 12|]).
        by apply elem_of_nil in HinL. }
  split; [|split; [|split]].
  - intros x ok Hin.
    destruct (Hmain _ Hin) as [(er & ? & ? & Hh & _)|(c & Hh & Hc)]; try done;
      [by exists er|].
    destruct Hc as [?|[(? & ? & ?)|[?|[?|[?|[(? & ?)|(out & _ & [?|?])]]]]]];
      simplify_eq.
  - intros c x ok Hin.
    destruct (Hmain _ Hin) as [(er & ? & ? & Hh & ?)|(c' & Hh & Hc)]; try done.
    destruct Hc as [?|[(? & ? & ?)|[?|[?|[?|[(? & ?)|(out & _ & [?|?])]]]]]];
      by simplify_eq.
  - intros k Hin.
    assert (EvClose CopyT k ∈ ttrace (trace s)) as Hin'
      by (by apply elem_of_ttrace).
    assert (task s ≠ TNotStarted) as Ht.
    { apply (task_trace_started env client req Rc Ro s HI).
      intros E. rewrite E in Hin'. by apply elem_of_nil in Hin'. }
    destruct (task_started env client req Rc Ro s HI Ht)
      as (c & peer & out & Hd & _).
    destruct (task_trace_prefix env client req Rc Ro s c peer out HI Hd) as [l Hl].
    assert (EvClose CopyT k ∈ [EvCopyEnd CopyT out c; EvWgWait; EvClose CopyT c])
      as Hin2 by (rewrite Hl; apply elem_of_app; by left).
    repeat (apply elem_of_cons in Hin2 as [?|Hin2]; simplify_eq; try done).
    + by destruct Hd as [(_ & ? & _) _].
    + by apply elem_of_nil in Hin2.
  - intros k Hin.
    destruct (Hmain _ Hin) as [(er & ? & ? & Hh & ?)|(c' & Hh & Hc)]; try done.
    destruct Hc as [?|[(? & ? & ?)|[?|[?|[?|[(? & ?)|(out & Hde & [?|?])]]]]]];
      simplify_eq; auto.
Qed.

Lemma writes_and_closes_witness :
  let s := exec dialFailEnv someClient someReq (mainOnly 8) (initial ∅ ∅) in
  EvWrite (W_conn clientSock) (StatusResponse StatusBadGateway) true ∈ trace s ∧
  ∀ x ok, EvWrite W_resp x ok ∉ trace s.
Proof.
  intros s.
  destruct (writes_and_closes dialFailEnv someClient someReq ∅ ∅ s
              (exec_reachable _ _ _ _ _ _)) as (H1 & _).
  split.
  - let t := eval vm_compute in (trace s) in change (trace s) with t. in_list.
  - intros x ok Hin. by destruct (H1 x ok Hin).
Defined.

(** ** Hosts in brackets *)

Section Bracketed.

Import GoString.

Lemma IndexByteString_app_sep h t c :
  net.has h c = false → IndexByteString (h +:+ String c t) c = len h.
Proof.
  intros Hh. unfold len. induction h as [|a h IH].
  - rewrite sapp_nil. simpl. by rewrite Ascii.eqb_refl.
  - rewrite has_cons in Hh. apply orb_false_elim in Hh as [Ha Hh].
    rewrite sapp_cons. simpl. rewrite Ha, (IH Hh).
    cbn [String.length]. rewrite Nat2Z.inj_succ.
    destruct (Z.ltb_spec (Z.of_nat (String.length h)) 0); lia.
Qed.

Lemma len_nonneg s : 0 ≤ len s.
Proof. unfold len. lia. Qed.

Lemma len_cons a s : len (String a s) = 1 + len s.
Proof. unfold len. cbn [String.length]. lia. Qed.

Lemma slice_from_cons a s j :
  0 ≤ j → slice_from (String a s) (1 + j) = slice_from s j.
Proof.
  intros Hj. unfold slice_from.
  replace (Z.to_nat (1 + j)) with (S (Z.to_nat j)) by lia. done.
Qed.

Lemma slice_cons a s k :
  0 ≤ k → slice (String a s) 1 (1 + k) = slice_to s k.
Proof.
  intros Hk. unfold slice, slice_to.
  replace (Z.to_nat (1 + k) - Z.to_nat 1)%nat with (Z.to_nat k) by lia. done.
Qed.

(** A host in brackets, which may hold colons, then a colon and a
    port: the split takes the brackets off. *)
Lemma SplitHostPort_bracketed h p :
  net.has h "[" = false → net.has h "]" = false → plain p = true →
  net.SplitHostPort ("[" +:+ h +:+ "]:" +:+ p) = inl (h, p).
Proof.
  intros Hh1 Hh2 Hp. apply plain_has in Hp as (Hp1 & Hp2 & Hp3).
  pose proof (len_nonneg h) as Hlh. pose proof (len_nonneg p) as Hlp.
  change ("[" +:+ h +:+ "]:" +:+ p) with (String "[" (h +:+ String "]" (String ":" p))).
  assert (last (String "[" (h +:+ String "]" (String ":" p))) ":" = len h + 2) as Hi.
  { change (String "[" (h +:+ String "]" (String ":" p)))
      with (String "[" (h +:+ String "]" ("" +:+ String ":" p))).
    change (String "]" ("" +:+ String ":" p)) with ("]" +:+ String ":" p).
    rewrite sapp_assoc, <- sapp_cons, (last_app_sep _ p ":" Hp1).
    rewrite len_cons, len_app. change (len "]") with 1. lia. }
  assert (IndexByteString (String "[" (h +:+ String "]" (String ":" p))) "]"
          = 1 + len h) as He.
  { simpl. rewrite (IndexByteString_app_sep h _ "]" Hh2).
    destruct (Z.ltb_spec (len h) 0); [lia|done]. }
  assert (len (String "[" (h +:+ String "]" (String ":" p))) = len h + 3 + len p)
    as Hl.
  { rewrite len_cons, len_app, !len_cons. lia. }
  unfold net.SplitHostPort. rewrite Hi, He, Hl. cbn [at_ String.get Z.to_nat].
  change (Ascii.eqb "[" "[") with true. cbv iota.
  destruct (Z.ltb_spec (len h + 2) 0); [lia|].
  destruct (Z.ltb_spec (1 + len h) 0); [lia|].
  destruct (Z.eqb_spec (1 + len h + 1) (len h + 3 + len p)); [lia|].
  destruct (Z.eqb_spec (1 + len h + 1) (len h + 2)); [|lia].
  assert (slice_from (String "[" (h +:+ String "]" (String ":" p))) 1
          = h +:+ String "]" (String ":" p)) as ->.
  { change 1 with (1 + 0) at 1. rewrite slice_from_cons by lia.
    apply slice_from_0. }
  assert (slice_from (String "[" (h +:+ String "]" (String ":" p))) (1 + len h + 1)
          = String ":" p) as ->.
  { rewrite <- Z.add_assoc, slice_from_cons by lia.
    change (String "]" (String ":" p)) with (String "]" "" +:+ String ":" p).
    rewrite sapp_assoc.
    assert (len h + 1 = len (h +:+ String "]" "")) as -> by (by rewrite len_app).
    apply slice_from_app. }
  assert (slice_from (String "[" (h +:+ String "]" (String ":" p))) (len h + 2 + 1)
          = p) as ->.
  { replace (len h + 2 + 1) with (1 + (len h + 2)) by lia.
    rewrite slice_from_cons by lia.
    change (String "]" (String ":" p)) with (String "]" (String ":" "") +:+ p).
    rewrite sapp_assoc.
    assert (len h + 2 = len (h +:+ String "]" (String ":" ""))) as ->
      by (by rewrite len_app).
    apply slice_from_app. }
  rewrite slice_cons by lia. rewrite slice_to_app.
  rewrite has_app, !has_cons, Hh1, Hp2, Hp3. done.
Qed.

(** A host in brackets and nothing after: the port is missing. *)
Lemma SplitHostPort_brackets_only h :
  net.has h "]" = false →
  net.SplitHostPort ("[" +:+ h +:+ "]") = inr net.missingPort.
Proof.
  intros Hh2. pose proof (len_nonneg h) as Hlh.
  change ("[" +:+ h +:+ "]") with (String "[" (h +:+ String "]" "")).
  assert (IndexByteString (String "[" (h +:+ String "]" "")) "]" = 1 + len h) as He.
  { simpl. rewrite (IndexByteString_app_sep h _ "]" Hh2).
    destruct (Z.ltb_spec (len h) 0); [lia|done]. }
  assert (len (String "[" (h +:+ String "]" "")) = len h + 2) as Hl.
  { rewrite len_cons, len_app, !len_cons. change (len "") with 0. lia. }
  unfold net.SplitHostPort. rewrite He, Hl. cbn [at_ String.get Z.to_nat].
  change (Ascii.eqb "[" "[") with true. cbv iota.
  destruct (_ <? 0); [done|].
  destruct (Z.ltb_spec (1 + len h) 0); [lia|].
  destruct (Z.eqb_spec (1 + len h + 1) (len h + 2)); [done|lia].
Qed.

End Bracketed.

(** X18.  A host in brackets, as an IPv6 literal is written, is told
    from its port by the brackets, not by its colons: with a port that
    is not empty after the closing bracket the address is the host of
    the request unchanged, and with no port, or an empty one, the
    default port is appended after the bracket. *)
Theorem hostIncludingPort_bracketed (req : Request) (dp : Z) (h p : string) :
  net.has h "[" = false → net.has h "]" = false → plain p = true →
  (Host req = "[" +:+ h +:+ "]:" +:+ p → p ≠ "" →
     hostIncludingPort req dp = Host req)
  ∧ (Host req = "[" +:+ h +:+ "]" →
     hostIncludingPort req dp = "[" +:+ h +:+ "]:" +:+ strconv.Itoa dp)
  ∧ (Host req = "[" +:+ h +:+ "]:" →
     hostIncludingPort req dp = "[" +:+ h +:+ "]::" +:+ strconv.Itoa dp).
Proof.
  intros Hh1 Hh2 Hp. split; [|split].
  - intros E Hne. apply (hostIncludingPort_split_ok req dp h p); [|done].
    rewrite E. by apply SplitHostPort_bracketed.
  - intros E. rewrite hostIncludingPort_split_fails.
    + rewrite E. by rewrite <- !sapp_assoc.
    + left. exists net.missingPort. rewrite E.
      by apply SplitHostPort_brackets_only.
  - intros E. rewrite hostIncludingPort_split_fails.
    + rewrite E. by rewrite <- !sapp_assoc.
    + right. exists h. rewrite E.
      by apply (SplitHostPort_bracketed h "").
Qed.

Lemma hostIncludingPort_bracketed_witness :
  hostIncludingPort (plainReq "[2001:db8::1]:8443") 443 = "[2001:db8::1]:8443" ∧
  hostIncludingPort (plainReq "[2001:db8::1]") 443 = "[2001:db8::1]:443".
Proof.
  destruct (hostIncludingPort_bracketed (plainReq "[2001:db8::1]:8443") 443
              "2001:db8::1" "8443") as (H1 & _); [done..|].
  destruct (hostIncludingPort_bracketed (plainReq "[2001:db8::1]") 443
              "2001:db8::1" "") as (_ & H2 & _); [done..|].
  split; [by apply H1|by apply H2].
Defined.
